(** * Parlor: the search orchestration of the Angular client

    A shallow embedding of the client-side controllers of the Parlor
    restaurant recommender:

    - [LocationService.getCurrentPosition]   (services/location.service.ts)
    - [SearchComponent]                      (components/search/search.component.ts)
    - [ResultsComponent]                     (components/results/results.component.ts)
    - [App.handleSearch]                     (main.ts)

    Component fields become records, every method becomes a command over
    the component record that also logs the calls it makes on its
    collaborators (HTTP gateway, dialogs, timers).  Callbacks passed to
    [subscribe] become separate commands, run when the matching response
    event is delivered.  The RxJS operators the components rely on
    ([debounceTime], [distinctUntilChanged], [forkJoin]) are modelled in
    [Rx]. *)

From Stdlib Require Import ZArith QArith Qround Lqa String Ascii List Bool Lia.
From stdpp Require Import base list strings.
Import ListNotations.

Local Open Scope string_scope.
Local Open Scope Z_scope.
Local Open Scope list_scope.

(** ** JavaScript values of a [number]-typed slot *)

Module Js.

(** A finite double is a rational; the code below only compares and
    stores numbers, so rationals cover every finite double. *)
Inductive number :=
| Fin (q : Q)
| NaN
| Infinity
| NegInfinity.

(** What a field declared [number] (or [number?]) holds at run time:
    Angular writes [null] for an empty numeric input. *)
Inductive value :=
| Undefined
| Null
| Num (n : number).

Definition Qltb (x y : Q) : bool := negb (Qle_bool y x).

(** ToBoolean *)
Definition truthy (v : value) : bool :=
  match v with
  | Undefined | Null => false
  | Num (Fin q) => negb (Qeq_bool q 0)
  | Num NaN => false
  | Num Infinity | Num NegInfinity => true
  end.

(** ToNumber *)
Definition toNumber (v : value) : number :=
  match v with
  | Undefined => NaN
  | Null => Fin 0
  | Num n => n
  end.

Definition num_lt (a b : number) : bool :=
  match a, b with
  | NaN, _ | _, NaN => false
  | Fin x, Fin y => Qltb x y
  | NegInfinity, NegInfinity => false
  | NegInfinity, _ => true
  | _, NegInfinity => false
  | Infinity, _ => false
  | Fin _, Infinity => true
  end.

(** [a < b] and [a > b] on values *)
Definition lt (a b : value) : bool := num_lt (toNumber a) (toNumber b).
Definition gt (a b : value) : bool := num_lt (toNumber b) (toNumber a).

(** [s] used as a condition: the empty string is falsy *)
Definition truthy_str (s : string) : bool := negb (String.eqb s "").

(** [a || b] on optional strings ([undefined] is [None]) *)
Definition or_str (a : option string) (b : string) : string :=
  match a with
  | Some s => if truthy_str s then s else b
  | None => b
  end.

(** [s] between double quotes *)
Definition quoted (s : string) : string :=
  String (Ascii.ascii_of_nat 34) (s +:+ String (Ascii.ascii_of_nat 34) EmptyString).

(** [a % b] on integers: the sign follows the dividend *)
Definition rem (a b : Z) : Z := Z.rem a b.

End Js.

(** ** Commands: state, a log of outgoing calls, and uncaught exceptions *)

Section Command.
Context {S E : Type}.

(** A command maps a state to a result, a new state and the calls made.
    [None] means the command does not complete: an uncaught [TypeError],
    or a callback nothing is waiting for. *)
Definition Cmd (A : Type) : Type := S -> option (A * S * list E).

Definition ret {A} (a : A) : Cmd A := fun s => Some (a, s, []).

Definition bind {A B} (m : Cmd A) (k : A -> Cmd B) : Cmd B :=
  fun s =>
    match m s with
    | None => None
    | Some (a, s1, l1) =>
        match k a s1 with
        | None => None
        | Some (b, s2, l2) => Some (b, s2, l1 ++ l2)
        end
    end.

Definition get : Cmd S := fun s => Some (s, s, []).
Definition modify (f : S -> S) : Cmd unit := fun s => Some (tt, f s, []).
Definition call (e : E) : Cmd unit := fun s => Some (tt, s, [e]).
Definition throw {A} : Cmd A := fun _ => None.
Definition skip : Cmd unit := ret tt.

(** State and log after running a command; [None] if it threw. *)
Definition exec {A} (m : Cmd A) (s : S) : option (S * list E) :=
  match m s with
  | Some (_, s', l) => Some (s', l)
  | None => None
  end.
End Command.

Arguments Cmd : clear implicits.

#[global] Instance cmd_ret {S E} : MRet (Cmd S E) := @ret S E.
#[global] Instance cmd_bind {S E} : MBind (Cmd S E) := fun A B k m => bind m k.

(** ** models/restaurant.model.ts *)

Module Model.

Record UserPreferences := {
  maxDistance : Js.value;
  minRating : Q;
  dietaryRestrictions : list string;
  favoriteStyles : list string
}.

(** [offset] and [sessionId] are never set by the client. *)
Record SearchRequest := {
  address : string;
  latitude : Js.value;
  longitude : Js.value;
  preferences : option UserPreferences
}.

Record AIGeneratedSummary := {
  restaurantId : string;
  summary : string;
  highlights : list string;
  recommendations : list string
}.

(** Of a restaurant the components read [id], [name] and the optional
    [photoUrl], and read and write the optional [aiSummary]; the other
    fields of the interface (address, distance, rating, ...) are passed
    through untouched and left out. *)
Record Restaurant := {
  id : string;
  name : string;
  photoUrl : option string;
  aiSummary : option AIGeneratedSummary
}.

Definition set_aiSummary (s : option AIGeneratedSummary) (r : Restaurant) : Restaurant :=
  {| id := id r; name := name r; photoUrl := photoUrl r; aiSummary := s |}.

(** [{ location: { latitude, longitude }, formattedAddress }] of the
    place-details proxy; [location] may be absent. *)
Record PlaceDetails := {
  location : option (Js.value * Js.value);
  formattedAddress : option string
}.

Record Prediction := {
  description : string;
  place_id : string
}.

End Model.

(** ** The RxJS operators the components use *)

Module Rx.

(** *** [debounceTime(due)] over a clock in milliseconds

    The operator keeps the last value received and the time it came
    in; its timer sends that value on once [due] ms have passed with no
    newer value.  A timer due at the very instant of a keystroke runs
    before the keystroke is handled. *)
Section Debounce.
Context {A : Type}.

Record Debounce := {
  lastValue : option A;
  lastTime : N
}.

Definition idle : Debounce := {| lastValue := None; lastTime := 0%N |}.

(** The timer work that is due at time [now]. *)
Definition advance (due now : N) (d : Debounce) : Debounce * list (N * A) :=
  match lastValue d with
  | Some v =>
      if (lastTime d + due <=? now)%N
      then (idle, [((lastTime d + due)%N, v)])
      else (d, [])
  | None => (d, [])
  end.

(** A value arrives from the source at time [t]. *)
Definition receive (due t : N) (v : A) (d : Debounce) : Debounce * list (N * A) :=
  let '(_, out) := advance due t d in
  ({| lastValue := Some v; lastTime := t |}, out).

(** Emissions, with their times, for the time-stamped input up to the
    moment [horizon]. *)
Fixpoint debounceTime (due : N) (input : list (N * A)) (horizon : N)
    (d : Debounce) : list (N * A) :=
  match input with
  | [] => snd (advance due horizon d)
  | (t, v) :: rest =>
      let '(d', out) := receive due t v d in
      out ++ debounceTime due rest horizon d'
  end.
End Debounce.

(** *** [distinctUntilChanged()] with [===] on strings *)
Fixpoint distinctUntilChanged (prev : option string) (input : list (N * string))
    : list (N * string) :=
  match input with
  | [] => []
  | (t, v) :: rest =>
      if match prev with Some p => String.eqb p v | None => false end
      then distinctUntilChanged prev rest
      else (t, v) :: distinctUntilChanged (Some v) rest
  end.

(** *** [forkJoin(sources)] for sources that send one value and complete

    Every source joined in main.ts is of that kind: an HTTP response
    piped through [catchError(() => of(null))], or an image probe that
    calls [next] then [complete].  The join keeps one slot per source
    and sends the array of values when the last slot is filled. *)
Section ForkJoin.
Context {V : Type}.

Inductive Notification :=
| Next (values : list V)
| Complete.

Inductive Join :=
| Waiting (values : list (option V))
| Finished.

(** Subscribing to a join of [n] sources: with no source at all the
    result completes at once and sends no value. *)
Definition subscribe (n : nat) : Join * list Notification :=
  if (n =? 0)%nat then (Finished, [Complete])
  else (Waiting (replicate n None), []).

(** All the values, once every source has sent one. *)
Definition collected (values : list (option V)) : option (list V) :=
  mapM id values.

(** Source [k] sends [v] and completes. *)
Definition settle (k : nat) (v : V) (j : Join) : Join * list Notification :=
  match j with
  | Finished => (Finished, [])
  | Waiting values =>
      let values' := <[k := Some v]> values in
      match collected values' with
      | Some all => (Finished, [Next all; Complete])
      | None => (Waiting values', [])
      end
  end.

Definition pending (k : nat) (j : Join) : bool :=
  match j with
  | Waiting values =>
      match values !! k with
      | Some None => true
      | _ => false
      end
  | Finished => false
  end.
End ForkJoin.

Arguments Notification : clear implicits.
Arguments Join : clear implicits.

End Rx.

(** ** services/location.service.ts *)

Module Location.

Record PositionOptions := {
  enableHighAccuracy : bool;
  timeout : Z;
  maximumAge : Z
}.

Record Coordinates := {
  latitude : Js.value;
  longitude : Js.value
}.

(** [code] is 1 (PERMISSION_DENIED), 2 (POSITION_UNAVAILABLE) or
    3 (TIMEOUT) for a browser error. *)
Record PositionError := {
  code : Z;
  message : string
}.

(** What the observer is told: the plain [Error] raised when the
    browser has no geolocation object carries no [code]. *)
Inductive Failure :=
| NotSupported (msg : string)
| Geo (e : PositionError).

Inductive Notification :=
| Next (position : Coordinates)
| Complete
| Error (f : Failure).

(** [navigator.geolocation.getCurrentPosition]: each request is
    answered through exactly one of its two callbacks. *)
Definition Geolocation := PositionOptions -> Coordinates + PositionError.

Definition highAccuracyOptions : PositionOptions :=
  {| enableHighAccuracy := true; timeout := 5000; maximumAge := 0 |}.

Definition lowAccuracyOptions : PositionOptions :=
  {| enableHighAccuracy := false; timeout := 10000; maximumAge := 0 |}.

(** The requests made on the browser, in order, and the notifications
    sent to the subscriber.  [geolocation] is [navigator.geolocation]. *)
Definition getCurrentPosition (geolocation : option Geolocation)
  : list PositionOptions * list Notification :=
  match geolocation with
  | None => ([], [Error (NotSupported "Geolocation is not supported by this browser.")])
  | Some api =>
      match api highAccuracyOptions with
      | inl position => ([highAccuracyOptions], [Next position; Complete])
      | inr error =>
          if code error =? 1 then
            ([highAccuracyOptions], [Error (Geo error)])
          else
            match api lowAccuracyOptions with
            | inl position =>
                ([highAccuracyOptions; lowAccuracyOptions], [Next position; Complete])
            | inr fallbackError =>
                ([highAccuracyOptions; lowAccuracyOptions], [Error (Geo fallbackError)])
            end
      end
  end.

(** [error.code] as the search component reads it *)
Definition failure_code (f : Failure) : option Z :=
  match f with
  | NotSupported _ => None
  | Geo e => Some (code e)
  end.

End Location.

(** ** components/search/search.component.ts *)

Module Search.
Import Model.

Record SearchComponent := {
  address : string;
  loading : bool;
  showDietaryDropdown : bool;
  predictions : list Prediction;
  showPredictions : bool;
  activePredictionIndex : Z;
  errorMessage : string;
  selectedPlace : option PlaceDetails;
  sessionToken : option string;
  preferences : UserPreferences
}.

Inductive Timer :=
| HidePredictions   (* closePredictions, 200 ms *)
| UnlockInput.      (* performSearch, 1000 ms *)

(** Calls the component makes on its collaborators. *)
Inductive Call :=
| blur
| preventDefault
| searchSubject_next (value : string)
| getAutocompletePredictions (query : string) (token : option string)
| getGooglePlaceDetails (placeId : string)
| getCurrentPosition
| alert (msg : string)
| onSearch_emit (req : SearchRequest)
| setTimeout (t : Timer) (ms : Z).

Definition init : SearchComponent :=
  {| address := ""; loading := false; showDietaryDropdown := false;
     predictions := []; showPredictions := false;
     activePredictionIndex := -1; errorMessage := "";
     selectedPlace := None; sessionToken := None;
     preferences := {| maxDistance := Js.Num (Js.Fin 10); minRating := 3;
                       dietaryRestrictions := []; favoriteStyles := [] |} |}.

Definition set_address v (c : SearchComponent) :=
  {| address := v; loading := loading c; showDietaryDropdown := showDietaryDropdown c;
     predictions := predictions c; showPredictions := showPredictions c;
     activePredictionIndex := activePredictionIndex c; errorMessage := errorMessage c;
     selectedPlace := selectedPlace c; sessionToken := sessionToken c;
     preferences := preferences c |}.
Definition set_loading v (c : SearchComponent) :=
  {| address := address c; loading := v; showDietaryDropdown := showDietaryDropdown c;
     predictions := predictions c; showPredictions := showPredictions c;
     activePredictionIndex := activePredictionIndex c; errorMessage := errorMessage c;
     selectedPlace := selectedPlace c; sessionToken := sessionToken c;
     preferences := preferences c |}.
Definition set_predictions v (c : SearchComponent) :=
  {| address := address c; loading := loading c; showDietaryDropdown := showDietaryDropdown c;
     predictions := v; showPredictions := showPredictions c;
     activePredictionIndex := activePredictionIndex c; errorMessage := errorMessage c;
     selectedPlace := selectedPlace c; sessionToken := sessionToken c;
     preferences := preferences c |}.
Definition set_showPredictions v (c : SearchComponent) :=
  {| address := address c; loading := loading c; showDietaryDropdown := showDietaryDropdown c;
     predictions := predictions c; showPredictions := v;
     activePredictionIndex := activePredictionIndex c; errorMessage := errorMessage c;
     selectedPlace := selectedPlace c; sessionToken := sessionToken c;
     preferences := preferences c |}.
Definition set_activePredictionIndex v (c : SearchComponent) :=
  {| address := address c; loading := loading c; showDietaryDropdown := showDietaryDropdown c;
     predictions := predictions c; showPredictions := showPredictions c;
     activePredictionIndex := v; errorMessage := errorMessage c;
     selectedPlace := selectedPlace c; sessionToken := sessionToken c;
     preferences := preferences c |}.
Definition set_errorMessage v (c : SearchComponent) :=
  {| address := address c; loading := loading c; showDietaryDropdown := showDietaryDropdown c;
     predictions := predictions c; showPredictions := showPredictions c;
     activePredictionIndex := activePredictionIndex c; errorMessage := v;
     selectedPlace := selectedPlace c; sessionToken := sessionToken c;
     preferences := preferences c |}.
Definition set_selectedPlace v (c : SearchComponent) :=
  {| address := address c; loading := loading c; showDietaryDropdown := showDietaryDropdown c;
     predictions := predictions c; showPredictions := showPredictions c;
     activePredictionIndex := activePredictionIndex c; errorMessage := errorMessage c;
     selectedPlace := v; sessionToken := sessionToken c;
     preferences := preferences c |}.
Definition set_sessionToken v (c : SearchComponent) :=
  {| address := address c; loading := loading c; showDietaryDropdown := showDietaryDropdown c;
     predictions := predictions c; showPredictions := showPredictions c;
     activePredictionIndex := activePredictionIndex c; errorMessage := errorMessage c;
     selectedPlace := selectedPlace c; sessionToken := v;
     preferences := preferences c |}.
Definition set_maxDistance v (c : SearchComponent) :=
  {| address := address c; loading := loading c; showDietaryDropdown := showDietaryDropdown c;
     predictions := predictions c; showPredictions := showPredictions c;
     activePredictionIndex := activePredictionIndex c; errorMessage := errorMessage c;
     selectedPlace := selectedPlace c; sessionToken := sessionToken c;
     preferences := {| maxDistance := v; minRating := minRating (preferences c);
                       dietaryRestrictions := dietaryRestrictions (preferences c);
                       favoriteStyles := favoriteStyles (preferences c) |} |}.

Definition M := Cmd SearchComponent Call.

(** [event] tells whether the handler was given an event object. *)
Definition validateDistance (event : bool) : M unit :=
  (if event then call blur else skip) ;;
  c ← get;
  let dist := maxDistance (preferences c) in
  let dist := if negb (Js.truthy dist) || Js.lt dist (Js.Num (Js.Fin 1))
              then Js.Num (Js.Fin 1) else dist in
  let dist := if Js.gt dist (Js.Num (Js.Fin 50)) then Js.Num (Js.Fin 50) else dist in
  modify (set_maxDistance dist).

Definition onInputChange : M unit :=
  c ← get;
  call (searchSubject_next (address c)).

Definition selectPrediction (prediction : Prediction) : M unit :=
  modify (set_address (description prediction)) ;;
  modify (set_showPredictions false) ;;
  call (getGooglePlaceDetails (place_id prediction)).

(** [this.predictions[i]]; reading [description] of [undefined] throws. *)
Definition onKeydown (key : string) : M unit :=
  c ← get;
  if negb (showPredictions c) || (length (predictions c) =? 0)%nat then skip
  else
    let len := Z.of_nat (length (predictions c)) in
    if String.eqb key "ArrowDown" then
      call preventDefault ;;
      modify (set_activePredictionIndex (Js.rem (activePredictionIndex c + 1) len))
    else if String.eqb key "ArrowUp" then
      call preventDefault ;;
      modify (set_activePredictionIndex (Js.rem (activePredictionIndex c - 1 + len) len))
    else if String.eqb key "Enter" then
      call preventDefault ;;
      if 0 <=? activePredictionIndex c then
        match predictions c !! Z.to_nat (activePredictionIndex c) with
        | Some prediction => selectPrediction prediction
        | None => throw
        end
      else skip
    else if String.eqb key "Escape" then
      modify (set_showPredictions false)
    else skip.

Definition fetchPredictions (query : string) : M unit :=
  modify (set_errorMessage "") ;;
  if negb (Js.truthy_str query) || (String.length query <? 3)%nat then
    modify (set_predictions []) ;;
    modify (set_showPredictions false)
  else
    c ← get;
    call (getAutocompletePredictions query (sessionToken c)).

(** [next] callback of the prediction fetch *)
Definition fetchPredictions_next (result : list Prediction) : M unit :=
  modify (set_predictions result) ;;
  modify (set_showPredictions (0 <? length result)%nat) ;;
  modify (set_activePredictionIndex (-1)).

(** [error] callback of the prediction fetch *)
Definition fetchPredictions_error : M unit :=
  modify (set_predictions []).

Definition closePredictions : M unit :=
  call (setTimeout HidePredictions 200).

Definition performSearch (searchRequest : SearchRequest) : M unit :=
  call (onSearch_emit searchRequest) ;;
  call (setTimeout UnlockInput 1000).

Definition timer_fired (t : Timer) : M unit :=
  match t with
  | HidePredictions => modify (set_showPredictions false)
  | UnlockInput => modify (set_loading false)
  end.

Definition handlePlaceSelection (place : PlaceDetails) : M unit :=
  modify (set_selectedPlace (Some place)) ;;
  let lat := match location place with Some (la, _) => la | None => Js.Undefined end in
  let lng := match location place with Some (_, lo) => lo | None => Js.Undefined end in
  if Js.truthy lat && Js.truthy lng then
    modify (set_loading true) ;;
    c ← get;
    performSearch {| Model.address := Js.or_str (formattedAddress place) (address c);
                     latitude := lat; longitude := lng;
                     Model.preferences := Some (preferences c) |}
  else
    call (alert "Could not retrieve location coordinates for this place.").

(** [next] callback of the place-details fetch; [uuid] is the value of
    [crypto.randomUUID()]. *)
Definition selectPrediction_next (place : PlaceDetails) (uuid : string) : M unit :=
  handlePlaceSelection place ;;
  modify (set_sessionToken (Some uuid)).

Definition selectPrediction_error : M unit :=
  call (alert "Failed to get location details.").

Definition useCurrentLocation : M unit :=
  modify (set_loading true) ;;
  call getCurrentPosition.

Definition useCurrentLocation_next (position : Location.Coordinates) : M unit :=
  c ← get;
  performSearch {| Model.address := "Current Location";
                   latitude := Location.latitude position;
                   longitude := Location.longitude position;
                   Model.preferences := Some (preferences c) |}.

Definition useCurrentLocation_error (error : Location.Failure) : M unit :=
  let msg :=
    match Location.failure_code error with
    | Some 1 => "Location permission denied. Please allow access in browser settings."
    | Some 2 => "Location unavailable. Ensure GPS is on and try again."
    | Some 3 => "Location request timed out. Please try again."
    | _ => "Unable to get your location. Please enter an address manually."
    end in
  call (alert msg) ;;
  modify (set_loading false).

(** [ngOnInit]: the values [searchSubject] receives go through
    [debounceTime(300)] and [distinctUntilChanged()]; what comes out is
    handed to [fetchPredictions].  [keystrokes] are the values passed
    to [searchSubject.next] with the times of the calls. *)
Definition submitted (keystrokes : list (N * string)) (horizon : N)
  : list (N * string) :=
  Rx.distinctUntilChanged None (Rx.debounceTime 300 keystrokes horizon Rx.idle).

Definition ngOnInit_subscription (keystrokes : list (N * string)) (horizon : N)
  : M unit :=
  foldr (fun query rest => fetchPredictions query.2 ;; rest) skip
        (submitted keystrokes horizon).

(** The handler installed on [window.gm_authFailure] by [ngOnInit]. *)
Definition gm_authFailure : M unit :=
  modify (set_errorMessage
            ("Error: Enable " +:+ Js.quoted "Places API"
             +:+ " (Legacy) in Google Cloud Console. You likely only have "
             +:+ Js.quoted "Places API (New)" +:+ " enabled.")) ;;
  modify (set_showPredictions true).

End Search.

(** ** components/results/results.component.ts *)

Module Results.
Import Model.

(** [restaurants] is the array bound by the parent; a restaurant object
    is named by its position in it, so that the objects the list rows
    hand to [selectRestaurant] are the ones stored here. *)
Record ResultsComponent := {
  restaurants : list Restaurant;
  lastSearchRequest : option SearchRequest;
  selectedRestaurant : option nat;
  aiSummary : option AIGeneratedSummary;
  loadingSummary : bool;
  loading : bool
}.

Inductive Timer :=
| RerollUnlock.     (* rerollRecommendations, 2000 ms *)

Inductive Call :=
| getAISummary (restaurantId : string)
| onReroll_emit (req : SearchRequest)
| setTimeout (t : Timer) (ms : Z).

Definition set_restaurants v (c : ResultsComponent) :=
  {| restaurants := v; lastSearchRequest := lastSearchRequest c;
     selectedRestaurant := selectedRestaurant c; aiSummary := aiSummary c;
     loadingSummary := loadingSummary c; loading := loading c |}.
Definition set_selectedRestaurant v (c : ResultsComponent) :=
  {| restaurants := restaurants c; lastSearchRequest := lastSearchRequest c;
     selectedRestaurant := v; aiSummary := aiSummary c;
     loadingSummary := loadingSummary c; loading := loading c |}.
Definition set_aiSummary v (c : ResultsComponent) :=
  {| restaurants := restaurants c; lastSearchRequest := lastSearchRequest c;
     selectedRestaurant := selectedRestaurant c; aiSummary := v;
     loadingSummary := loadingSummary c; loading := loading c |}.
Definition set_loadingSummary v (c : ResultsComponent) :=
  {| restaurants := restaurants c; lastSearchRequest := lastSearchRequest c;
     selectedRestaurant := selectedRestaurant c; aiSummary := aiSummary c;
     loadingSummary := v; loading := loading c |}.
Definition set_loading v (c : ResultsComponent) :=
  {| restaurants := restaurants c; lastSearchRequest := lastSearchRequest c;
     selectedRestaurant := selectedRestaurant c; aiSummary := aiSummary c;
     loadingSummary := loadingSummary c; loading := v |}.

Definition M := Cmd ResultsComponent Call.

Definition loadAISummary (restaurantId : string) : M unit :=
  modify (set_loadingSummary true) ;;
  modify (set_aiSummary None) ;;
  call (getAISummary restaurantId).

Definition loadAISummary_next (summary : AIGeneratedSummary) : M unit :=
  modify (set_aiSummary (Some summary)) ;;
  modify (set_loadingSummary false).

Definition loadAISummary_error : M unit :=
  modify (set_loadingSummary false).

(** [i] names the row object; a position outside the array names no
    object and the call cannot be made. *)
Definition selectRestaurant (i : nat) : M unit :=
  c ← get;
  match restaurants c !! i with
  | None => throw
  | Some restaurant =>
      modify (set_selectedRestaurant (Some i)) ;;
      match Model.aiSummary restaurant with
      | Some cached =>
          modify (set_aiSummary (Some cached)) ;;
          modify (set_loadingSummary false)
      | None => loadAISummary (id restaurant)
      end
  end.

Definition closeDetails : M unit :=
  modify (set_selectedRestaurant None) ;;
  modify (set_aiSummary None).

(** One subscription of [preloadSummaries]: the requests it sends ... *)
Definition preloadSummaries : M unit :=
  c ← get;
  foldr (fun restaurant rest =>
           (match Model.aiSummary restaurant with
            | Some _ => skip
            | None => call (getAISummary (id restaurant))
            end) ;; rest)
        skip (restaurants c).

(** ... and its [next] callback for row [i], which stores the summary
    on the restaurant object itself. *)
Definition preloadSummaries_next (i : nat) (summary : AIGeneratedSummary) : M unit :=
  c ← get;
  modify (set_restaurants (alter (Model.set_aiSummary (Some summary)) i (restaurants c))).

Definition rerollRecommendations : M unit :=
  c ← get;
  match lastSearchRequest c with
  | Some req =>
      if negb (loading c) then
        modify (set_loading true) ;;
        call (onReroll_emit req) ;;
        call (setTimeout RerollUnlock 2000)
      else skip
  | None => skip
  end.

Definition timer_fired (t : Timer) : M unit :=
  match t with
  | RerollUnlock => modify (set_loading false)
  end.

End Results.

(** ** main.ts *)

Module Main.
Import Model.

Record App := {
  started : bool;
  restaurants : list Restaurant;
  lastSearchRequest : option SearchRequest;
  loading : bool;
  loadingMessage : string
}.

(** What a task of the enrichment batch sends to the join. *)
Inductive TaskValue :=
| SummaryValue (summary : option AIGeneratedSummary)  (* [null] after [catchError] *)
| ImageValue (loaded : bool).

(** The component together with what one call of [handleSearch] keeps
    in its closures.  The loading overlay covers the page while the
    call is in progress, so one call is followed from start to end. *)
Record State := {
  app : App;
  messageInterval : option nat;   (* [index] of the running message cycle *)
  awaitingRecommendations : bool; (* the recommendation request is out *)
  results : list Restaurant;      (* the array handed to [next] *)
  join : option (Rx.Join TaskValue); (* the [forkJoin] subscription *)
  revealTimer : bool              (* the 1500 ms [setTimeout] is armed *)
}.

Inductive Call :=
| setInterval (ms : Z)
| clearInterval
| getPizzaRecommendations (req : SearchRequest)
| getAISummary (restaurantId : string)
| loadImage (src : string)
| alert (msg : string)
| setTimeout (ms : Z).

Inductive Event :=
| Tick                                            (* the message interval *)
| RecommendationsNext (results : list Restaurant)
| RecommendationsError (detail : option string)   (* [error.error?.detail] *)
| SummaryNext (i : nat) (summary : AIGeneratedSummary)
| SummaryError (i : nat)
| ImageLoad (i : nat)
| ImageError (i : nat)
| RevealTimeout.

Definition init : App :=
  {| started := false; restaurants := []; lastSearchRequest := None;
     loading := false; loadingMessage := "Finding the perfect pizza spots..." |}.

Definition start (a : App) : State :=
  {| app := a; messageInterval := None; awaitingRecommendations := false;
     results := []; join := None; revealTimer := false |}.

Definition set_restaurants v (s : State) :=
  {| app := {| started := started (app s); restaurants := v;
               lastSearchRequest := lastSearchRequest (app s);
               loading := loading (app s); loadingMessage := loadingMessage (app s) |};
     messageInterval := messageInterval s;
     awaitingRecommendations := awaitingRecommendations s;
     results := results s; join := join s; revealTimer := revealTimer s |}.
Definition set_lastSearchRequest v (s : State) :=
  {| app := {| started := started (app s); restaurants := restaurants (app s);
               lastSearchRequest := v;
               loading := loading (app s); loadingMessage := loadingMessage (app s) |};
     messageInterval := messageInterval s;
     awaitingRecommendations := awaitingRecommendations s;
     results := results s; join := join s; revealTimer := revealTimer s |}.
Definition set_loading v (s : State) :=
  {| app := {| started := started (app s); restaurants := restaurants (app s);
               lastSearchRequest := lastSearchRequest (app s);
               loading := v; loadingMessage := loadingMessage (app s) |};
     messageInterval := messageInterval s;
     awaitingRecommendations := awaitingRecommendations s;
     results := results s; join := join s; revealTimer := revealTimer s |}.
Definition set_loadingMessage v (s : State) :=
  {| app := {| started := started (app s); restaurants := restaurants (app s);
               lastSearchRequest := lastSearchRequest (app s);
               loading := loading (app s); loadingMessage := v |};
     messageInterval := messageInterval s;
     awaitingRecommendations := awaitingRecommendations s;
     results := results s; join := join s; revealTimer := revealTimer s |}.
Definition set_messageInterval v (s : State) :=
  {| app := app s; messageInterval := v;
     awaitingRecommendations := awaitingRecommendations s;
     results := results s; join := join s; revealTimer := revealTimer s |}.
Definition set_awaitingRecommendations v (s : State) :=
  {| app := app s; messageInterval := messageInterval s;
     awaitingRecommendations := v;
     results := results s; join := join s; revealTimer := revealTimer s |}.
Definition set_results v (s : State) :=
  {| app := app s; messageInterval := messageInterval s;
     awaitingRecommendations := awaitingRecommendations s;
     results := v; join := join s; revealTimer := revealTimer s |}.
Definition set_join v (s : State) :=
  {| app := app s; messageInterval := messageInterval s;
     awaitingRecommendations := awaitingRecommendations s;
     results := results s; join := v; revealTimer := revealTimer s |}.
Definition set_revealTimer v (s : State) :=
  {| app := app s; messageInterval := messageInterval s;
     awaitingRecommendations := awaitingRecommendations s;
     results := results s; join := join s; revealTimer := v |}.

Definition M := Cmd State Call.

Definition messages : list string :=
  [ "Finding the perfect pizza spots...";
    "Analyzing recent reviews...";
    "Comparing crust thickness...";
    "Measuring cheese stretch..." ].

Definition startMessageCycle : M unit :=
  modify (set_messageInterval (Some 0%nat)) ;;
  call (setInterval 1500).

(** The callback given to [setInterval]. *)
Definition messageCycle_tick (index : nat) : M unit :=
  let index := (Nat.modulo (index + 1) (length messages)) in
  modify (set_messageInterval (Some index)) ;;
  s ← get;
  let shown := loadingMessage (app s) in
  if negb (String.eqb shown "Gathering photos and getting AI summaries...")
     && negb (String.eqb shown "Finalizing your personalized menu...")
     && negb (String.eqb shown "Almost ready...")
  then modify (set_loadingMessage (default "" (messages !! index)))
  else skip.

Definition handleSearch (searchRequest : SearchRequest) : M unit :=
  modify (set_lastSearchRequest (Some searchRequest)) ;;
  modify (set_loading true) ;;
  modify (set_loadingMessage "Finding the perfect pizza spots...") ;;
  modify (set_restaurants []) ;;
  startMessageCycle ;;
  modify (set_awaitingRecommendations true) ;;
  call (getPizzaRecommendations searchRequest).

(** [next] of the subscription to [forkJoin(tasks)] *)
Definition forkJoin_next : M unit :=
  call clearInterval ;;
  modify (set_messageInterval None) ;;
  modify (set_loadingMessage "Almost ready...") ;;
  modify (set_revealTimer true) ;;
  call (setTimeout 1500).

(** Hand the notifications of the join to its subscriber, which has a
    [next] callback only. *)
Definition notify (ns : list (Rx.Notification TaskValue)) : M unit :=
  foldr (fun n rest =>
           (match n with
            | Rx.Next _ => forkJoin_next
            | Rx.Complete => skip
            end) ;; rest)
        skip ns.

(** Task [k] of the batch sends [v] and completes. *)
Definition task_settles (k : nat) (v : TaskValue) : M unit :=
  s ← get;
  match join s with
  | Some j =>
      let '(j', ns) := Rx.settle k v j in
      modify (set_join (Some j')) ;;
      notify ns
  | None => skip
  end.

(** Subscribing to the summary task of [results[i]] sends the request. *)
Definition subscribe_summaryTask (r : Restaurant) : M unit :=
  call (getAISummary (id r)).

(** Subscribing to the image task of [results[i]], which is task
    [n + i] of the batch: without a photo it sends [true] on the spot. *)
Definition subscribe_imageTask (n i : nat) (r : Restaurant) : M unit :=
  match photoUrl r with
  | Some url =>
      if Js.truthy_str url then call (loadImage url)
      else task_settles (n + i) (ImageValue true)
  | None => task_settles (n + i) (ImageValue true)
  end.

Fixpoint subscribe_each {A} (f : nat -> A -> M unit) (i : nat) (l : list A) : M unit :=
  match l with
  | [] => skip
  | x :: rest => f i x ;; subscribe_each f (S i) rest
  end.

(** [next] of the recommendation fetch *)
Definition handleSearch_next (fetched : list Restaurant) : M unit :=
  modify (set_awaitingRecommendations false) ;;
  modify (set_loadingMessage "Gathering photos and getting AI summaries...") ;;
  modify (set_results fetched) ;;
  let n := length fetched in
  (* tasks = [...summaryTasks, ...imageTasks] *)
  modify (set_loadingMessage "Finalizing your personalized menu...") ;;
  let '(j, ns) := Rx.subscribe (n + n) in
  modify (set_join (Some j)) ;;
  notify ns ;;
  subscribe_each (fun _ r => subscribe_summaryTask r) 0 fetched ;;
  subscribe_each (subscribe_imageTask n) 0 fetched.

(** [error] of the recommendation fetch *)
Definition handleSearch_error (detail : option string) : M unit :=
  modify (set_awaitingRecommendations false) ;;
  call clearInterval ;;
  modify (set_messageInterval None) ;;
  call (alert ("Error: " +:+
               Js.or_str detail "Unable to fetch recommendations. Please try again.")) ;;
  modify (set_restaurants []) ;;
  modify (set_loading false).

(** The callback given to [setTimeout] once the join has sent its value *)
Definition reveal : M unit :=
  modify (set_revealTimer false) ;;
  s ← get;
  modify (set_restaurants (results s)) ;;
  modify (set_loading false).

(** [map(summary => { r.aiSummary = summary; return summary })] *)
Definition summary_received (i : nat) (summary : AIGeneratedSummary) : M unit :=
  s ← get;
  modify (set_results (alter (Model.set_aiSummary (Some summary)) i (results s))) ;;
  task_settles i (SummaryValue (Some summary)).

Definition task_pending (k : nat) (s : State) : bool :=
  match join s with
  | Some j => Rx.pending k j
  | None => false
  end.

(** An event is delivered only when something is waiting for it: a
    request gets one response, a cleared interval no longer ticks. *)
Definition deliver (e : Event) : M unit :=
  s ← get;
  let n := length (results s) in
  match e with
  | Tick =>
      match messageInterval s with
      | Some index => messageCycle_tick index
      | None => throw
      end
  | RecommendationsNext fetched =>
      if awaitingRecommendations s then handleSearch_next fetched else throw
  | RecommendationsError detail =>
      if awaitingRecommendations s then handleSearch_error detail else throw
  | SummaryNext i summary =>
      if (i <? n)%nat && task_pending i s then summary_received i summary else throw
  | SummaryError i =>
      if (i <? n)%nat && task_pending i s then task_settles i (SummaryValue None) else throw
  | ImageLoad i =>
      if (i <? n)%nat && task_pending (n + i) s
      then task_settles (n + i) (ImageValue true) else throw
  | ImageError i =>
      if (i <? n)%nat && task_pending (n + i) s
      then task_settles (n + i) (ImageValue false) else throw
  | RevealTimeout =>
      if revealTimer s then reveal else throw
  end.

(** Deliver a sequence of events; the calls made are collected. *)
Fixpoint run (es : list Event) (s : State) : option (State * list Call) :=
  match es with
  | [] => Some (s, [])
  | e :: rest =>
      match exec (deliver e) s with
      | None => None
      | Some (s1, l1) =>
          match run rest s1 with
          | None => None
          | Some (s2, l2) => Some (s2, l1 ++ l2)
          end
      end
  end.

End Main.

(** ** More of JavaScript: [Math.floor], [%], [>=], [repeat], [trim] *)

Module JsText.

(** A string that leaves Latin-1 is kept as its UTF-16 code units. *)
Definition units := list N.

(** The integer part, towards zero. *)
Definition truncate (q : Q) : Z := if Js.Qltb q 0 then Qceiling q else Qfloor q.

(** [Math.floor(n)] *)
Definition floor (n : Js.number) : Js.number :=
  match n with
  | Js.Fin q => Js.Fin (inject_Z (Qfloor q))
  | _ => n
  end.

(** [a % b]; the result is exact on doubles, as it is on rationals. *)
Definition rem (a b : Js.number) : Js.number :=
  match a, b with
  | Js.Fin x, Js.Fin y =>
      if Qeq_bool y 0 then Js.NaN
      else Js.Fin (x - y * inject_Z (truncate (x / y)))
  | Js.Fin x, (Js.Infinity | Js.NegInfinity) => Js.Fin x
  | _, _ => Js.NaN
  end.

(** [a >= b] *)
Definition ge (a b : Js.number) : bool :=
  match a, b with
  | Js.NaN, _ | _, Js.NaN => false
  | _, _ => negb (Js.num_lt a b)
  end.

(** [s.repeat(count)]; [None] is the [RangeError]: for a negative or
    infinite count, and for a result longer than [maxLength], the
    longest string the engine makes (2^29 - 24 code units in V8,
    2^30 - 2 in SpiderMonkey).  A count of zero gives the empty string
    before any length is looked at. *)
Definition repeat (maxLength : N) (s : units) (count : Js.number) : option units :=
  match count with
  | Js.NaN => Some []
  | Js.Infinity | Js.NegInfinity => None
  | Js.Fin q =>
      let n := truncate q in
      if n <? 0 then None
      else if n =? 0 then Some []
      else if Z.of_N maxLength <? n * Z.of_nat (length s) then None
      else Some (concat (replicate (Z.to_nat n) s))
  end.

(** [a + b] on strings, a [RangeError] under the same limit *)
Definition append (maxLength : N) (a b : units) : option units :=
  if Z.of_N maxLength <? Z.of_nat (length a + length b) then None
  else Some (a ++ b).

(** White space among the code units below 256: tab, line feed,
    vertical tab, form feed, carriage return, space, no-break space. *)
Definition is_space (a : ascii) : bool :=
  let n := N_of_ascii a in
  ((9 <=? n) && (n <=? 13) || (n =? 32) || (n =? 160))%N.

Fixpoint trimStart (l : list ascii) : list ascii :=
  match l with
  | a :: rest => if is_space a then trimStart rest else l
  | [] => []
  end.

(** [s.trim()] *)
Definition trim (s : string) : string :=
  string_of_list_ascii
    (rev (trimStart (rev (trimStart (list_ascii_of_string s))))).

(** [l.indexOf(x)] with [===] on strings *)
Fixpoint indexOf_from (x : string) (l : list string) (i : Z) : Z :=
  match l with
  | [] => -1
  | y :: rest => if String.eqb y x then i else indexOf_from x rest (i + 1)
  end.

Definition indexOf (x : string) (l : list string) : Z := indexOf_from x l 0.

(** [l.includes(x)] *)
Definition includes (x : string) (l : list string) : bool :=
  existsb (fun y => String.eqb y x) l.

End JsText.

(** ** components/search/search.component.ts, the rest of the form *)

Module SearchForm.
Import Model Search.

(** The manual search also calls the geocoding endpoint. *)
Inductive Call :=
| base (c : Search.Call)
| geocodeAddress (address : string).

Definition M := Cmd SearchComponent Call.

(** A command of the component run among these calls. *)
Definition lift {A} (m : Search.M A) : M A :=
  fun c =>
    match m c with
    | Some (a, c', l) => Some (a, c', map base l)
    | None => None
    end.

Definition set_showDietaryDropdown v (c : SearchComponent) :=
  {| address := address c; loading := loading c; showDietaryDropdown := v;
     predictions := predictions c; showPredictions := showPredictions c;
     activePredictionIndex := activePredictionIndex c; errorMessage := errorMessage c;
     selectedPlace := selectedPlace c; sessionToken := sessionToken c;
     preferences := preferences c |}.
Definition set_dietaryRestrictions v (c : SearchComponent) :=
  {| address := address c; loading := loading c; showDietaryDropdown := showDietaryDropdown c;
     predictions := predictions c; showPredictions := showPredictions c;
     activePredictionIndex := activePredictionIndex c; errorMessage := errorMessage c;
     selectedPlace := selectedPlace c; sessionToken := sessionToken c;
     preferences := {| maxDistance := maxDistance (preferences c);
                       minRating := minRating (preferences c);
                       dietaryRestrictions := v;
                       favoriteStyles := favoriteStyles (preferences c) |} |}.

Definition availableDietaryRestrictions : list string :=
  ["Vegetarian"; "Vegan"; "Gluten-Free"; "Dairy-Free"].

(** [get selectedDietaryCount()] *)
Definition selectedDietaryCount (c : SearchComponent) : nat :=
  length (dietaryRestrictions (preferences c)).

Definition toggleDietaryDropdown : Search.M unit :=
  c ← get;
  modify (set_showDietaryDropdown (negb (showDietaryDropdown c))).

(** [splice(index, 1)] removes the element at [index]; [push] appends. *)
Definition toggleDietaryRestriction (restriction : string) : Search.M unit :=
  c ← get;
  let chosen := dietaryRestrictions (preferences c) in
  let index := JsText.indexOf restriction chosen in
  if -1 <? index then
    modify (set_dietaryRestrictions (delete (Z.to_nat index) chosen))
  else
    modify (set_dietaryRestrictions (chosen ++ [restriction])).

Definition isDietaryRestrictionSelected (restriction : string) (c : SearchComponent) : bool :=
  JsText.includes restriction (dietaryRestrictions (preferences c)).

(** [lat] and [lng] are what [selectedPlace.location.lat] and
    [selectedPlace.location.lng] give (called first when they are
    functions): properties other than the [latitude] and [longitude]
    that [handlePlaceSelection] reads, so they come from outside. *)
Definition searchByAddress (lat lng : Js.value) : M unit :=
  c ← get;
  if negb (Js.truthy_str (address c)) || negb (Js.truthy_str (JsText.trim (address c))) then
    lift (call (alert "Please select an address from the autocomplete suggestions"))
  else
    lift (modify (set_loading true)) ;;
    let with_place :=
      match selectedPlace c with
      | Some place => match location place with Some _ => true | None => false end
      | None => false
      end in
    if with_place then
      lift (performSearch {| Model.address := address c;
                             latitude := lat; longitude := lng;
                             Model.preferences := Some (preferences c) |})
    else
      call (geocodeAddress (address c)).

(** [next] callback of the geocoding request *)
Definition searchByAddress_next (latitude longitude : Js.value) : M unit :=
  c ← get;
  lift (performSearch {| Model.address := address c;
                         Model.latitude := latitude; Model.longitude := longitude;
                         Model.preferences := Some (preferences c) |}).

(** [error] callback of the geocoding request *)
Definition searchByAddress_error : M unit :=
  lift (call (alert "Unable to find location. Please check your address.")) ;;
  lift (modify (set_loading false)).

(** What the subscriber of [locationService.getCurrentPosition()] is
    told, handed to the callbacks of [useCurrentLocation]. *)
Definition useCurrentLocation_notified (ns : list Location.Notification) : Search.M unit :=
  foldr (fun n rest =>
           (match n with
            | Location.Next position => useCurrentLocation_next position
            | Location.Complete => skip
            | Location.Error error => useCurrentLocation_error error
            end) ;; rest)
        skip ns.

End SearchForm.

(** ** components/results/results.component.ts, the display helpers *)

Module ResultsView.

Definition dollar : JsText.units := [36%N].
Definition star : JsText.units := [11088%N].      (* U+2B50 *)
Definition sparkles : JsText.units := [10024%N].  (* U+2728 *)

(** [None] is an uncaught [RangeError]; [maxLength] is the engine's
    longest string. *)
Definition getPriceSymbol (maxLength : N) (priceLevel : Js.number) : option JsText.units :=
  JsText.repeat maxLength dollar priceLevel.

Definition getStars (maxLength : N) (rating : Js.number) : option JsText.units :=
  let fullStars := JsText.floor rating in
  let hasHalfStar := JsText.ge (JsText.rem rating (Js.Fin 1)) (Js.Fin (1 # 2)) in
  match JsText.repeat maxLength star fullStars with
  | Some stars => if hasHalfStar then JsText.append maxLength stars sparkles else Some stars
  | None => None
  end.

End ResultsView.

(** * Vocabulary of the properties

    States, stages and sample data the statements below are written
    with. *)

Section DistanceTerms.
Import Model Search.

Definition one : Js.value := Js.Num (Js.Fin 1).
Definition fifty : Js.value := Js.Num (Js.Fin 50).

(** The value [validateDistance] leaves in [preferences.maxDistance]. *)
Definition validated (event : bool) (c : SearchComponent) : option Js.value :=
  match exec (validateDistance event) c with
  | Some (c', _) => Some (maxDistance (preferences c'))
  | None => None
  end.

Definition with_distance (d : Js.value) : SearchComponent := set_maxDistance d init.

End DistanceTerms.

Section AutocompleteTerms.
Import Model Search.

Implicit Types (c : SearchComponent) (key query : string).

Definition joes : list Prediction :=
  [ {| description := "Joe's Pizza, Carmine Street"; place_id := "p0" |};
    {| description := "Joe's Pizza, Broadway"; place_id := "p1" |};
    {| description := "Joe's Pizza, Bedford Avenue"; place_id := "p2" |} ].

(** The dropdown showing three predictions, nothing highlighted. *)
Definition showing_joes : SearchComponent :=
  set_showPredictions true (set_predictions joes (set_address "Joe's Pizza" init)).

Definition visible c : Prop :=
  showPredictions c = true /\ predictions c <> [].

Definition count c : Z := Z.of_nat (length (predictions c)).

Definition joes_at (i : Z) : SearchComponent := set_activePredictionIndex i showing_joes.

End AutocompleteTerms.

Section ReachableTerms.
Import Model Search.

Implicit Types (c : SearchComponent).

(** The entry points of the component: template handlers and the
    callbacks of its subscriptions and timers. *)
Inductive Action :=
| Keydown (key : string)
| InputChange
| Submit (query : string)
| PredictionsNext (result : list Prediction)
| PredictionsError
| Click (prediction : Prediction)
| PlaceNext (place : PlaceDetails) (uuid : string)
| PlaceError
| Blurred
| Fired (t : Timer)
| Validate (event : bool)
| Locate
| LocateNext (position : Location.Coordinates)
| LocateError (error : Location.Failure)
| AuthFailure.

Definition perform (act : Action) : M unit :=
  match act with
  | Keydown key => onKeydown key
  | InputChange => onInputChange
  | Submit query => fetchPredictions query
  | PredictionsNext result => fetchPredictions_next result
  | PredictionsError => fetchPredictions_error
  | Click prediction => selectPrediction prediction
  | PlaceNext place uuid => selectPrediction_next place uuid
  | PlaceError => selectPrediction_error
  | Blurred => closePredictions
  | Fired t => timer_fired t
  | Validate event => validateDistance event
  | Locate => useCurrentLocation
  | LocateNext position => useCurrentLocation_next position
  | LocateError error => useCurrentLocation_error error
  | AuthFailure => gm_authFailure
  end.

(** The active index is -1 or the position of a prediction. *)
Definition index_in_range c : Prop :=
  -1 <= activePredictionIndex c /\
  (predictions c = [] \/ activePredictionIndex c < count c).

(** The states the component can be in. *)
Inductive reachable : SearchComponent -> Prop :=
| reachable_init : reachable init
| reachable_step c act c' log :
    reachable c -> exec (perform act) c = Some (c', log) -> reachable c'.

End ReachableTerms.

Section GeolocationTerms.
Import Location.

Implicit Types (api : Geolocation).

(** The requests made and what the subscriber receives. *)
Definition requests (geolocation : option Geolocation) : list PositionOptions :=
  fst (getCurrentPosition geolocation).
Definition notifications (geolocation : option Geolocation) : list Notification :=
  snd (getCurrentPosition geolocation).


(** A browser that refuses permission. *)
Definition refusing : Geolocation :=
  fun _ => inr {| code := 1; message := "User denied Geolocation" |}.

End GeolocationTerms.

Section DetailsTerms.
Import Model Results.

Implicit Types (c : ResultsComponent) (r : Restaurant).

Definition margherita : AIGeneratedSummary :=
  {| restaurantId := "r2"; summary := "Wood-fired, thin crust.";
     highlights := ["Margherita"]; recommendations := ["Go early"] |}.

Definition slices : AIGeneratedSummary :=
  {| restaurantId := "r1"; summary := "Big slices, open late.";
     highlights := ["Pepperoni"]; recommendations := ["Cash only"] |}.

Definition sals : Restaurant :=
  {| id := "r1"; name := "Sal's"; photoUrl := None; Model.aiSummary := None |}.

Definition lucia : Restaurant :=
  {| id := "r2"; name := "Lucia"; photoUrl := Some "https://img/r2.jpg";
     Model.aiSummary := Some margherita |}.

Definition gino : Restaurant :=
  {| id := "r3"; name := "Gino"; photoUrl := Some "https://img/r3.jpg";
     Model.aiSummary := None |}.

Definition two_rows : list Restaurant := [sals; lucia].

Definition listing : ResultsComponent :=
  {| restaurants := two_rows; lastSearchRequest := None; selectedRestaurant := None;
     aiSummary := None; loadingSummary := false; loading := false |}.

End DetailsTerms.

Section OrchestratorTerms.
Import Model Main.

Implicit Types (a : App) (s : State) (req : SearchRequest) (e : Event).

(** The state [handleSearch] leaves behind while the recommendation
    request is out. *)
Definition searching a req : State :=
  {| app := {| started := started a; restaurants := [];
               lastSearchRequest := Some req; loading := true;
               loadingMessage := "Finding the perfect pizza spots..." |};
     messageInterval := Some 0%nat;
     awaitingRecommendations := true;
     results := []; join := None; revealTimer := false |}.

(** [handleSearch(req)] on the component [a], followed by the events
    [es]: the state reached and every call made. *)
Definition search_then req (es : list Event) a : option (State * list Call) :=
  match exec (handleSearch req) (start a) with
  | Some (s, l) =>
      match run es s with
      | Some (s', l') => Some (s', l ++ l')
      | None => None
      end
  | None => None
  end.

(** The calls [handleSearch] makes before any answer. *)
Definition search_calls req : list Call :=
  [setInterval 1500; getPizzaRecommendations req].

Definition fallback : string := "Unable to fetch recommendations. Please try again.".

(** Nothing of the call is left: no request out, no timer, no interval. *)
Definition at_rest s : Prop := s = start (app s).

(** The state after the fetch answered with an empty array: the join of
    no task completed without a value, so its [next] never ran. *)
Definition stalled a req (index : nat) : State :=
  {| app := {| started := started a; restaurants := [];
               lastSearchRequest := Some req; loading := true;
               loadingMessage := "Finalizing your personalized menu..." |};
     messageInterval := Some index;
     awaitingRecommendations := false;
     results := []; join := Some Rx.Finished; revealTimer := false |}.

Definition downtown : SearchRequest :=
  {| address := "Joe's Pizza, Broadway"; latitude := Js.Num (Js.Fin (407 # 10));
     longitude := Js.Num (Js.Fin (-74)); preferences := None |}.

Definition has_photo (r : Restaurant) : bool :=
  match photoUrl r with
  | Some url => Js.truthy_str url
  | None => false
  end.

(** Slots of the join that hold no value yet. *)
Fixpoint unset (values : list (option TaskValue)) : nat :=
  match values with
  | [] => 0
  | None :: rest => S (unset rest)
  | Some _ :: rest => unset rest
  end.

Definition unsettled s : nat :=
  match join s with
  | Some (Rx.Waiting values) => unset values
  | _ => 0%nat
  end.

(** What the [next] callback of the join does to the state. *)
Definition finish s : State :=
  set_revealTimer true
    (set_loadingMessage "Almost ready..."
       (set_messageInterval None (set_join (Some Rx.Finished) s))).

(** The three stages of a search whose fetch returned [n] restaurants:
    tasks still out, all tasks in and the reveal timer armed, revealed. *)
Record enriching (n : nat) s : Prop := {
  enriching_awaiting : awaitingRecommendations s = false;
  enriching_timer : revealTimer s = false;
  enriching_results : length (results s) = n;
  enriching_join : exists values,
      join s = Some (Rx.Waiting values) /\ length values = (n + n)%nat /\
      (0 < unset values)%nat;
  enriching_loading : loading (app s) = true;
  enriching_hidden : restaurants (app s) = [];
  enriching_interval : messageInterval s <> None
}.

Record settled (n : nat) s : Prop := {
  settled_awaiting : awaitingRecommendations s = false;
  settled_timer : revealTimer s = true;
  settled_results : length (results s) = n;
  settled_join : join s = Some Rx.Finished;
  settled_loading : loading (app s) = true;
  settled_hidden : restaurants (app s) = [];
  settled_interval : messageInterval s = None;
  settled_message : loadingMessage (app s) = "Almost ready..."
}.

Record revealed (n : nat) s : Prop := {
  revealed_awaiting : awaitingRecommendations s = false;
  revealed_timer : revealTimer s = false;
  revealed_results : length (results s) = n;
  revealed_join : join s = Some Rx.Finished;
  revealed_loading : loading (app s) = false;
  revealed_shown : restaurants (app s) = results s;
  revealed_interval : messageInterval s = None
}.

Definition is_task e : bool :=
  match e with
  | SummaryNext _ _ | SummaryError _ | ImageLoad _ | ImageError _ => true
  | _ => false
  end.

(** Number of task responses among the events. *)
Fixpoint settlements (es : list Event) : nat :=
  match es with
  | [] => 0
  | e :: rest => ((if is_task e then 1 else 0) + settlements rest)%nat
  end.

(** The join slot of an image task right after subscription. *)
Definition image_slot (r : Restaurant) : option TaskValue :=
  if has_photo r then None else Some (ImageValue true).

Definition image_request (r : Restaurant) : list Call :=
  match photoUrl r with
  | Some url => if Js.truthy_str url then [loadImage url] else []
  | None => []
  end.

Fixpoint photos (l : list Restaurant) : nat :=
  match l with
  | [] => 0
  | r :: rest => ((if has_photo r then 1 else 0) + photos rest)%nat
  end.

(** The state right after the batch for [fetched] was subscribed. *)
Definition dispatched a req (fetched : list Restaurant) : State :=
  {| app := {| started := started a; restaurants := [];
               lastSearchRequest := Some req; loading := true;
               loadingMessage := "Finalizing your personalized menu..." |};
     messageInterval := Some 0%nat;
     awaitingRecommendations := false;
     results := fetched;
     join := Some (Rx.Waiting (replicate (length fetched) None ++ map image_slot fetched));
     revealTimer := false |}.

Definition batch_requests (fetched : list Restaurant) : list Call :=
  map (fun r => getAISummary (id r)) fetched ++ concat (map image_request fetched).

Definition reveal_calls : list Call := [clearInterval; setTimeout 1500].

(** The response of task [k] under given outcomes of the requests. *)
Definition response (n k : nat) (summary_of : nat -> option AIGeneratedSummary)
    (image_ok : nat -> bool) : Event :=
  if (k <? n)%nat then
    match summary_of k with
    | Some summary => SummaryNext k summary
    | None => SummaryError k
    end
  else if image_ok (k - n)%nat then ImageLoad (k - n) else ImageError (k - n).

Definition agrees (summary_of : nat -> option AIGeneratedSummary)
    (image_ok : nat -> bool) e : Prop :=
  match e with
  | SummaryNext i summary => summary_of i = Some summary
  | SummaryError i => summary_of i = None
  | ImageLoad i => image_ok i = true
  | ImageError i => image_ok i = false
  | _ => False
  end.

End OrchestratorTerms.

Section DebouncedTerms.
Import Search.

Implicit Types (ks : list (N * string)) (d : @Rx.Debounce string).

(** Keystrokes come in the order of their times and none is later than
    the moment of observation. *)
Fixpoint chronological (ks : list (N * string)) (horizon : N) : Prop :=
  match ks with
  | [] => True
  | (t, _) :: rest =>
      (t <= horizon)%N /\ Forall (fun k => (t <= k.1)%N) rest /\
      chronological rest horizon
  end.

(** [(t', v)] is the keystroke [v] made at [t' - due] and followed by no
    other keystroke before [t']. *)
Definition quiet (due : N) ks (horizon : N) (out : N * string) : Prop :=
  exists pre t post,
    ks = pre ++ (t, out.2) :: post /\
    out.1 = (t + due)%N /\
    (out.1 <= horizon)%N /\
    Forall (fun k => (t + due <= k.1)%N) post.

(** Typing J, Jo, Joe in quick succession, a pause, then an s, which is
    deleted again 100 ms later. *)
Definition typing : list (N * string) :=
  [ (0, "J"); (100, "Jo"); (200, "Joe"); (1000, "Joes"); (1100, "Joe") ]%N.

End DebouncedTerms.

Section FormTerms.
Import Model Search SearchForm.

(** The dietary restrictions ticked in the form. *)
Definition chosen (c : SearchComponent) : list string :=
  dietaryRestrictions (preferences c).

(** The address holds nothing but white space. *)
Definition blank (s : string) : bool :=
  forallb JsText.is_space (list_ascii_of_string s).

(** The other entry points of the search component. *)
Inductive FormAction :=
| ToggleDropdown
| Toggle (restriction : string)
| ManualSearch (lat lng : Js.value)
| GeocodeNext (latitude longitude : Js.value)
| GeocodeError.

Definition perform_form (act : FormAction) : SearchForm.M unit :=
  match act with
  | ToggleDropdown => lift toggleDietaryDropdown
  | Toggle restriction => lift (toggleDietaryRestriction restriction)
  | ManualSearch lat lng => searchByAddress lat lng
  | GeocodeNext latitude longitude => searchByAddress_next latitude longitude
  | GeocodeError => searchByAddress_error
  end.

(** The states of the component under all its entry points. *)
Inductive reaches : SearchComponent -> Prop :=
| reaches_init : reaches init
| reaches_action c act c' log :
    reaches c -> exec (perform act) c = Some (c', log) -> reaches c'
| reaches_form c act c' log :
    reaches c -> exec (perform_form act) c = Some (c', log) -> reaches c'.

(** [useCurrentLocation] on a browser: the component's call, the
    service's answer, the callback. *)
Definition locate (geolocation : option Location.Geolocation) : Search.M unit :=
  useCurrentLocation ;;
  useCurrentLocation_notified (notifications geolocation).

(** A place on the equator, and one with everything in it. *)
Definition quito : PlaceDetails :=
  {| location := Some (Js.Num (Js.Fin 0), Js.Num (Js.Fin (-785 # 10)));
     formattedAddress := Some "Quito, Ecuador" |}.

Definition broadway : PlaceDetails :=
  {| location := Some (Js.Num (Js.Fin (407 # 10)), Js.Num (Js.Fin (-74)));
     formattedAddress := None |}.

(** The dropdown right after three predictions came in, and with the
    first one highlighted. *)
Definition listed_joes : SearchComponent :=
  set_showPredictions true (set_predictions joes init).

Definition first_joe : SearchComponent := set_activePredictionIndex 0 listed_joes.

End FormTerms.

Section CycleTerms.
Import Model Main.

Implicit Types (a : App) (s : State) (req : SearchRequest).

(** The state while the recommendation request is out and the message
    cycle stands at phrase [i]. *)
Definition cycling a req (i : nat) : State :=
  {| app := {| started := started a; restaurants := [];
               lastSearchRequest := Some req; loading := true;
               loadingMessage := default "" (messages !! i) |};
     messageInterval := Some i;
     awaitingRecommendations := true;
     results := []; join := None; revealTimer := false |}.

(** Nothing of the search is outstanding: no callback can run. *)
Definition quiescent s : Prop := forall e, exec (deliver e) s = None.

End CycleTerms.

Section ResultsTerms.
Import Model Results.

Implicit Types (c : ResultsComponent) (r : Restaurant).

(** [n] clicks on the reroll button in a row. *)
Definition clicks (n : nat) : Results.M unit :=
  Nat.iter n (fun rest => rerollRecommendations ;; rest) skip.

(** The entry points of the results component: template handlers and
    the callbacks of its requests and of its timer.  The [restaurants]
    input is not bound anew in between. *)
Inductive ResultsAction :=
| Select (i : nat)
| Close
| SummaryArrived (summary : AIGeneratedSummary)
| SummaryFailed
| Preload
| PreloadArrived (i : nat) (summary : AIGeneratedSummary)
| Reroll
| Unlock.

Definition perform_results (act : ResultsAction) : Results.M unit :=
  match act with
  | Select i => selectRestaurant i
  | Close => closeDetails
  | SummaryArrived summary => loadAISummary_next summary
  | SummaryFailed => loadAISummary_error
  | Preload => preloadSummaries
  | PreloadArrived i summary => preloadSummaries_next i summary
  | Reroll => rerollRecommendations
  | Unlock => timer_fired RerollUnlock
  end.

Fixpoint perform_all (acts : list ResultsAction) : Results.M unit :=
  match acts with
  | [] => skip
  | act :: rest => perform_results act ;; perform_all rest
  end.

Definition ids (l : list Restaurant) : list string := map id l.

Definition has_summary r : Prop := Model.aiSummary r <> None.

(** A listing with a search to repeat. *)
Definition listing_downtown : ResultsComponent :=
  {| restaurants := two_rows; lastSearchRequest := Some downtown;
     selectedRestaurant := None; aiSummary := None;
     loadingSummary := false; loading := false |}.

(** What one action keeps. *)
Record kept c c' (log : list Call) : Prop := {
  kept_ids : ids (restaurants c') = ids (restaurants c);
  kept_request : lastSearchRequest c' = lastSearchRequest c;
  kept_listed : forall rid, getAISummary rid ∈ log -> rid ∈ ids (restaurants c);
  kept_reroll : forall req, onReroll_emit req ∈ log -> lastSearchRequest c = Some req;
  kept_selected : forall i, selectedRestaurant c' = Some i ->
                            selectedRestaurant c = Some i \/ (i < length (restaurants c))%nat;
  kept_summaries : forall i r, restaurants c !! i = Some r -> has_summary r ->
                               exists r', restaurants c' !! i = Some r' /\ has_summary r'
}.

End ResultsTerms.

Section GlyphTerms.

(** The longest string of V8 on a 64-bit machine: 2^29 - 24 code units. *)
Definition v8_maxLength : N := 536870888.

End GlyphTerms.

Section ClampTerms.
Import Model Search.

(** The value the three lines after the blur compute from
    [preferences.maxDistance]. *)
Definition clamp (dist : Js.value) : Js.value :=
  let dist := if negb (Js.truthy dist) || Js.lt dist one then one else dist in
  if Js.gt dist fifty then fifty else dist.

Definition blurred (event : bool) : list Call := if event then [blur] else [].

End ClampTerms.

(** * Properties *)

Ltac split_all := repeat match goal with |- _ /\ _ => split end.

(** ** Commands *)

Lemma bind_get {S E A} (k : S -> Cmd S E A) (s : S) : bind get k s = k s s.
Proof. unfold bind, get. destruct (k s s) as [[[a s'] l] |]; reflexivity. Qed.

Lemma bind_modify {S E A} (f : S -> S) (m : Cmd S E A) (s : S) :
  bind (modify f) (fun _ => m) s = m (f s).
Proof. unfold bind, modify. destruct (m (f s)) as [[[a s'] l] |]; reflexivity. Qed.

Lemma exec_bind {S E A B} (m : Cmd S E A) (k : A -> Cmd S E B) (s : S) :
  exec (bind m k) s =
    match m s with
    | Some (a, s1, l1) =>
        match exec (k a) s1 with
        | Some (s2, l2) => Some (s2, l1 ++ l2)
        | None => None
        end
    | None => None
    end.
Proof.
  unfold exec, bind. destruct (m s) as [[[a s1] l1] |]; [| reflexivity].
  destruct (k a s1) as [[[b s2] l2] |]; reflexivity.
Qed.

(** ** Distance validation *)

Section Distance.
Import Model Search.

Lemma Qltb_true (x y : Q) : Js.Qltb x y = true <-> (x < y)%Q.
Proof.
  unfold Js.Qltb. rewrite negb_true_iff, <- not_true_iff_false, Qle_bool_iff.
  split; [apply Qnot_le_lt | apply Qlt_not_le].
Qed.

Lemma Qltb_false (x y : Q) : Js.Qltb x y = false <-> (y <= x)%Q.
Proof.
  unfold Js.Qltb. rewrite negb_false_iff. apply Qle_bool_iff.
Qed.

Lemma validated_eq (event : bool) (c : SearchComponent) :
  validated event c =
    Some (let dist := maxDistance (preferences c) in
          let dist := if negb (Js.truthy dist) || Js.lt dist one then one else dist in
          if Js.gt dist fifty then fifty else dist).
Proof. destruct event; reflexivity. Qed.

(** C3. Whatever [preferences.maxDistance] holds (a number, NaN, an
    infinity, [null], [undefined]), [validateDistance] stores a finite
    number between 1 and 50: 1 for what is below 1 or not a number, 50
    for what is above 50, and the input itself when it already lies in
    the interval. *)
Theorem validateDistance_clamps (event : bool) (c : SearchComponent) :
  exists d',
    validated event c = Some d' /\
    (exists q, d' = Js.Num (Js.Fin q) /\ (1 <= q)%Q /\ (q <= 50)%Q) /\
    match maxDistance (preferences c) with
    | Js.Num (Js.Fin q) =>
        ((q < 1)%Q -> d' = one) /\
        ((50 < q)%Q -> d' = fifty) /\
        ((1 <= q)%Q -> (q <= 50)%Q -> d' = Js.Num (Js.Fin q))
    | Js.Num Js.Infinity => d' = fifty
    | Js.Num Js.NaN | Js.Num Js.NegInfinity | Js.Null | Js.Undefined => d' = one
    end.
Proof.
  rewrite validated_eq. eexists; split; [reflexivity |].
  destruct (maxDistance (preferences c)) as [ | | [q | | | ]]; cbn;
    try (split; [exists 1%Q | reflexivity]; repeat split; discriminate);
    try (split; [exists 50%Q | reflexivity]; repeat split; discriminate).
  destruct (Qeq_bool q 0) eqn:Hz; cbn.
  - apply Qeq_bool_iff in Hz.
    split; [exists 1%Q; repeat split; discriminate |].
    repeat split; intros; try reflexivity; exfalso.
    + rewrite Hz in H. revert H. apply Qle_not_lt. discriminate.
    + rewrite Hz in H. apply (Qle_not_lt _ _ H). reflexivity.
  - unfold Js.lt, Js.gt; cbn.
    destruct (Js.Qltb q 1) eqn:Hlow; cbn.
    + apply Qltb_true in Hlow.
      split; [exists 1%Q; repeat split; discriminate |].
      repeat split; intros; try reflexivity; exfalso.
      * apply (Qlt_irrefl q). apply Qlt_trans with 1%Q; [exact Hlow |].
        apply Qlt_trans with 50%Q; [reflexivity | exact H].
      * apply (Qle_not_lt _ _ H Hlow).
    + apply Qltb_false in Hlow.
      destruct (Js.Qltb 50 q) eqn:Hhigh; cbn.
      * apply Qltb_true in Hhigh.
        split; [exists 50%Q; repeat split; discriminate |].
        repeat split; intros; try reflexivity; exfalso.
        -- apply (Qle_not_lt _ _ Hlow H).
        -- apply (Qle_not_lt _ _ H0 Hhigh).
      * apply Qltb_false in Hhigh.
        split; [exists q; repeat split; assumption |].
        repeat split; intros; try reflexivity; exfalso.
        -- apply (Qle_not_lt _ _ Hlow H).
        -- apply (Qle_not_lt _ _ Hhigh H).
Qed.

Example validateDistance_zero :
  validated true (with_distance (Js.Num (Js.Fin 0))) = Some one.
Proof. reflexivity. Qed.

Example validateDistance_negative :
  validated true (with_distance (Js.Num (Js.Fin (-7 # 2)))) = Some one.
Proof. reflexivity. Qed.

Example validateDistance_empty_field :
  validated false (with_distance Js.Null) = Some one.
Proof. reflexivity. Qed.

Example validateDistance_large :
  validated true (with_distance (Js.Num (Js.Fin 120))) = Some fifty.
Proof. reflexivity. Qed.

Example validateDistance_inside :
  validated true (with_distance (Js.Num (Js.Fin (25 # 2)))) = Some (Js.Num (Js.Fin (25 # 2))).
Proof. reflexivity. Qed.

End Distance.

(** ** The autocomplete controller *)

Section Autocomplete.
Import Model Search.

Implicit Types (c : SearchComponent) (key query : string).

(** *** Short queries *)

(** C8. A query of fewer than three characters (the empty one too)
    sends no prediction request, empties the prediction list and hides
    the dropdown. *)
Theorem fetchPredictions_short_query c query :
  (String.length query < 3)%nat ->
  exists c',
    exec (fetchPredictions query) c = Some (c', []) /\
    predictions c' = [] /\
    showPredictions c' = false.
Proof.
  intros Hlen. apply Nat.ltb_lt in Hlen.
  unfold fetchPredictions. rewrite Hlen, orb_true_r.
  eexists; repeat split.
Qed.

Lemma fetchPredictions_short_query_witness :
  exists c',
    exec (fetchPredictions "jo") init = Some (c', []) /\
    predictions c' = [] /\ showPredictions c' = false.
Proof. apply fetchPredictions_short_query. cbn. lia. Defined.

(** A query of three characters or more sends one request. *)
Lemma fetchPredictions_long_query c query :
  (3 <= String.length query)%nat ->
  exec (fetchPredictions query) c =
    Some (set_errorMessage "" c, [getAutocompletePredictions query (sessionToken c)]).
Proof.
  intros Hlen.
  assert (Js.truthy_str query = true) as Htruthy.
  { destruct query; [cbn in Hlen; lia | reflexivity]. }
  apply Nat.ltb_ge in Hlen.
  unfold fetchPredictions. rewrite Htruthy, Hlen. reflexivity.
Qed.

(** *** A failed prediction fetch *)

(** The [error] callback empties the list and writes nothing else. *)
Lemma fetchPredictions_error_effect c :
  exec fetchPredictions_error c = Some (set_predictions [] c, []).
Proof. reflexivity. Qed.

Lemma fetchPredictions_error_keeps_flag c c' log :
  exec fetchPredictions_error c = Some (c', log) ->
  predictions c' = [] /\ showPredictions c' = showPredictions c /\ log = [].
Proof. rewrite fetchPredictions_error_effect. intros [= <- <-]. auto. Qed.

(** C6. With three predictions on display the user types on, the new
    query is sent and its fetch fails: the list is emptied, but
    [showPredictions] is still [true] after the [error] callback. *)
Theorem fetchPredictions_error_leaves_dropdown_flag :
  exists c1 c2,
    exec (fetchPredictions "Joe's Pizza N") showing_joes
      = Some (c1, [getAutocompletePredictions "Joe's Pizza N" None]) /\
    exec fetchPredictions_error c1 = Some (c2, []) /\
    predictions c2 = [] /\
    showPredictions c2 = true.
Proof. do 2 eexists. repeat split. Qed.

(** *** Keyboard navigation *)

Lemma visible_guard c :
  visible c -> negb (showPredictions c) || (length (predictions c) =? 0)%nat = false.
Proof.
  intros [-> Hne]. destruct (predictions c); [congruence | reflexivity].
Qed.

Lemma visible_count c : visible c -> 1 <= count c.
Proof.
  intros [_ Hne]. unfold count. destruct (predictions c); [congruence | cbn; lia].
Qed.

Lemma onKeydown_ArrowDown c :
  visible c ->
  exec (onKeydown "ArrowDown") c =
    Some (set_activePredictionIndex (Js.rem (activePredictionIndex c + 1) (count c)) c,
          [preventDefault]).
Proof.
  intros Hv. unfold onKeydown, exec, mbind, cmd_bind.
  rewrite bind_get, (visible_guard c Hv). reflexivity.
Qed.

Lemma onKeydown_ArrowUp c :
  visible c ->
  exec (onKeydown "ArrowUp") c =
    Some (set_activePredictionIndex
            (Js.rem (activePredictionIndex c - 1 + count c) (count c)) c,
          [preventDefault]).
Proof.
  intros Hv. unfold onKeydown, exec, mbind, cmd_bind.
  rewrite bind_get, (visible_guard c Hv). reflexivity.
Qed.

Lemma onKeydown_Escape c :
  visible c ->
  exec (onKeydown "Escape") c = Some (set_showPredictions false c, []).
Proof.
  intros Hv. unfold onKeydown, exec, mbind, cmd_bind.
  rewrite bind_get, (visible_guard c Hv). reflexivity.
Qed.

Lemma onKeydown_Enter c prediction :
  visible c ->
  0 <= activePredictionIndex c ->
  predictions c !! Z.to_nat (activePredictionIndex c) = Some prediction ->
  exec (onKeydown "Enter") c =
    Some (set_showPredictions false (set_address (description prediction) c),
          [preventDefault; getGooglePlaceDetails (place_id prediction)]).
Proof.
  intros Hv Hpos Hlook. apply Z.leb_le in Hpos.
  unfold onKeydown, exec, mbind, cmd_bind.
  rewrite bind_get, (visible_guard c Hv), Hpos, Hlook. reflexivity.
Qed.

Lemma onKeydown_hidden c key :
  showPredictions c = false \/ predictions c = [] ->
  exec (onKeydown key) c = Some (c, []).
Proof.
  intros H. unfold onKeydown, exec, mbind, cmd_bind. rewrite bind_get.
  assert (negb (showPredictions c) || (length (predictions c) =? 0)%nat = true) as ->;
    [| reflexivity].
  destruct H as [-> | ->]; [reflexivity | apply orb_true_r].
Qed.

Lemma rem_down (i k : Z) : 1 <= k -> -1 <= i < k -> Js.rem (i + 1) k = (i + 1) mod k.
Proof. intros Hk H. unfold Js.rem. apply Z.rem_mod_nonneg; lia. Qed.

Lemma rem_up (i k : Z) : 1 <= k -> -1 <= i < k -> Js.rem (i - 1 + k) k = (i - 1) mod k.
Proof.
  intros Hk H. unfold Js.rem.
  destruct (Z.eq_dec k 1) as [-> | Hne].
  - rewrite Z.rem_1_r, Z.mod_1_r. reflexivity.
  - rewrite Z.rem_mod_nonneg by lia.
    replace (i - 1 + k) with (i - 1 + 1 * k) by lia.
    apply Z.mod_add. lia.
Qed.

(** C5. With the dropdown visible over [k >= 1] predictions and the
    active index between -1 and [k - 1]: ArrowDown and ArrowUp move the
    index by one modulo [k], so it stays on a prediction and wraps at
    both ends; Enter on an index [>= 0] selects the prediction at
    that index (the address becomes its description, the dropdown is
    hidden, its place details are requested); Escape hides the
    dropdown and leaves the address alone.  With the dropdown hidden
    or empty no key changes anything. *)
Theorem onKeydown_contract c :
  (visible c ->
   -1 <= activePredictionIndex c < count c ->
   let i := activePredictionIndex c in
   let k := count c in
   (exists c', exec (onKeydown "ArrowDown") c = Some (c', [preventDefault]) /\
               c' = set_activePredictionIndex ((i + 1) mod k) c /\
               0 <= activePredictionIndex c' < k) /\
   (exists c', exec (onKeydown "ArrowUp") c = Some (c', [preventDefault]) /\
               c' = set_activePredictionIndex ((i - 1) mod k) c /\
               0 <= activePredictionIndex c' < k) /\
   (0 <= i ->
    exists prediction c',
      predictions c !! Z.to_nat i = Some prediction /\
      exec (onKeydown "Enter") c =
        Some (c', [preventDefault; getGooglePlaceDetails (place_id prediction)]) /\
      address c' = description prediction /\
      showPredictions c' = false) /\
   (exists c', exec (onKeydown "Escape") c = Some (c', []) /\
               showPredictions c' = false /\
               address c' = address c)) /\
  (showPredictions c = false \/ predictions c = [] ->
   forall key, exec (onKeydown key) c = Some (c, [])).
Proof.
  split; [| intros H key; apply onKeydown_hidden; exact H].
  intros Hv Hi i k. pose proof (visible_count c Hv) as Hk.
  repeat split.
  - eexists. rewrite onKeydown_ArrowDown by exact Hv.
    rewrite rem_down by assumption. repeat split; cbn; apply Z.mod_pos_bound; fold k; lia.
  - eexists. rewrite onKeydown_ArrowUp by exact Hv.
    rewrite rem_up by assumption. repeat split; cbn; apply Z.mod_pos_bound; fold k; lia.
  - intros Hpos.
    destruct (lookup_lt_is_Some_2 (predictions c) (Z.to_nat i)) as [p Hp].
    { unfold i, k, count in *. lia. }
    exists p. eexists. split; [exact Hp |].
    rewrite (onKeydown_Enter c p Hv Hpos Hp). repeat split.
  - eexists. rewrite onKeydown_Escape by exact Hv. repeat split.
Qed.

Lemma joes_visible i : visible (joes_at i).
Proof. split; [reflexivity | discriminate]. Qed.

Lemma onKeydown_contract_witness :
  exists c', exec (onKeydown "ArrowDown") (joes_at 2) = Some (c', [preventDefault]) /\
             c' = joes_at 0 /\ 0 <= activePredictionIndex c' < 3.
Proof.
  destruct (onKeydown_contract (joes_at 2)) as [Hvisible _].
  destruct (Hvisible (joes_visible 2)) as [Hdown _];
    [vm_compute; split; [discriminate | reflexivity] |].
  exact Hdown.
Defined.

(** Wrapping at the front: ArrowUp on the first prediction goes to the
    last one. *)
Example onKeydown_wraps_up :
  exec (onKeydown "ArrowUp") (joes_at 0) = Some (joes_at 2, [preventDefault]).
Proof. reflexivity. Qed.

(** Spec scenario: three predictions, ArrowDown twice, then Enter. *)
Example onKeydown_scenario :
  exists c1 c2 c3,
    exec (onKeydown "ArrowDown") showing_joes = Some (c1, [preventDefault]) /\
    exec (onKeydown "ArrowDown") c1 = Some (c2, [preventDefault]) /\
    activePredictionIndex c2 = 1 /\
    exec (onKeydown "Enter") c2 = Some (c3, [preventDefault; getGooglePlaceDetails "p1"]) /\
    address c3 = "Joe's Pizza, Broadway" /\
    showPredictions c3 = false.
Proof. do 3 eexists. repeat split. Qed.

(** C10. From the initial index -1 over [k >= 1] visible predictions,
    ArrowDown moves to index 0 while ArrowUp moves to [(k - 2) mod k]:
    for [k >= 2] that is the prediction before the last one, not the
    last. *)
Theorem onKeydown_from_no_selection c :
  visible c ->
  activePredictionIndex c = -1 ->
  let k := count c in
  exec (onKeydown "ArrowDown") c = Some (set_activePredictionIndex 0 c, [preventDefault]) /\
  exec (onKeydown "ArrowUp") c =
    Some (set_activePredictionIndex ((k - 2) mod k) c, [preventDefault]) /\
  (2 <= k -> (k - 2) mod k = k - 2 /\ (k - 2) mod k <> k - 1).
Proof.
  intros Hv Hi k. pose proof (visible_count c Hv) as Hk. fold k in Hk.
  rewrite onKeydown_ArrowDown, onKeydown_ArrowUp by exact Hv.
  rewrite Hi. fold k.
  replace (-1 + 1) with 0 by lia. replace (-1 - 1 + k) with (k - 2) by lia.
  assert (Js.rem 0 k = 0) as -> by (apply Z.rem_0_l; lia).
  assert (Js.rem (k - 2) k = (k - 2) mod k) as ->.
  { destruct (Z.eq_dec k 1) as [-> | Hne]; [reflexivity |].
    apply Z.rem_mod_nonneg; lia. }
  repeat split; intros; rewrite Z.mod_small by lia; lia.
Qed.

Lemma onKeydown_from_no_selection_witness :
  exec (onKeydown "ArrowDown") showing_joes = Some (joes_at 0, [preventDefault]) /\
  exec (onKeydown "ArrowUp") showing_joes = Some (joes_at 1, [preventDefault]) /\
  (2 <= 3 -> (3 - 2) mod 3 = 3 - 2 /\ (3 - 2) mod 3 <> 3 - 1).
Proof.
  apply (onKeydown_from_no_selection showing_joes).
  - split; [reflexivity | discriminate].
  - reflexivity.
Defined.

End Autocomplete.

(** *** Reachable states of the search component *)

Section Reachable.
Import Model Search.

Implicit Types (c : SearchComponent).

Lemma index_in_range_init : index_in_range init.
Proof. split; [reflexivity | left; reflexivity]. Qed.

Lemma rem_range (i k : Z) : 0 <= i -> 1 <= k -> 0 <= Js.rem i k < k.
Proof.
  intros Hi Hk. unfold Js.rem. rewrite Z.rem_mod_nonneg by lia.
  apply Z.mod_pos_bound. lia.
Qed.

Lemma perform_index_in_range act c c' log :
  index_in_range c ->
  exec (perform act) c = Some (c', log) ->
  index_in_range c'.
Proof.
  intros [Hlow Hhigh].
  assert (forall c0 l0, Some (c0, l0) = Some (c', log) ->
                        activePredictionIndex c0 = activePredictionIndex c ->
                        predictions c0 = predictions c ->
                        index_in_range c') as Hsame.
  { intros c0 l0 [= <- <-] Hi Hp. unfold index_in_range, count. rewrite Hi, Hp. auto. }
  destruct act; cbn [perform].
  - (* Keydown *)
    unfold onKeydown, exec, mbind, cmd_bind. rewrite bind_get.
    destruct (negb (showPredictions c) || (length (predictions c) =? 0)%nat) eqn:Hguard.
    + intros H. apply (Hsame _ _ H); reflexivity.
    + assert (predictions c <> []) as Hne.
      { intros Hnil. rewrite Hnil in Hguard. cbn in Hguard.
        rewrite orb_true_r in Hguard. discriminate. }
      destruct Hhigh as [Hnil | Hhigh]; [congruence |].
      assert (1 <= count c) as Hk.
      { unfold count. destruct (predictions c); [congruence | cbn; lia]. }
      fold (count c).
      destruct (key =? "ArrowDown")%string; [| destruct (key =? "ArrowUp")%string;
        [| destruct (key =? "Enter")%string; [| destruct (key =? "Escape")%string]]].
      * pose proof (rem_range (activePredictionIndex c + 1) (count c) ltac:(lia) Hk).
        intros [= <- <-]. split; [| right]; unfold count in *;
          cbn [activePredictionIndex predictions set_activePredictionIndex]; lia.
      * rewrite rem_up by lia.
        pose proof (Z.mod_pos_bound (activePredictionIndex c - 1) (count c) ltac:(lia)).
        intros [= <- <-]. split; [| right]; unfold count in *;
          cbn [activePredictionIndex predictions set_activePredictionIndex]; lia.
      * destruct (0 <=? activePredictionIndex c).
        -- destruct (predictions c !! Z.to_nat (activePredictionIndex c)); [| discriminate].
           intros H. apply (Hsame _ _ H); reflexivity.
        -- intros H. apply (Hsame _ _ H); reflexivity.
      * intros H. apply (Hsame _ _ H); reflexivity.
      * intros H. apply (Hsame _ _ H); reflexivity.
  - intros H. apply (Hsame _ _ H); reflexivity.
  - (* Submit *)
    unfold fetchPredictions, exec, mbind, cmd_bind. rewrite bind_modify.
    destruct (negb (Js.truthy_str query) || (String.length query <? 3)%nat).
    + intros [= <- <-]. split; [exact Hlow | left; reflexivity].
    + intros H. apply (Hsame _ _ H); reflexivity.
  - intros [= <- <-]. split; cbn; [lia |].
    destruct result; [left; reflexivity | right; unfold count; cbn; lia].
  - intros [= <- <-]. split; [exact Hlow | left; reflexivity].
  - intros H. apply (Hsame _ _ H); reflexivity.
  - (* PlaceNext *)
    unfold selectPrediction_next, handlePlaceSelection, exec, mbind, cmd_bind.
    destruct (Js.truthy _ && Js.truthy _); cbn;
      intros H; apply (Hsame _ _ H); reflexivity.
  - intros H. apply (Hsame _ _ H); reflexivity.
  - intros H. apply (Hsame _ _ H); reflexivity.
  - destruct t; intros H; apply (Hsame _ _ H); reflexivity.
  - destruct event; intros H; apply (Hsame _ _ H); reflexivity.
  - intros H. apply (Hsame _ _ H); reflexivity.
  - intros H. apply (Hsame _ _ H); reflexivity.
  - intros H. apply (Hsame _ _ H); reflexivity.
  - intros H. apply (Hsame _ _ H); reflexivity.
Qed.

Lemma reachable_index_in_range c : reachable c -> index_in_range c.
Proof.
  induction 1 as [| c act c' log _ IH Hstep];
    [apply index_in_range_init | apply (perform_index_in_range act c c' log IH Hstep)].
Qed.

(** X8. In a reachable state with the dropdown visible the active index is
    between -1 and the last position. *)
Lemma reachable_visible_range c :
  reachable c -> visible c -> -1 <= activePredictionIndex c < count c.
Proof.
  intros Hreach [_ Hne]. destruct (reachable_index_in_range c Hreach) as [Hlow [Hnil | Hhigh]];
    [congruence | lia].
Qed.

End Reachable.

(** ** Geolocation *)

Section Geolocation.
Import Location.

Implicit Types (api : Geolocation).

(** Without [navigator.geolocation] the observable fails at once and the
    browser is never asked. *)
Lemma getCurrentPosition_unsupported :
  requests None = [] /\
  exists msg, notifications None = [Error (NotSupported msg)].
Proof. split; [reflexivity | eexists; reflexivity]. Qed.




Example getCurrentPosition_denied :
  getCurrentPosition (Some refusing) =
    ([highAccuracyOptions],
     [Error (Geo {| code := 1; message := "User denied Geolocation" |})]).
Proof. reflexivity. Qed.

(** The position received by [useCurrentLocation] becomes a search
    request for the address [Current Location]. *)
Lemma useCurrentLocation_next_request (c : Search.SearchComponent) position :
  exec (Search.useCurrentLocation_next position) c =
    Some (c, [Search.onSearch_emit
                {| Model.address := "Current Location";
                   Model.latitude := latitude position;
                   Model.longitude := longitude position;
                   Model.preferences := Some (Search.preferences c) |};
              Search.setTimeout Search.UnlockInput 1000]).
Proof. reflexivity. Qed.

End Geolocation.

(** ** The detail view of the results *)

Section Details.
Import Model Results.

Implicit Types (c : ResultsComponent) (r : Restaurant).

Lemma selectRestaurant_cached c i r cached :
  restaurants c !! i = Some r ->
  Model.aiSummary r = Some cached ->
  exec (selectRestaurant i) c =
    Some (set_loadingSummary false
            (set_aiSummary (Some cached) (set_selectedRestaurant (Some i) c)), []).
Proof.
  intros Hrow Hsum. unfold selectRestaurant, exec, mbind, cmd_bind.
  rewrite bind_get, Hrow, Hsum. reflexivity.
Qed.

Lemma selectRestaurant_fetches c i r :
  restaurants c !! i = Some r ->
  Model.aiSummary r = None ->
  exec (selectRestaurant i) c =
    Some (set_aiSummary None
            (set_loadingSummary true (set_selectedRestaurant (Some i) c)),
          [getAISummary (id r)]).
Proof.
  intros Hrow Hsum. unfold selectRestaurant, exec, mbind, cmd_bind.
  rewrite bind_get, Hrow, Hsum. reflexivity.
Qed.




(** The callbacks of the on-demand fetch write the component's own
    [aiSummary] and never the restaurant object. *)
Lemma loadAISummary_next_keeps_restaurants c summary :
  exists c',
    exec (loadAISummary_next summary) c = Some (c', []) /\
    aiSummary c' = Some summary /\
    restaurants c' = restaurants c.
Proof. eexists. repeat split. Qed.

(** So a restaurant that came without a summary is fetched again at each
    selection: select row 0, receive its summary, select row 0 again. *)
Example selectRestaurant_refetches :
  exists c1 c2 c3,
    exec (selectRestaurant 0) listing = Some (c1, [getAISummary "r1"]) /\
    exec (loadAISummary_next slices) c1 = Some (c2, []) /\
    restaurants c2 !! 0%nat = Some sals /\
    exec (selectRestaurant 0) c2 = Some (c3, [getAISummary "r1"]).
Proof. do 3 eexists. repeat split. Qed.

End Details.

(** ** The search orchestrator *)

Section Orchestrator.
Import Model Main.

Implicit Types (a : App) (s : State) (req : SearchRequest) (e : Event).

Lemma handleSearch_effect a req :
  exec (handleSearch req) (start a) =
    Some (searching a req, [setInterval 1500; getPizzaRecommendations req]).
Proof. reflexivity. Qed.

Lemma search_then_run a req es :
  search_then req es a =
    match run es (searching a req) with
    | Some (s', l') => Some (s', search_calls req ++ l')
    | None => None
    end.
Proof. reflexivity. Qed.

(** *** A failed recommendation fetch *)

Lemma at_rest_no_event s e : at_rest s -> exec (deliver e) s = None.
Proof.
  intros ->. unfold exec, deliver, mbind, cmd_bind. rewrite bind_get.
  destruct e; reflexivity.
Qed.

Lemma run_app es1 es2 s :
  run (es1 ++ es2) s =
    match run es1 s with
    | Some (s1, l1) =>
        match run es2 s1 with
        | Some (s2, l2) => Some (s2, l1 ++ l2)
        | None => None
        end
    | None => None
    end.
Proof.
  revert s. induction es1 as [| e es1 IH]; intros s.
  - cbn. destruct (run es2 s) as [[s2 l2] |]; reflexivity.
  - change ((e :: es1) ++ es2) with (e :: (es1 ++ es2)). cbn [run].
    destruct (exec (deliver e) s) as [[s1 l1] |]; [| reflexivity].
    rewrite IH. destruct (run es1 s1) as [[s2 l2] |]; [| reflexivity].
    destruct (run es2 s2) as [[s3 l3] |]; [| reflexivity].
    rewrite app_assoc. reflexivity.
Qed.

Lemma cycling_tick a req i :
  (i < 4)%nat ->
  exec (deliver Tick) (cycling a req i) = Some (cycling a req (Nat.modulo (i + 1) 4), []).
Proof.
  intros Hi. do 4 (destruct i as [| i]; [reflexivity |]). lia.
Qed.

Lemma cycling_ticks a req k : forall i,
  (i < 4)%nat ->
  run (replicate k Tick) (cycling a req i) = Some (cycling a req (Nat.modulo (i + k) 4), []).
Proof.
  induction k as [| k IH]; intros i Hi; cbn [replicate run].
  - rewrite Nat.add_0_r, Nat.mod_small by exact Hi. reflexivity.
  - rewrite cycling_tick by exact Hi.
    rewrite IH by (apply Nat.mod_upper_bound; lia).
    rewrite Nat.Div0.add_mod_idemp_l. do 3 f_equal. f_equal. lia.
Qed.

(** C9. When the recommendation fetch fails, after any number of ticks
    of the message interval, one alert is shown: the backend's error
    detail when there is one (and it is not empty), the fixed fallback
    text otherwise.  The restaurant list is empty, the loading flag is
    off, the message interval is cleared, no summary or image request
    is sent, nothing remains pending, and [handleSearch] called on the
    component as it is left starts a search like the first one. *)
Theorem handleSearch_failure a req (k : nat) detail :
  exists s' msg,
    search_then req (replicate k Tick ++ [RecommendationsError detail]) a
      = Some (s', search_calls req ++ [clearInterval; alert msg]) /\
    (forall d, detail = Some d -> d <> "" -> msg = "Error: " +:+ d) /\
    (detail = None \/ detail = Some "" -> msg = "Error: " +:+ fallback) /\
    restaurants (app s') = [] /\
    loading (app s') = false /\
    lastSearchRequest (app s') = Some req /\
    started (app s') = started a /\
    messageInterval s' = None /\
    at_rest s' /\
    (forall e, exec (deliver e) s' = None) /\
    (forall req', exec (handleSearch req') s'
                  = Some (searching (app s') req', search_calls req')).
Proof.
  rewrite search_then_run, run_app.
  change (searching a req) with (cycling a req 0).
  rewrite cycling_ticks by lia. cbn [Nat.add run].
  do 2 eexists. split; [reflexivity |].
  split; [| split].
  - intros d -> Hd. destruct d; [congruence | reflexivity].
  - intros [-> | ->]; reflexivity.
  - split_all; try reflexivity. intros e. apply at_rest_no_event. reflexivity.
Qed.

Example handleSearch_failure_detail :
  search_then downtown [RecommendationsError (Some "No pizza places within 10 miles")] init
  = Some (start {| started := false; restaurants := [];
                   lastSearchRequest := Some downtown;
                   loading := false;
                   loadingMessage := "Finding the perfect pizza spots..." |},
          [setInterval 1500; getPizzaRecommendations downtown;
           clearInterval; alert "Error: No pizza places within 10 miles"]).
Proof. reflexivity. Qed.

Example handleSearch_failure_generic :
  exists s,
    search_then downtown [Tick; Tick; RecommendationsError None] init
    = Some (s, [setInterval 1500; getPizzaRecommendations downtown; clearInterval;
                alert "Error: Unable to fetch recommendations. Please try again."]) /\
    loading (app s) = false.
Proof. eexists. split; reflexivity. Qed.

(** *** A successful fetch with no restaurant *)

Lemma handleSearch_next_empty a req :
  exec (deliver (RecommendationsNext [])) (searching a req) = Some (stalled a req 0, []).
Proof. reflexivity. Qed.

Lemma stalled_step a req index e s log :
  exec (deliver e) (stalled a req index) = Some (s, log) ->
  e = Tick /\ log = [] /\ s = stalled a req (Nat.modulo (index + 1) 4).
Proof.
  destruct e; cbn; try discriminate.
  intros [= <- <-]. repeat split.
Qed.

Lemma stalled_run a req es : forall index s log,
  run es (stalled a req index) = Some (s, log) ->
  Forall (fun e => e = Tick) es /\ log = [] /\ exists index', s = stalled a req index'.
Proof.
  induction es as [| e es IH]; intros index s log; cbn.
  - intros [= <- <-]. repeat split; [constructor | eauto].
  - destruct (exec (deliver e) (stalled a req index)) as [[s1 l1] |] eqn:Hstep;
      [| discriminate].
    apply stalled_step in Hstep as (-> & -> & ->).
    destruct (run es _) as [[s2 l2] |] eqn:Hrun; [| discriminate].
    intros [= <- <-]. apply IH in Hrun as (Hall & -> & Hs).
    repeat split; [constructor; auto | exact Hs].
Qed.

(** C1 at a fetch that returns no restaurant.  The fetch succeeds with
    the empty array; whatever is delivered afterwards can only be ticks
    of the message interval, no call is ever made (no reveal timer, no
    [clearInterval]), and the loading flag stays on: the search never
    completes. *)
Theorem handleSearch_empty_never_completes a req es s log :
  search_then req (RecommendationsNext [] :: es) a = Some (s, log) ->
  Forall (fun e => e = Tick) es /\
  log = search_calls req /\
  loading (app s) = true /\
  restaurants (app s) = [] /\
  revealTimer s = false /\
  messageInterval s <> None /\
  exec (deliver RevealTimeout) s = None.
Proof.
  rewrite search_then_run. cbn [run]. rewrite handleSearch_next_empty.
  destruct (run es _) as [[s2 l2] |] eqn:Hrun; [| discriminate].
  intros [= <- <-]. apply stalled_run in Hrun as (Hall & -> & index' & ->).
  repeat split; [exact Hall | discriminate].
Qed.

Lemma handleSearch_empty_never_completes_witness :
  Forall (fun e => e = Tick) [Tick; Tick; Tick] /\
  search_calls downtown = search_calls downtown /\
  loading (app (stalled init downtown 3)) = true /\
  restaurants (app (stalled init downtown 3)) = [] /\
  revealTimer (stalled init downtown 3) = false /\
  messageInterval (stalled init downtown 3) <> None /\
  exec (deliver RevealTimeout) (stalled init downtown 3) = None.
Proof.
  apply (handleSearch_empty_never_completes init downtown [Tick; Tick; Tick]).
  reflexivity.
Defined.

(** *** A successful fetch with [n >= 1] restaurants *)

Lemma collected_unset (values : list (option TaskValue)) :
  match Rx.collected values with
  | Some _ => unset values = 0%nat
  | None => (0 < unset values)%nat
  end.
Proof.
  unfold Rx.collected.
  induction values as [| [v |] values IH]; cbn; [reflexivity | | lia].
  destruct (mapM Datatypes.id values); cbn; exact IH.
Qed.

Lemma unset_insert (values : list (option TaskValue)) k v :
  values !! k = Some None ->
  S (unset (<[k := Some v]> values)) = unset values.
Proof.
  revert k. induction values as [| o values IH]; intros [| k] H; cbn in *;
    try discriminate.
  - injection H as ->. reflexivity.
  - destruct o; [apply IH; exact H | f_equal; apply IH; exact H].
Qed.

Lemma unset_replicate n : unset (replicate n None) = n.
Proof. induction n; cbn; congruence. Qed.

Lemma unset_app (l1 l2 : list (option TaskValue)) : unset (l1 ++ l2) = (unset l1 + unset l2)%nat.
Proof. induction l1 as [| [v |] l1 IH]; cbn; lia. Qed.

Lemma task_settles_waiting s values k v :
  join s = Some (Rx.Waiting values) ->
  exec (task_settles k v) s =
    Some (match Rx.collected (<[k := Some v]> values) with
          | Some _ => (finish s, [clearInterval; setTimeout 1500])
          | None => (set_join (Some (Rx.Waiting (<[k := Some v]> values))) s, [])
          end).
Proof.
  intros Hjoin. unfold task_settles, exec, mbind, cmd_bind.
  rewrite bind_get, Hjoin. unfold Rx.settle.
  destruct (Rx.collected _); reflexivity.
Qed.

Lemma task_settles_other s k v :
  (forall values, join s <> Some (Rx.Waiting values)) ->
  exists s', exec (task_settles k v) s = Some (s', []) /\
             app s' = app s /\ results s' = results s /\
             awaitingRecommendations s' = awaitingRecommendations s /\
             revealTimer s' = revealTimer s /\
             messageInterval s' = messageInterval s /\
             (forall i, task_pending i s' = false).
Proof.
  intros Hjoin. unfold task_settles, exec, mbind, cmd_bind. rewrite bind_get.
  unfold task_pending.
  destruct (join s) as [[values |] |] eqn:Hj.
  - exfalso. apply (Hjoin values). reflexivity.
  - eexists. split; [reflexivity |]. cbn. repeat split.
  - eexists. split; [reflexivity |]. cbn. rewrite Hj. repeat split.
Qed.

Lemma task_pending_lookup s k :
  task_pending k s = true ->
  exists values, join s = Some (Rx.Waiting values) /\ values !! k = Some None.
Proof.
  unfold task_pending, Rx.pending.
  destruct (join s) as [[values |] |]; try discriminate.
  destruct (values !! k) as [[v |] |] eqn:Hk; try discriminate.
  intros _. eauto.
Qed.

Lemma enriching_settle n s k v :
  enriching n s ->
  task_pending k s = true ->
  exists s' log,
    exec (task_settles k v) s = Some (s', log) /\
    results s' = results s /\
    ((enriching n s' /\ S (unsettled s') = unsettled s /\ log = []) \/
     (settled n s' /\ unsettled s = 1%nat /\ log = [clearInterval; setTimeout 1500])).
Proof.
  intros [Haw Htm Hres (values & Hjoin & Hlen & Hpos) Hload Hhid Hint] Hpend.
  apply task_pending_lookup in Hpend as (values' & Hjoin' & Hk).
  rewrite Hjoin in Hjoin'. injection Hjoin' as <-.
  rewrite (task_settles_waiting s values k v Hjoin).
  pose proof (collected_unset (<[k := Some v]> values)) as Hc.
  pose proof (unset_insert values k v Hk) as Hu.
  destruct (Rx.collected _) as [all |].
  - do 2 eexists. split; [reflexivity |]. split; [reflexivity |]. right.
    split; [| split; [| reflexivity]].
    + constructor; cbn; auto.
    + unfold unsettled. rewrite Hjoin. lia.
  - do 2 eexists. split; [reflexivity |]. split; [reflexivity |]. left.
    split; [| split; [| reflexivity]].
    + constructor; cbn; auto.
      exists (<[k := Some v]> values). rewrite length_insert. auto.
    + unfold unsettled. cbn. rewrite Hjoin. exact Hu.
Qed.

Lemma enriching_set_results n s rs :
  enriching n s -> length rs = n -> enriching n (set_results rs s).
Proof. intros [] Hlen. constructor; cbn; auto. Qed.

Lemma enriching_tick n s index :
  enriching n s ->
  messageInterval s = Some index ->
  exists s', exec (messageCycle_tick index) s = Some (s', []) /\
             enriching n s' /\ unsettled s' = unsettled s /\
             results s' = results s /\ join s' = join s.
Proof.
  intros [] Hidx. unfold messageCycle_tick, exec, mbind, cmd_bind.
  rewrite bind_modify. rewrite bind_get.
  match goal with |- context [if ?b then _ else _] => destruct b end;
    eexists; (split; [reflexivity |]); repeat split; cbn; auto; discriminate.
Qed.

(** One event delivered while tasks are out: a tick, or the response of
    a pending task, which either leaves tasks out or was the last one
    and arms the reveal timer. *)
Lemma enriching_step n s e s' log :
  enriching n s ->
  exec (deliver e) s = Some (s', log) ->
  (e = Tick /\ enriching n s' /\ unsettled s' = unsettled s /\ log = []) \/
  (is_task e = true /\ enriching n s' /\ S (unsettled s') = unsettled s /\ log = []) \/
  (is_task e = true /\ settled n s' /\ unsettled s = 1%nat /\
   log = [clearInterval; setTimeout 1500]).
Proof.
  intros Hen. pose proof Hen as [Haw Htm Hres _ _ _ Hint].
  unfold exec at 1, deliver, mbind, cmd_bind. rewrite bind_get, Haw, Htm, Hres.
  destruct e as [| fetched | detail | i sum | i | i | i |]; try discriminate.
  - destruct (messageInterval s) as [index |] eqn:Hidx; [| congruence].
    destruct (enriching_tick n s index Hen Hidx) as (s1 & Hex & Hen1 & Hun & _).
    unfold exec in Hex. destruct (messageCycle_tick index s) as [[[u s2] l2] |];
      [| discriminate].
    injection Hex as -> ->. intros [= <- <-]. left. auto.
  - destruct ((i <? n)%nat && task_pending i s) eqn:Hc; [| discriminate].
    apply andb_prop in Hc as [_ Hpend].
    unfold summary_received, mbind, cmd_bind. rewrite bind_get. rewrite bind_modify.
    set (s1 := set_results _ s).
    assert (enriching n s1) as Hen1.
    { apply enriching_set_results; [exact Hen |]. rewrite length_alter. exact Hres. }
    destruct (enriching_settle n s1 i (SummaryValue (Some sum)) Hen1 Hpend)
      as (s2 & l2 & Hex & _ & Hcase).
    unfold exec in Hex. destruct (task_settles _ _ s1) as [[[u s3] l3] |]; [| discriminate].
    injection Hex as -> ->. intros [= <- <-]. right. tauto.
  - destruct ((i <? n)%nat && task_pending i s) eqn:Hc; [| discriminate].
    apply andb_prop in Hc as [_ Hpend].
    destruct (enriching_settle n s i (SummaryValue None) Hen Hpend)
      as (s2 & l2 & Hex & _ & Hcase).
    unfold exec in Hex. destruct (task_settles _ _ s) as [[[u s3] l3] |]; [| discriminate].
    injection Hex as -> ->. intros [= <- <-]. right. tauto.
  - destruct ((i <? n)%nat && task_pending (n + i) s) eqn:Hc; [| discriminate].
    apply andb_prop in Hc as [_ Hpend].
    destruct (enriching_settle n s (n + i) (ImageValue true) Hen Hpend)
      as (s2 & l2 & Hex & _ & Hcase).
    unfold exec in Hex. destruct (task_settles _ _ s) as [[[u s3] l3] |]; [| discriminate].
    injection Hex as -> ->. intros [= <- <-]. right. tauto.
  - destruct ((i <? n)%nat && task_pending (n + i) s) eqn:Hc; [| discriminate].
    apply andb_prop in Hc as [_ Hpend].
    destruct (enriching_settle n s (n + i) (ImageValue false) Hen Hpend)
      as (s2 & l2 & Hex & _ & Hcase).
    unfold exec in Hex. destruct (task_settles _ _ s) as [[[u s3] l3] |]; [| discriminate].
    injection Hex as -> ->. intros [= <- <-]. right. tauto.
Qed.

Lemma settled_step n s e s' log :
  settled n s ->
  exec (deliver e) s = Some (s', log) ->
  e = RevealTimeout /\ revealed n s' /\ log = [] /\ results s' = results s.
Proof.
  intros [Haw Htm Hres Hjoin Hload Hhid Hint Hmsg].
  unfold exec, deliver, mbind, cmd_bind. rewrite bind_get.
  unfold task_pending. rewrite Haw, Htm, Hint, Hjoin. cbn.
  destruct e; rewrite ?andb_false_r; try discriminate.
  intros [= <- <-]. repeat split; cbn; auto.
Qed.

Lemma settled_reveal n s :
  settled n s ->
  exists s', exec (deliver RevealTimeout) s = Some (s', []) /\
             revealed n s' /\
             restaurants (app s') = results s /\
             loading (app s') = false.
Proof.
  intros Hst. pose proof Hst as [Haw Htm Hres Hjoin Hload Hhid Hint Hmsg].
  unfold exec, deliver, mbind, cmd_bind. rewrite bind_get, Htm.
  eexists. split; [reflexivity |]. repeat split; cbn; auto.
Qed.

Lemma revealed_step n s e : revealed n s -> exec (deliver e) s = None.
Proof.
  intros [Haw Htm Hres Hjoin Hload Hshown Hint].
  unfold exec, deliver, mbind, cmd_bind. rewrite bind_get.
  unfold task_pending. rewrite Haw, Htm, Hint, Hjoin. cbn.
  destruct e; rewrite ?andb_false_r; reflexivity.
Qed.

Lemma enriching_unsettled n s : enriching n s -> (0 < unsettled s)%nat.
Proof.
  intros [_ _ _ (values & Hjoin & _ & Hpos) _ _ _]. unfold unsettled. rewrite Hjoin.
  exact Hpos.
Qed.

(** Fan-in.  However the events fall, a search with tasks out is in one
    of three stages: tasks still out, nothing shown and no call made;
    all tasks in, nothing shown yet and the reveal timer just armed; or
    revealed, which takes every task response and then the timer. *)
Lemma fan_in n es : forall s s' log,
  enriching n s ->
  run es s = Some (s', log) ->
  (enriching n s' /\ (settlements es + unsettled s')%nat = unsettled s /\ log = []) \/
  (settled n s' /\ settlements es = unsettled s /\
   log = [clearInterval; setTimeout 1500]) \/
  (revealed n s' /\ settlements es = unsettled s /\
   log = [clearInterval; setTimeout 1500] /\
   exists es', es = es' ++ [RevealTimeout]).
Proof.
  induction es as [| e es IH]; intros s s' log Hen; cbn [run settlements].
  - intros [= <- <-]. left. auto.
  - destruct (exec (deliver e) s) as [[s1 l1] |] eqn:Hstep; [| discriminate].
    destruct (run es s1) as [[s2 l2] |] eqn:Hrun; [| discriminate].
    intros [= <- <-].
    destruct (enriching_step n s e s1 l1 Hen Hstep)
      as [(-> & Hen1 & Hun & ->) | [(Htask & Hen1 & Hun & ->) | (Htask & Hst1 & Hun & ->)]].
    + destruct (IH s1 s2 l2 Hen1 Hrun)
        as [(? & ? & ->) | [(? & ? & ->) | (? & ? & -> & es' & ->)]]; cbn.
      * left. split_all; auto; lia.
      * right. left. split_all; auto; lia.
      * right. right. split_all; auto; try lia.
        exists (Tick :: es'). reflexivity.
    + rewrite Htask.
      destruct (IH s1 s2 l2 Hen1 Hrun)
        as [(? & ? & ->) | [(? & ? & ->) | (? & ? & -> & es' & ->)]]; cbn.
      * left. split_all; auto; lia.
      * right. left. split_all; auto; lia.
      * right. right. split_all; auto; try lia.
        exists (e :: es'). reflexivity.
    + rewrite Htask. destruct es as [| e2 es]; cbn in Hrun.
      * injection Hrun as <- <-. right. left. split_all; auto; cbn; lia.
      * destruct (exec (deliver e2) s1) as [[s3 l3] |] eqn:Hstep2; [| discriminate].
        destruct (settled_step n s1 e2 s3 l3 Hst1 Hstep2) as (-> & Hrev & -> & _).
        destruct es as [| e3 es]; cbn in Hrun.
        -- injection Hrun as <- <-. right. right.
           split_all; auto; try (cbn; lia). exists [e]. reflexivity.
        -- rewrite (revealed_step n s3 e3 Hrev) in Hrun. discriminate.
Qed.

(** Progress.  While tasks are out some task is pending, and a pending
    task may answer either way: both its success and its failure are
    taken. *)
Lemma enriching_pending n s :
  enriching n s -> exists k, (k < n + n)%nat /\ task_pending k s = true.
Proof.
  intros [_ _ _ (values & Hjoin & Hlen & Hpos) _ _ _].
  unfold task_pending, Rx.pending. rewrite Hjoin. rewrite <- Hlen. clear Hlen Hjoin.
  induction values as [| [v |] values IH]; cbn in *; [lia | |].
  - destruct (IH Hpos) as (k & Hk & Hp). exists (S k). split; [lia | exact Hp].
  - exists 0%nat. split; [lia | reflexivity].
Qed.

Lemma enriching_tolerant n s k :
  enriching n s ->
  task_pending k s = true ->
  (k < n + n)%nat ->
  if (k <? n)%nat
  then (forall summary, exec (deliver (SummaryNext k summary)) s <> None) /\
       exec (deliver (SummaryError k)) s <> None
  else exec (deliver (ImageLoad (k - n))) s <> None /\
       exec (deliver (ImageError (k - n))) s <> None.
Proof.
  intros Hen Hpend Hk. pose proof Hen as [_ _ Hres _ _ _ _].
  destruct (k <? n)%nat eqn:Hlt.
  - split; [intros summary |];
      unfold exec at 1, deliver, mbind, cmd_bind; rewrite bind_get, Hres, Hlt, Hpend; cbn.
    + unfold summary_received, mbind, cmd_bind. rewrite bind_get. rewrite bind_modify.
      set (s1 := set_results _ s).
      assert (enriching n s1) as Hen1.
      { apply enriching_set_results; [exact Hen |]. rewrite length_alter. exact Hres. }
      destruct (enriching_settle n s1 k (SummaryValue (Some summary)) Hen1 Hpend)
        as (s2 & l2 & Hex & _).
      unfold exec in Hex. destruct (task_settles _ _ s1) as [[[u s3] l3] |]; discriminate.
    + destruct (enriching_settle n s k (SummaryValue None) Hen Hpend) as (s2 & l2 & Hex & _).
      unfold exec in Hex. destruct (task_settles _ _ s) as [[[u s3] l3] |]; discriminate.
  - apply Nat.ltb_ge in Hlt.
    assert ((k - n <? n)%nat = true) as Hin by (apply Nat.ltb_lt; lia).
    assert (n + (k - n) = k)%nat as Hslot by lia.
    split; unfold exec at 1, deliver, mbind, cmd_bind;
      rewrite bind_get, Hres, Hin, Hslot, Hpend; cbn.
    + destruct (enriching_settle n s k (ImageValue true) Hen Hpend) as (s2 & l2 & Hex & _).
      unfold exec in Hex. destruct (task_settles _ _ s) as [[[u s3] l3] |]; discriminate.
    + destruct (enriching_settle n s k (ImageValue false) Hen Hpend) as (s2 & l2 & Hex & _).
      unfold exec in Hex. destruct (task_settles _ _ s) as [[[u s3] l3] |]; discriminate.
Qed.

(** *** Dispatch of the batch *)

Lemma unset_image_slots l : unset (map image_slot l) = photos l.
Proof.
  induction l as [| r l IH]; [reflexivity |]. cbn. unfold image_slot at 1.
  destruct (has_photo r); cbn; lia.
Qed.

Lemma subscribe_summaries l : forall i s,
  exec (subscribe_each (fun _ r => subscribe_summaryTask r) i l) s =
    Some (s, map (fun r => getAISummary (id r)) l).
Proof.
  induction l as [| r l IH]; intros i s; [reflexivity |].
  cbn [subscribe_each]. unfold mbind, cmd_bind. rewrite exec_bind. cbn.
  rewrite IH. reflexivity.
Qed.

Lemma set_join_same s j : join s = j -> set_join j s = s.
Proof. intros <-. destruct s. reflexivity. Qed.

Lemma subscribe_images n l : forall i pre s,
  length pre = (n + i)%nat ->
  (0 < unset pre)%nat ->
  join s = Some (Rx.Waiting (pre ++ replicate (length l) None)) ->
  exec (subscribe_each (subscribe_imageTask n) i l) s =
    Some (set_join (Some (Rx.Waiting (pre ++ map image_slot l))) s,
          concat (map image_request l)).
Proof.
  induction l as [| r l IH]; intros i pre s Hlen Hpos Hjoin.
  - cbn. rewrite set_join_same; [reflexivity | exact Hjoin].
  - cbn [subscribe_each length replicate map concat] in *.
    unfold mbind, cmd_bind. rewrite exec_bind.
    set (rest := subscribe_each (subscribe_imageTask n) (S i) l).
    set (requests := concat (map image_request l)).
    set (slots := map image_slot l).
    unfold subscribe_imageTask, image_request, image_slot, has_photo.
    destruct (photoUrl r) as [url |]; [destruct (Js.truthy_str url) |];
      subst rest requests slots.
    + cbn [call].
      rewrite (IH (S i) (pre ++ [None]) s).
      * rewrite <- app_assoc. reflexivity.
      * rewrite length_app. cbn. lia.
      * rewrite unset_app. lia.
      * rewrite <- app_assoc. exact Hjoin.
    + pose proof (task_settles_waiting s _ (n + i) (ImageValue true) Hjoin) as Hex.
      rewrite insert_app_r_alt in Hex by lia.
      replace (n + i - length pre)%nat with 0%nat in Hex by lia. cbn [insert list_insert] in Hex.
      pose proof (collected_unset (pre ++ Some (ImageValue true) :: replicate (length l) None)) as Hc.
      rewrite unset_app in Hc.
      destruct (Rx.collected _); [lia |].
      unfold exec in Hex. destruct (task_settles _ _ s) as [[[u s1] l1] |]; [| discriminate].
      injection Hex as -> ->.
      rewrite (IH (S i) (pre ++ [Some (ImageValue true)])).
      * rewrite <- app_assoc. reflexivity.
      * rewrite length_app. cbn. lia.
      * rewrite unset_app. cbn. lia.
      * cbn. rewrite <- app_assoc. reflexivity.
    + pose proof (task_settles_waiting s _ (n + i) (ImageValue true) Hjoin) as Hex.
      rewrite insert_app_r_alt in Hex by lia.
      replace (n + i - length pre)%nat with 0%nat in Hex by lia. cbn [insert list_insert] in Hex.
      pose proof (collected_unset (pre ++ Some (ImageValue true) :: replicate (length l) None)) as Hc.
      rewrite unset_app in Hc.
      destruct (Rx.collected _); [lia |].
      unfold exec in Hex. destruct (task_settles _ _ s) as [[[u s1] l1] |]; [| discriminate].
      injection Hex as -> ->.
      rewrite (IH (S i) (pre ++ [Some (ImageValue true)])).
      * rewrite <- app_assoc. reflexivity.
      * rewrite length_app. cbn. lia.
      * rewrite unset_app. cbn. lia.
      * cbn. rewrite <- app_assoc. reflexivity.
Qed.

Lemma handleSearch_next_dispatch a req fetched :
  fetched <> [] ->
  exec (deliver (RecommendationsNext fetched)) (searching a req) =
    Some (dispatched a req fetched,
          map (fun r => getAISummary (id r)) fetched ++ concat (map image_request fetched)).
Proof.
  intros Hne. set (n := length fetched).
  assert (0 < n)%nat as Hn by (subst n; destruct fetched; [congruence | cbn; lia]).
  unfold deliver, mbind, cmd_bind. rewrite exec_bind. cbn [get searching awaitingRecommendations].
  unfold handleSearch_next, mbind, cmd_bind. fold n.
  unfold Rx.subscribe.
  destruct (n + n =? 0)%nat eqn:Hz; [apply Nat.eqb_eq in Hz; lia |].
  do 5 (rewrite exec_bind; cbn [modify]).
  cbn [notify foldr]. rewrite exec_bind. cbn [skip ret].
  rewrite exec_bind.
  match goal with |- context [subscribe_each _ 0 fetched ?st] => set (s0 := st) end.
  pose proof (subscribe_summaries fetched 0 s0) as Hsum. unfold exec in Hsum.
  destruct (subscribe_each _ 0 fetched s0) as [[[u s1] l1] |]; [| discriminate].
  injection Hsum as -> ->.
  rewrite (subscribe_images n fetched 0 (replicate n None) s0).
  - reflexivity.
  - rewrite length_replicate. lia.
  - rewrite unset_replicate. exact Hn.
  - subst s0. cbn [join set_join]. rewrite replicate_add. reflexivity.
Qed.

Lemma dispatched_enriching a req fetched :
  fetched <> [] -> enriching (length fetched) (dispatched a req fetched).
Proof.
  intros Hne. constructor; cbn; auto; try discriminate.
  eexists. split; [reflexivity |].
  rewrite length_app, length_replicate, length_map, unset_app, unset_replicate.
  split; [reflexivity |]. destruct fetched; [congruence | cbn; lia].
Qed.

Lemma dispatched_unsettled a req fetched :
  unsettled (dispatched a req fetched) = (length fetched + photos fetched)%nat.
Proof.
  unfold unsettled. cbn. rewrite unset_app, unset_replicate, unset_image_slots. reflexivity.
Qed.

(** One summary task per restaurant is out, and one image task for each
    restaurant with a photo; the image task of a restaurant without a
    photo is in already. *)
Lemma dispatched_pending a req fetched i r :
  fetched !! i = Some r ->
  task_pending i (dispatched a req fetched) = true /\
  task_pending (length fetched + i) (dispatched a req fetched) = has_photo r.
Proof.
  intros Hi. pose proof (lookup_lt_Some _ _ _ Hi) as Hlt.
  unfold task_pending, Rx.pending. cbn. split.
  - rewrite lookup_app_l by (rewrite length_replicate; exact Hlt).
    rewrite lookup_replicate_2 by exact Hlt. reflexivity.
  - rewrite lookup_app_r by (rewrite length_replicate; lia).
    rewrite length_replicate.
    replace (length fetched + i - length fetched)%nat with i by lia.
    rewrite list_lookup_fmap, Hi. cbn. unfold image_slot.
    destruct (has_photo r); reflexivity.
Qed.

(** *** What the tasks do to the restaurants *)

Lemma task_settles_frame s k v s' log :
  exec (task_settles k v) s = Some (s', log) ->
  results s' = results s /\
  awaitingRecommendations s' = awaitingRecommendations s /\
  (forall j, task_pending j s = false -> task_pending j s' = false) /\
  task_pending k s' = false.
Proof.
  destruct (join s) as [[values |] |] eqn:Hjoin.
  - rewrite (task_settles_waiting s values k v Hjoin).
    destruct (Rx.collected _); intros [= <- <-]; cbn; split_all; auto.
    + intros j. unfold task_pending, Rx.pending. cbn. rewrite Hjoin.
      destruct (decide (j = k)) as [-> | Hne].
      * destruct (decide (k < length values)%nat) as [Hlt | Hge].
        -- rewrite list_lookup_insert_eq by exact Hlt. reflexivity.
        -- rewrite list_insert_ge by lia. auto.
      * rewrite list_lookup_insert_ne by congruence. auto.
    + unfold task_pending, Rx.pending. cbn.
      destruct (decide (k < length values)%nat) as [Hlt | Hge].
      * rewrite list_lookup_insert_eq by exact Hlt. reflexivity.
      * rewrite lookup_ge_None_2; [reflexivity |]. rewrite length_insert. lia.
  - destruct (task_settles_other s k v) as (s1 & Hex & _ & Hres & Haw & _ & _ & Hp).
    { intros values. rewrite Hjoin. discriminate. }
    rewrite Hex. intros [= <- <-]. auto.
  - destruct (task_settles_other s k v) as (s1 & Hex & _ & Hres & Haw & _ & _ & Hp).
    { intros values. rewrite Hjoin. discriminate. }
    rewrite Hex. intros [= <- <-]. auto.
Qed.

Lemma tick_frame s index s' log :
  exec (messageCycle_tick index) s = Some (s', log) ->
  results s' = results s /\ join s' = join s /\
  awaitingRecommendations s' = awaitingRecommendations s.
Proof.
  unfold messageCycle_tick, exec, mbind, cmd_bind.
  rewrite bind_modify. rewrite bind_get.
  match goal with |- context [if ?b then _ else _] => destruct b end;
    intros [= <- <-]; auto.
Qed.

(** One event, in any state with no recommendation request out: only a
    summary that arrives for a pending task writes a restaurant, namely
    its own; tasks that are in stay in. *)
Lemma deliver_frame s e s' log :
  awaitingRecommendations s = false ->
  exec (deliver e) s = Some (s', log) ->
  awaitingRecommendations s' = false /\
  (forall k, task_pending k s = false -> task_pending k s' = false) /\
  match e with
  | SummaryNext i summary =>
      task_pending i s = true /\ task_pending i s' = false /\
      results s' = alter (Model.set_aiSummary (Some summary)) i (results s)
  | _ => results s' = results s
  end.
Proof.
  intros Haw. unfold exec at 1, deliver, mbind, cmd_bind. rewrite bind_get, Haw.
  destruct e as [| fetched | detail | i sum | i | i | i |]; try discriminate.
  - destruct (messageInterval s) as [index |]; [| discriminate].
    intros H. apply (tick_frame s) in H as (Hres & Hjoin & Haw').
    unfold task_pending. rewrite Hjoin. split_all; auto. congruence.
  - destruct (_ && task_pending i s) eqn:Hc; [| discriminate].
    apply andb_prop in Hc as [_ Hpend].
    unfold summary_received, mbind, cmd_bind. rewrite bind_get. rewrite bind_modify.
    set (s1 := set_results _ s).
    intros H. apply (task_settles_frame s1) in H as (Hres & Haw' & Hkeep & Hin).
    subst s1. cbn in *. split_all; auto. congruence.
  - destruct (_ && task_pending i s) eqn:Hc; [| discriminate].
    intros H. apply (task_settles_frame s) in H as (Hres & Haw' & Hkeep & Hin).
    split_all; auto. congruence.
  - destruct (_ && task_pending _ s) eqn:Hc; [| discriminate].
    intros H. apply (task_settles_frame s) in H as (Hres & Haw' & Hkeep & Hin).
    split_all; auto. congruence.
  - destruct (_ && task_pending _ s) eqn:Hc; [| discriminate].
    intros H. apply (task_settles_frame s) in H as (Hres & Haw' & Hkeep & Hin).
    split_all; auto. congruence.
  - destruct (revealTimer s); [| discriminate].
    intros [= <- <-]. cbn. split_all; auto.
Qed.

(** Once the summary task of restaurant [i] is in, no later event writes
    that restaurant, and no second summary for it is ever taken. *)
Lemma run_frozen es : forall s s' log i,
  awaitingRecommendations s = false ->
  task_pending i s = false ->
  run es s = Some (s', log) ->
  results s' !! i = results s !! i /\ forall summary, SummaryNext i summary ∉ es.
Proof.
  induction es as [| e es IH]; intros s s' log i Haw Hin; cbn [run].
  - intros [= <- <-]. split; [reflexivity |]. intros summary H. inversion H.
  - destruct (exec (deliver e) s) as [[s1 l1] |] eqn:Hstep; [| discriminate].
    destruct (run es s1) as [[s2 l2] |] eqn:Hrun; [| discriminate].
    intros [= <- <-].
    destruct (deliver_frame s e s1 l1 Haw Hstep) as (Haw1 & Hkeep & He).
    destruct (IH s1 s2 l2 i Haw1 (Hkeep i Hin) Hrun) as (Hres & Hnot).
    assert (forall summary, e <> SummaryNext i summary) as Hne.
    { intros summary ->. destruct He as (Hp & _). congruence. }
    split.
    + rewrite Hres. destruct e as [| | | j sum | | | |]; try (rewrite He; reflexivity).
      destruct He as (_ & _ & ->). apply list_lookup_alter_ne. intros ->.
      apply (Hne sum). reflexivity.
    + intros summary H. apply elem_of_cons in H as [H | H].
      * apply (Hne summary). symmetry. exact H.
      * apply (Hnot summary H).
Qed.

(** A summary that arrived is on its restaurant at the end; a restaurant
    whose summary did not arrive is as the backend sent it. *)
Lemma run_annotated es : forall s s' log i,
  awaitingRecommendations s = false ->
  run es s = Some (s', log) ->
  (forall summary,
      SummaryNext i summary ∈ es ->
      results s' !! i = Model.set_aiSummary (Some summary) <$> results s !! i) /\
  ((forall summary, SummaryNext i summary ∉ es) ->
   results s' !! i = results s !! i).
Proof.
  induction es as [| e es IH]; intros s s' log i Haw; cbn [run].
  - intros [= <- <-]. split; [| reflexivity]. intros summary H. inversion H.
  - destruct (exec (deliver e) s) as [[s1 l1] |] eqn:Hstep; [| discriminate].
    destruct (run es s1) as [[s2 l2] |] eqn:Hrun; [| discriminate].
    intros [= <- <-].
    destruct (deliver_frame s e s1 l1 Haw Hstep) as (Haw1 & Hkeep & He).
    destruct (IH s1 s2 l2 i Haw1 Hrun) as (Hyes & Hno).
    assert ((forall summary, e <> SummaryNext i summary) ->
            results s1 !! i = results s !! i) as Hother.
    { intros Hne. destruct e as [| | | j sum | | | |]; try (rewrite He; reflexivity).
      destruct He as (_ & _ & ->). apply list_lookup_alter_ne. intros ->.
      apply (Hne sum). reflexivity. }
    split.
    + intros summary H. apply elem_of_cons in H as [H | H].
      * subst e. destruct He as (_ & Hin & Hres).
        destruct (run_frozen es s1 s2 l2 i Haw1 Hin Hrun) as (-> & _).
        rewrite Hres. apply list_lookup_alter_eq.
      * rewrite (Hyes summary H). f_equal. apply Hother.
        intros summary' ->. destruct He as (_ & Hin & _).
        destruct (run_frozen es s1 s2 l2 i Haw1 Hin Hrun) as (_ & Hnot).
        apply (Hnot summary H).
    + intros Hnone. rewrite Hno.
      * apply Hother. intros summary ->. apply (Hnone summary). left.
      * intros summary H. apply (Hnone summary). right. exact H.
Qed.

(** *** The whole operation for a non-empty answer *)

(** For a fetch that returned [n >= 1] restaurants and any events that
    follow: one summary request per restaurant and one image load per
    photo are sent; until the last task response nothing is shown and
    the reveal timer is not armed; the last response arms the 1500 ms
    timer; the timer shows the [n] restaurants and turns loading off.
    A restaurant whose summary arrived carries it, any other one is as
    the backend sent it. *)
Theorem handleSearch_fan_out_fan_in a req fetched es s log :
  fetched <> [] ->
  search_then req (RecommendationsNext fetched :: es) a = Some (s, log) ->
  let n := length fetched in
  let tasks_out := (n + photos fetched)%nat in
  (((settlements es < tasks_out)%nat /\ enriching n s /\
    log = search_calls req ++ batch_requests fetched) \/
   (settlements es = tasks_out /\ settled n s /\
    log = search_calls req ++ batch_requests fetched ++ reveal_calls) \/
   (settlements es = tasks_out /\ revealed n s /\
    log = search_calls req ++ batch_requests fetched ++ reveal_calls /\
    exists es', es = es' ++ [RevealTimeout])) /\
  (forall i r,
      fetched !! i = Some r ->
      (forall summary,
          SummaryNext i summary ∈ es ->
          results s !! i = Some (Model.set_aiSummary (Some summary) r)) /\
      ((forall summary, SummaryNext i summary ∉ es) -> results s !! i = Some r)).
Proof.
  intros Hne. rewrite search_then_run.
  cbn [run]. rewrite (handleSearch_next_dispatch a req fetched Hne).
  destruct (run es _) as [[s2 l2] |] eqn:Hrun; [| discriminate].
  intros [= <- <-].
  pose proof (dispatched_enriching a req fetched Hne) as Hen.
  pose proof (dispatched_unsettled a req fetched) as Hun.
  split.
  - destruct (fan_in _ es _ _ _ Hen Hrun)
      as [(Hen2 & Hcount & ->) | [(Hst & Hcount & ->) | (Hrev & Hcount & -> & Hlast)]].
    + left. pose proof (enriching_unsettled _ _ Hen2).
      split_all; auto; [lia |]. rewrite app_nil_r. reflexivity.
    + right. left. split_all; auto. lia.
    + right. right. split_all; auto. lia.
  - intros i r Hi.
    destruct (run_annotated es (dispatched a req fetched) s2 l2 i eq_refl Hrun) as (Hyes & Hno).
    cbn [results dispatched] in Hyes, Hno. rewrite Hi in Hyes, Hno. exact (conj Hyes Hno).
Qed.

Lemma response_agrees n k summary_of image_ok :
  agrees summary_of image_ok (response n k summary_of image_ok).
Proof.
  unfold response. destruct (k <? n)%nat.
  - destruct (summary_of k) eqn:H; exact H.
  - destruct (image_ok (k - n)%nat) eqn:H; exact H.
Qed.

Lemma response_taken n s k summary_of image_ok :
  enriching n s ->
  (k < n + n)%nat ->
  task_pending k s = true ->
  exec (deliver (response n k summary_of image_ok)) s <> None.
Proof.
  intros Hen Hk Hpend. pose proof (enriching_tolerant n s k Hen Hpend Hk) as H.
  unfold response. destruct (k <? n)%nat.
  - destruct (summary_of k); apply H.
  - destruct (image_ok (k - n)%nat); apply H.
Qed.

(** X2. Completion.  Whatever the outcome of each request, failures
    included, the tasks that are out can all answer, and then the timer
    reveals the restaurants. *)
Lemma enrichment_completes n summary_of image_ok : forall m s,
  unsettled s = m ->
  enriching n s ->
  exists es s' log,
    run (es ++ [RevealTimeout]) s = Some (s', log) /\
    revealed n s' /\
    settlements es = m /\
    Forall (agrees summary_of image_ok) es.
Proof.
  induction m as [| m IH]; intros s Hm Hen.
  - pose proof (enriching_unsettled n s Hen). lia.
  - destruct (enriching_pending n s Hen) as (k & Hk & Hpend).
    pose proof (response_taken n s k summary_of image_ok Hen Hk Hpend) as Htaken.
    pose proof (response_agrees n k summary_of image_ok) as Hagree.
    remember (response n k summary_of image_ok) as e eqn:He. clear He.
    destruct (exec (deliver e) s) as [[s1 l1] |] eqn:Hstep; [| congruence].
    assert (is_task e = true) as Htask by (destruct e; cbn in Hagree; tauto).
    destruct (enriching_step n s e s1 l1 Hen Hstep)
      as [(-> & _) | [(_ & Hen1 & Hun & ->) | (_ & Hst1 & Hun & ->)]]; [discriminate | |].
    + destruct (IH s1 ltac:(lia) Hen1) as (es & s' & log & Hrun & Hrev & Hcount & Hall).
      exists (e :: es), s', log. split_all; auto.
      * change ((e :: es) ++ [RevealTimeout]) with (e :: (es ++ [RevealTimeout])).
        cbn [run]. rewrite Hstep, Hrun. reflexivity.
      * cbn. rewrite Htask. lia.
    + destruct (settled_reveal n s1 Hst1) as (s' & Hreveal & Hrev & _).
      exists [e], s'. eexists. split_all; auto.
      * change ([e] ++ [RevealTimeout]) with [e; RevealTimeout].
        cbn [run]. rewrite Hstep, Hreveal. reflexivity.
      * cbn. rewrite Htask. lia.
Qed.

(** Spec scenario: two restaurants, the first summary fails and the
    second arrives; the second photo fails to load. *)
Example handleSearch_scenario :
  exists s,
    search_then downtown
      [RecommendationsNext [sals; Model.set_aiSummary None lucia];
       SummaryError 0; Tick; ImageError 1; SummaryNext 1 margherita; RevealTimeout]
      init
    = Some (s, [setInterval 1500; getPizzaRecommendations downtown;
                getAISummary "r1"; getAISummary "r2"; loadImage "https://img/r2.jpg";
                clearInterval; setTimeout 1500]) /\
    restaurants (app s) = [sals; lucia] /\
    loading (app s) = false.
Proof. eexists. split_all; vm_compute; reflexivity. Qed.

(** Every summary and every photo fails: both restaurants are shown
    all the same, without a summary. *)
Example handleSearch_all_fail :
  exists s,
    search_then downtown
      [RecommendationsNext [gino; Model.set_aiSummary None lucia];
       ImageError 1; SummaryError 1; ImageError 0; SummaryError 0; RevealTimeout]
      init
    = Some (s, [setInterval 1500; getPizzaRecommendations downtown;
                getAISummary "r3"; getAISummary "r2";
                loadImage "https://img/r3.jpg"; loadImage "https://img/r2.jpg";
                clearInterval; setTimeout 1500]) /\
    restaurants (app s) = [gino; Model.set_aiSummary None lucia] /\
    loading (app s) = false.
Proof. eexists. split_all; vm_compute; reflexivity. Qed.

(** Before the last task answers nothing is shown. *)
Example handleSearch_scenario_waiting :
  exists s,
    search_then downtown
      [RecommendationsNext [sals; Model.set_aiSummary None lucia];
       SummaryError 0; ImageError 1]
      init
    = Some (s, [setInterval 1500; getPizzaRecommendations downtown;
                getAISummary "r1"; getAISummary "r2"; loadImage "https://img/r2.jpg"]) /\
    restaurants (app s) = [] /\
    loading (app s) = true /\
    exec (deliver RevealTimeout) s = None.
Proof. eexists. split_all; vm_compute; reflexivity. Qed.

End Orchestrator.

(** ** Debounced input *)

Section Debounced.
Import Search.

Implicit Types (ks : list (N * string)) (d : @Rx.Debounce string).

Lemma debounceTime_quiet due ks horizon : forall d,
  chronological ks horizon ->
  forall out,
    out ∈ Rx.debounceTime due ks horizon d ->
    (exists v, Rx.lastValue d = Some v /\ out = ((Rx.lastTime d + due)%N, v) /\
               (out.1 <= horizon)%N /\
               Forall (fun k => (Rx.lastTime d + due <= k.1)%N) ks) \/
    quiet due ks horizon out.
Proof.
  induction ks as [| [t v] ks IH]; intros d Hchron out; cbn [Rx.debounceTime].
  - unfold Rx.advance. destruct (Rx.lastValue d) as [v |] eqn:Hlast; cbn.
    + destruct (Rx.lastTime d + due <=? horizon)%N eqn:Hdue; cbn.
      * intros Hin. apply list_elem_of_singleton in Hin as ->. left.
        exists v. apply N.leb_le in Hdue. split_all; auto.
      * intros Hin. inversion Hin.
    + intros Hin. inversion Hin.
  - destruct Hchron as (Hle & Hafter & Hchron).
    unfold Rx.receive.
    destruct (Rx.advance due t d) as [d0 flushed] eqn:Hadv.
    intros Hin. apply elem_of_app in Hin as [Hin | Hin].
    + (* the pending value went out when this keystroke came in *)
      unfold Rx.advance in Hadv.
      destruct (Rx.lastValue d) as [v0 |] eqn:Hlast.
      * destruct (Rx.lastTime d + due <=? t)%N eqn:Hdue;
          injection Hadv as <- <-; [| inversion Hin].
        apply list_elem_of_singleton in Hin as ->. left.
        apply N.leb_le in Hdue.
        exists v0. split_all; auto; [cbn; lia |].
        constructor; [exact Hdue |].
        eapply Forall_impl; [exact Hafter |]. cbn. intros k Hk. lia.
      * injection Hadv as <- <-. inversion Hin.
    + destruct (IH _ Hchron out Hin) as [(v1 & Hv1 & -> & Hh & Hall) | Hq].
      * cbn in Hv1. injection Hv1 as <-. cbn in Hh, Hall |- *. right.
        exists [], t, ks. split_all; auto.
      * destruct Hq as (pre & t1 & post & -> & Ht1 & Hh & Hall). right.
        exists ((t, v) :: pre), t1, post. split_all; auto.
Qed.

(** The other direction: a keystroke followed by [due] ms of silence
    within the time observed does come out of [debounceTime]. *)
Lemma debounceTime_pending_emitted due post horizon d v :
  Rx.lastValue d = Some v ->
  Forall (fun k => (Rx.lastTime d + due <= k.1)%N) post ->
  (Rx.lastTime d + due <= horizon)%N ->
  ((Rx.lastTime d + due)%N, v) ∈ Rx.debounceTime due post horizon d.
Proof.
  intros Hlast Hpost Hh. destruct post as [| [t1 v1] rest]; cbn [Rx.debounceTime].
  - unfold Rx.advance. rewrite Hlast.
    apply N.leb_le in Hh. rewrite Hh. cbn. left.
  - unfold Rx.receive, Rx.advance. rewrite Hlast.
    apply Forall_cons in Hpost as [Ht1 _]. cbn in Ht1.
    apply N.leb_le in Ht1. rewrite Ht1. apply elem_of_app. left. left.
Qed.

(** X6. A keystroke followed by [due] ms without another one, within the
    time observed, is sent on by [debounceTime] when its timer is due,
    whatever was typed before it. *)
Lemma debounceTime_emits due pre t v post horizon : forall d,
  Forall (fun k => (t + due <= k.1)%N) post ->
  (t + due <= horizon)%N ->
  ((t + due)%N, v) ∈ Rx.debounceTime due (pre ++ (t, v) :: post) horizon d.
Proof.
  induction pre as [| [t0 v0] pre IH]; intros d Hpost Hh; cbn [app Rx.debounceTime].
  - unfold Rx.receive. destruct (Rx.advance due t d) as [d0 flushed].
    apply elem_of_app. right.
    apply (debounceTime_pending_emitted due post horizon
             {| Rx.lastValue := Some v; Rx.lastTime := t |} v); auto.
  - change ((t0, v0) :: pre ++ (t, v) :: post) with ((t0, v0) :: (pre ++ (t, v) :: post)).
    cbn [Rx.debounceTime]. unfold Rx.receive.
    destruct (Rx.advance due t0 d) as [d0 flushed].
    apply elem_of_app. right. apply IH; assumption.
Qed.

(** [distinctUntilChanged] lets through values of its input only, ... *)
Lemma distinctUntilChanged_subset input : forall prev out,
  out ∈ Rx.distinctUntilChanged prev input -> out ∈ input.
Proof.
  induction input as [| [t v] input IH]; intros prev out; cbn.
  - auto.
  - destruct (match prev with Some p => (p =? v)%string | None => false end).
    + intros H. right. apply (IH _ _ H).
    + intros H. apply elem_of_cons in H as [-> | H]; [left | right; apply (IH _ _ H)].
Qed.

(** ... the first of them differs from the value sent before, ... *)
Lemma distinctUntilChanged_head input : forall p out rest,
  Rx.distinctUntilChanged (Some p) input = out :: rest -> out.2 <> p.
Proof.
  induction input as [| [t v] input IH]; intros p out rest; cbn; [discriminate |].
  destruct (p =? v)%string eqn:Heq.
  - apply IH.
  - intros [= <- _]. cbn. apply String.eqb_neq in Heq. congruence.
Qed.

(** ... and no two neighbours are equal. *)
Lemma distinctUntilChanged_neighbours input : forall prev i a b,
  Rx.distinctUntilChanged prev input !! i = Some a ->
  Rx.distinctUntilChanged prev input !! S i = Some b ->
  a.2 <> b.2.
Proof.
  induction input as [| [t v] input IH]; intros prev i a b; cbn; [discriminate |].
  destruct (match prev with Some p => (p =? v)%string | None => false end).
  - apply IH.
  - destruct i as [| i]; cbn.
    + intros [= <-]. cbn.
      destruct (Rx.distinctUntilChanged (Some v) input) as [| out rest] eqn:Hrest;
        [discriminate |].
      intros [= ->]. intros Heq.
      apply (distinctUntilChanged_head input v b rest Hrest). congruence.
    + apply IH.
Qed.

(** C2. For keystrokes in the order of their times: every value handed
    to the prediction fetch is the value of a keystroke followed by 300
    ms with no further keystroke, handed over at the end of these 300
    ms; and no value handed over equals the one handed over just
    before it. *)
Theorem submitted_debounced_distinct ks horizon :
  chronological ks horizon ->
  (forall out, out ∈ submitted ks horizon -> quiet 300 ks horizon out) /\
  (forall i a b,
      submitted ks horizon !! i = Some a ->
      submitted ks horizon !! S i = Some b ->
      a.2 <> b.2).
Proof.
  intros Hchron. unfold submitted. split.
  - intros out Hin. apply distinctUntilChanged_subset in Hin.
    destruct (debounceTime_quiet 300 ks horizon Rx.idle Hchron out Hin)
      as [(v & Hv & _) | Hq]; [discriminate | exact Hq].
  - apply distinctUntilChanged_neighbours.
Qed.

Example submitted_typing : submitted typing 5000 = [(500%N, "Joe")].
Proof. reflexivity. Qed.

Example debounced_typing :
  Rx.debounceTime 300 typing 5000 Rx.idle = [(500%N, "Joe"); (1400%N, "Joe")].
Proof. reflexivity. Qed.

Lemma submitted_debounced_distinct_witness :
  (forall out, out ∈ submitted typing 5000 -> quiet 300 typing 5000 out) /\
  (forall i a b,
      submitted typing 5000 !! i = Some a ->
      submitted typing 5000 !! S i = Some b ->
      a.2 <> b.2).
Proof.
  apply submitted_debounced_distinct. cbn.
  repeat (split; [lia |]); repeat split; repeat constructor; cbn; lia.
Defined.

(** The values that come out are the queries [fetchPredictions] gets:
    here one request, for [Joe]. *)
Example ngOnInit_subscription_typing :
  exec (ngOnInit_subscription typing 5000) init =
    Some (init, [getAutocompletePredictions "Joe" None]).
Proof. reflexivity. Qed.

End Debounced.

(** ** Price and rating glyphs *)

Section Glyphs.
Import ResultsView.

Lemma Qfloor_unique (x : Q) (z : Z) :
  (inject_Z z <= x)%Q -> (x < inject_Z (z + 1))%Q -> Qfloor x = z.
Proof.
  intros Hle Hlt.
  pose proof (Qfloor_resp_le _ _ Hle) as H1. rewrite Qfloor_Z in H1.
  pose proof (Qfloor_le x) as H2.
  assert (inject_Z (Qfloor x) < inject_Z (z + 1))%Q as H3 by (eapply Qle_lt_trans; eassumption).
  rewrite <- Zlt_Qlt in H3. lia.
Qed.

Lemma truncate_nonneg (q : Q) : (0 <= q)%Q -> JsText.truncate q = Qfloor q.
Proof.
  intros Hq. unfold JsText.truncate.
  destruct (Js.Qltb q 0) eqn:Hlt; [| reflexivity].
  apply Qltb_true in Hlt. lra.
Qed.

Lemma truncate_Z (z : Z) : JsText.truncate (inject_Z z) = z.
Proof.
  unfold JsText.truncate. destruct (Js.Qltb _ _); [apply Qceiling_Z | apply Qfloor_Z].
Qed.

Lemma truncate_negative (q : Q) : (JsText.truncate q < 0)%Z <-> (q <= -1)%Q.
Proof.
  unfold JsText.truncate. destruct (Js.Qltb q 0) eqn:Hlt.
  - apply Qltb_true in Hlt.
    pose proof (Qle_ceiling q) as Hc. pose proof (Qceiling_lt q) as Hc'.
    unfold Z.sub in Hc'. rewrite inject_Z_plus in Hc'.
    change (inject_Z (- (1))) with (-1 # 1)%Q in Hc'. split.
    + intros Hneg. assert (inject_Z (Qceiling q) <= inject_Z (-1))%Q as H
        by (rewrite <- Zle_Qle; lia).
      change (inject_Z (-1)) with (-1)%Q in H. lra.
    + intros Hq. assert (inject_Z (Qceiling q) < inject_Z 0)%Q as H.
      { change (inject_Z 0) with 0%Q. lra. }
      rewrite <- Zlt_Qlt in H. exact H.
  - apply Qltb_false in Hlt. pose proof (Qfloor_resp_le _ _ Hlt) as H.
    change (Qfloor 0) with 0%Z in H. split; [lia | lra].
Qed.

Lemma concat_replicate_singleton (n : nat) (u : N) :
  concat (replicate n [u]) = replicate n u.
Proof. induction n as [| n IH]; cbn; [reflexivity | rewrite IH; reflexivity]. Qed.

Lemma repeat_unit (maxLength : N) (u : N) (q : Q) :
  JsText.repeat maxLength [u] (Js.Fin q) =
    if JsText.truncate q <? 0 then None
    else if Z.of_N maxLength <? JsText.truncate q then None
    else Some (replicate (Z.to_nat (JsText.truncate q)) u).
Proof.
  unfold JsText.repeat. cbn zeta.
  destruct (JsText.truncate q <? 0) eqn:Hneg; [reflexivity |].
  destruct (JsText.truncate q =? 0) eqn:Hzero.
  - apply Z.eqb_eq in Hzero. rewrite Hzero.
    assert ((Z.of_N maxLength <? 0) = false) as -> by (apply Z.ltb_ge; lia).
    reflexivity.
  - cbn [length]. rewrite Z.mul_1_r, concat_replicate_singleton. reflexivity.
Qed.

(** X21. [getPriceSymbol] throws exactly for a price level of -1 or less, an
    infinite one, or one whose integer part is more than the longest
    string; otherwise it gives as many dollar signs as the integer part
    of the price level (none for NaN). *)
Theorem getPriceSymbol_spec (maxLength : N) (priceLevel : Js.number) :
  (getPriceSymbol maxLength priceLevel = None <->
   priceLevel = Js.Infinity \/ priceLevel = Js.NegInfinity \/
   exists q, priceLevel = Js.Fin q /\
             ((q <= -1)%Q \/ Z.of_N maxLength < JsText.truncate q)) /\
  (forall symbols,
      getPriceSymbol maxLength priceLevel = Some symbols ->
      symbols = replicate (length symbols) 36%N /\
      Z.of_nat (length symbols) <= Z.of_N maxLength /\
      match priceLevel with
      | Js.Fin q => Z.of_nat (length symbols) = Z.max 0 (JsText.truncate q)
      | _ => length symbols = 0%nat
      end).
Proof.
  unfold getPriceSymbol, dollar. split.
  - destruct priceLevel as [q | | |].
    + rewrite repeat_unit.
      destruct (JsText.truncate q <? 0) eqn:Hneg.
      * apply Z.ltb_lt in Hneg. split; [| reflexivity].
        intros _. right. right. exists q. split; [reflexivity |].
        left. apply truncate_negative. exact Hneg.
      * apply Z.ltb_ge in Hneg.
        destruct (Z.of_N maxLength <? JsText.truncate q) eqn:Hlong.
        -- apply Z.ltb_lt in Hlong. split; [| reflexivity].
           intros _. right. right. exists q. split; [reflexivity |]. right. exact Hlong.
        -- apply Z.ltb_ge in Hlong. split; [discriminate |].
           intros [H | [H | (q' & [= <-] & [Hq | Hq])]]; try discriminate.
           ++ apply truncate_negative in Hq. lia.
           ++ lia.
    + split; [discriminate |]. intros [H | [H | (q & H & _)]]; discriminate.
    + split; auto.
    + split; auto.
  - intros symbols. destruct priceLevel as [q | | |]; try discriminate.
    + rewrite repeat_unit.
      destruct (JsText.truncate q <? 0) eqn:Hneg; [discriminate |].
      destruct (Z.of_N maxLength <? JsText.truncate q) eqn:Hlong; [discriminate |].
      apply Z.ltb_ge in Hneg, Hlong. intros [= <-].
      rewrite length_replicate. split; [reflexivity | lia].
    + intros [= <-]. split; [reflexivity |]. split; [cbn; lia | reflexivity].
Qed.

Lemma rem_one (q : Q) :
  (0 <= q)%Q -> JsText.rem (Js.Fin q) (Js.Fin 1) = Js.Fin (q - 1 * inject_Z (JsText.truncate (q / 1))) /\
                JsText.truncate (q / 1) = Qfloor q.
Proof.
  intros Hq. split; [reflexivity |].
  assert (q / 1 == q)%Q as Heq by field.
  rewrite truncate_nonneg by (rewrite Heq; exact Hq).
  rewrite Heq. reflexivity.
Qed.

(** Rounding half up, from the floor and the fraction. *)
Lemma Qfloor_half_up (q : Q) :
  Qfloor (q + (1 # 2)) =
    Qfloor q + (if Js.Qltb (q - 1 * inject_Z (Qfloor q)) (1 # 2) then 0 else 1).
Proof.
  pose proof (Qfloor_le q) as Hlow. pose proof (Qlt_floor q) as Hhigh.
  rewrite inject_Z_plus in Hhigh. change (inject_Z 1) with 1%Q in Hhigh.
  destruct (Js.Qltb _ _) eqn:Hhalf.
  - apply Qltb_true in Hhalf. rewrite Z.add_0_r.
    apply Qfloor_unique; [lra |].
    rewrite inject_Z_plus. change (inject_Z 1) with 1%Q. lra.
  - apply Qltb_false in Hhalf.
    apply Qfloor_unique.
    + rewrite inject_Z_plus. change (inject_Z 1) with 1%Q. lra.
    + rewrite !inject_Z_plus. change (inject_Z 1) with 1%Q. lra.
Qed.

(** What [getStars] computes for a finite rating that is not negative,
    with [n] its floor and [half] whether the fraction is a half or
    more. *)
Lemma getStars_finite (maxLength : N) (q : Q) :
  (0 <= q)%Q ->
  getStars maxLength (Js.Fin q) =
    let n := Qfloor q in
    let half := negb (Js.Qltb (q - 1 * inject_Z n) (1 # 2)) in
    if Z.of_N maxLength <? n then None
    else if half then
      if Z.of_N maxLength <? n + 1 then None
      else Some (replicate (Z.to_nat n) 11088%N ++ [10024%N])
    else Some (replicate (Z.to_nat n) 11088%N).
Proof.
  intros Hq. unfold getStars, JsText.floor, star, sparkles.
  rewrite repeat_unit, truncate_Z.
  pose proof (Qfloor_resp_le _ _ Hq) as Hf. change (Qfloor 0) with 0%Z in Hf.
  assert ((Qfloor q <? 0) = false) as -> by (apply Z.ltb_ge; exact Hf).
  destruct (rem_one q Hq) as [-> Htr]. rewrite Htr.
  unfold JsText.ge, Js.num_lt. cbn zeta.
  destruct (Z.of_N maxLength <? Qfloor q); [reflexivity |].
  destruct (negb (Js.Qltb (q - 1 * inject_Z (Qfloor q)) (1 # 2))); [| reflexivity].
  unfold JsText.append. rewrite length_replicate. cbn [length].
  rewrite Nat2Z.inj_add, Z2Nat.id by exact Hf. reflexivity.
Qed.

(** X22. For a finite rating that is not negative and does not round to
    more than the longest string, [getStars] gives one star per whole
    point and then one sparkle when the fraction is a half or more: the
    number of glyphs is the rating rounded to the nearest integer,
    halves up. *)
Theorem getStars_rounds (maxLength : N) (q : Q) :
  (0 <= q)%Q ->
  Qfloor (q + (1 # 2)) <= Z.of_N maxLength ->
  exists glyphs,
    getStars maxLength (Js.Fin q) = Some glyphs /\
    Z.of_nat (length glyphs) = Qfloor (q + (1 # 2)) /\
    glyphs = replicate (Z.to_nat (Qfloor q)) 11088%N
               ++ (if Qle_bool (inject_Z (Qfloor q) + (1 # 2)) q then [10024%N] else []).
Proof.
  intros Hq Hfit. rewrite (getStars_finite maxLength q Hq). cbn zeta.
  rewrite Qfloor_half_up in Hfit |- *.
  pose proof (Qfloor_resp_le _ _ Hq) as Hf. change (Qfloor 0) with 0%Z in Hf.
  destruct (Js.Qltb (q - 1 * inject_Z (Qfloor q)) (1 # 2)) eqn:Hhalf; cbn [negb].
  - apply Qltb_true in Hhalf.
    assert (Qle_bool (inject_Z (Qfloor q) + (1 # 2)) q = false) as ->.
    { apply not_true_iff_false. rewrite Qle_bool_iff. lra. }
    assert ((Z.of_N maxLength <? Qfloor q) = false) as -> by (apply Z.ltb_ge; lia).
    eexists. split; [reflexivity |]. split; [| rewrite app_nil_r; reflexivity].
    rewrite length_replicate, Z2Nat.id by exact Hf. lia.
  - apply Qltb_false in Hhalf.
    assert (Qle_bool (inject_Z (Qfloor q) + (1 # 2)) q = true) as ->.
    { rewrite Qle_bool_iff. lra. }
    assert ((Z.of_N maxLength <? Qfloor q) = false) as -> by (apply Z.ltb_ge; lia).
    assert ((Z.of_N maxLength <? Qfloor q + 1) = false) as -> by (apply Z.ltb_ge; lia).
    eexists. split; [reflexivity |]. split; [| reflexivity].
    rewrite length_app, length_replicate. cbn [length].
    rewrite Nat2Z.inj_add, Z2Nat.id by exact Hf. reflexivity.
Qed.

Lemma getStars_rounds_witness :
  exists glyphs,
    getStars v8_maxLength (Js.Fin (9 # 2)) = Some glyphs /\
    Z.of_nat (length glyphs) = Qfloor ((9 # 2) + (1 # 2)) /\
    glyphs = replicate (Z.to_nat (Qfloor (9 # 2))) 11088%N
               ++ (if Qle_bool (inject_Z (Qfloor (9 # 2)) + (1 # 2)) (9 # 2)
                   then [10024%N] else []).
Proof.
  apply (getStars_rounds v8_maxLength (9 # 2)).
  - discriminate.
  - vm_compute. discriminate.
Defined.

(** X23. [getStars] throws exactly for a negative rating, an infinite one,
    or one that rounds (halves up) to more than the longest string; for
    NaN it gives the empty string. *)
Theorem getStars_throws (maxLength : N) (rating : Js.number) :
  (getStars maxLength rating = None <->
   rating = Js.Infinity \/ rating = Js.NegInfinity \/
   exists q, rating = Js.Fin q /\
             ((q < 0)%Q \/ Z.of_N maxLength < Qfloor (q + (1 # 2)))) /\
  getStars maxLength Js.NaN = Some [].
Proof.
  split; [| reflexivity].
  destruct rating as [q | | |].
  - pose proof (Qfloor_le q) as Hlow. pose proof (Qlt_floor q) as Hhigh.
    rewrite inject_Z_plus in Hhigh. change (inject_Z 1) with 1%Q in Hhigh.
    destruct (Js.Qltb q 0) eqn:Hsign.
    + (* negative: the floor is negative and [repeat] throws *)
      apply Qltb_true in Hsign. split.
      * intros _. right. right. exists q. auto.
      * intros _. unfold getStars, JsText.floor, star. rewrite repeat_unit, truncate_Z.
        assert ((Qfloor q <? 0) = true) as ->; [| reflexivity].
        apply Z.ltb_lt.
        assert (inject_Z (Qfloor q) < inject_Z 0)%Q as H
          by (change (inject_Z 0) with 0%Q; lra).
        rewrite <- Zlt_Qlt in H. exact H.
    + apply Qltb_false in Hsign.
      pose proof (Qfloor_resp_le _ _ Hsign) as Hf. change (Qfloor 0) with 0%Z in Hf.
      rewrite (getStars_finite maxLength q Hsign). cbn zeta.
      pose proof (Qfloor_half_up q) as Hround.
      destruct (Z.of_N maxLength <? Qfloor q) eqn:Hlong.
      * apply Z.ltb_lt in Hlong. split; [| reflexivity].
        intros _. right. right. exists q. split; [reflexivity |]. right.
        rewrite Hround. destruct (Js.Qltb _ _); lia.
      * apply Z.ltb_ge in Hlong.
        destruct (Js.Qltb (q - 1 * inject_Z (Qfloor q)) (1 # 2)); cbn [negb].
        -- split; [discriminate |].
           intros [H | [H | (q' & [= <-] & [Hq | Hq])]]; try discriminate; [lra | lia].
        -- destruct (Z.of_N maxLength <? Qfloor q + 1) eqn:Hlong1.
           ++ apply Z.ltb_lt in Hlong1. split; [| reflexivity].
              intros _. right. right. exists q. split; [reflexivity |]. right.
              rewrite Hround. exact Hlong1.
           ++ apply Z.ltb_ge in Hlong1. split; [discriminate |].
              intros [H | [H | (q' & [= <-] & [Hq | Hq])]]; try discriminate; [lra | lia].
  - split; [discriminate |]. intros [H | [H | (q & H & _)]]; discriminate.
  - split; auto.
  - split; auto.
Qed.

Example getStars_four_and_a_half :
  getStars v8_maxLength (Js.Fin (9 # 2)) = Some [11088; 11088; 11088; 11088; 10024]%N.
Proof. reflexivity. Qed.

Example getPriceSymbol_three :
  getPriceSymbol v8_maxLength (Js.Fin 3) = Some [36; 36; 36]%N.
Proof. reflexivity. Qed.

(** A price level or a rating beyond the longest string throws. *)
Example getPriceSymbol_too_long :
  getPriceSymbol v8_maxLength (Js.Fin (inject_Z (2 ^ 30))) = None.
Proof. vm_compute. reflexivity. Qed.

Example getStars_too_long :
  getStars v8_maxLength (Js.Fin (inject_Z (10 ^ 10))) = None.
Proof. vm_compute. reflexivity. Qed.

End Glyphs.

(** ** The rest of the search form *)

Section Form.
Import Model Search SearchForm.

Implicit Types (c : SearchComponent) (l : list string) (x : string).

(** *** Dietary restrictions *)

Lemma includes_elem_of x l : JsText.includes x l = true <-> x ∈ l.
Proof.
  unfold JsText.includes. rewrite existsb_exists, list_elem_of_In. split.
  - intros (y & Hy & Heq). apply String.eqb_eq in Heq. subst. exact Hy.
  - intros H. exists x. split; [exact H | apply String.eqb_refl].
Qed.

Lemma indexOf_from_spec x l : forall i,
  let r := JsText.indexOf_from x l i in
  (r = -1 /\ x ∉ l) \/
  (exists k, r = i + Z.of_nat k /\ l !! k = Some x /\ x ∉ take k l) \/
  (i < 0).
Proof.
  induction l as [| y l IH]; intros i; cbn.
  - left. split; [reflexivity | apply not_elem_of_nil].
  - destruct (Z_lt_dec i 0) as [Hneg | Hpos]; [right; right; exact Hneg |].
    destruct (String.eqb y x) eqn:Heq.
    + apply String.eqb_eq in Heq. subst y. right. left. exists 0%nat.
      split; [lia |]. split; [reflexivity | apply not_elem_of_nil].
    + apply String.eqb_neq in Heq.
      destruct (IH (i + 1)) as [(Hr & Hno) | [(k & Hr & Hk & Hno) | Hneg]]; [| | lia].
      * left. split; [exact Hr |]. intros H. apply elem_of_cons in H as [-> | H]; auto.
      * right. left. exists (S k). split; [lia |]. split; [exact Hk |].
        cbn. intros H. apply elem_of_cons in H as [-> | H]; auto.
Qed.

Lemma indexOf_spec x l :
  (JsText.indexOf x l = -1 /\ x ∉ l) \/
  (exists k, JsText.indexOf x l = Z.of_nat k /\ l !! k = Some x /\ x ∉ take k l).
Proof.
  destruct (indexOf_from_spec x l 0) as [H | [(k & Hr & H) | Hneg]]; [left; exact H | | lia].
  right. exists k. split; [exact Hr | exact H].
Qed.

Lemma toggleDietaryRestriction_effect c x :
  exec (toggleDietaryRestriction x) c =
    Some (set_dietaryRestrictions
            (if -1 <? JsText.indexOf x (chosen c)
             then delete (Z.to_nat (JsText.indexOf x (chosen c))) (chosen c)
             else chosen c ++ [x]) c, []).
Proof.
  unfold toggleDietaryRestriction, exec, mbind, cmd_bind. rewrite bind_get.
  unfold chosen. destruct (-1 <? _); reflexivity.
Qed.

Lemma chosen_set l c : chosen (set_dietaryRestrictions l c) = l.
Proof. reflexivity. Qed.

Lemma delete_NoDup l k x :
  NoDup l -> l !! k = Some x ->
  NoDup (delete k l) /\ (x ∉ delete k l) /\
  (forall y, y <> x -> (y ∈ delete k l <-> y ∈ l)) /\
  S (length (delete k l)) = length l.
Proof.
  intros Hnd Hk. pose proof (take_drop_middle l k x Hk) as Hsplit.
  rewrite delete_take_drop.
  set (l1 := take k l) in *. set (l2 := drop (S k) l) in *. clearbody l1 l2. subst l.
  apply NoDup_app in Hnd as (Hn1 & Hdisj & Hn2).
  apply NoDup_cons in Hn2 as (Hx & Hn2).
  split_all.
  - apply NoDup_app. split_all; auto.
    intros y Hy Hy'. apply (Hdisj y Hy). right. exact Hy'.
  - intros H. apply elem_of_app in H as [H | H]; [| auto].
    apply (Hdisj x H). left.
  - intros y Hne. rewrite !elem_of_app, elem_of_cons. tauto.
  - rewrite !length_app. cbn. lia.
Qed.

(** X18. Ticking a restriction in a list without duplicates flips whether it
    is selected, leaves every other restriction as it was, keeps the
    list free of duplicates and moves the count by one. *)
Theorem toggleDietaryRestriction_flips c x :
  NoDup (chosen c) ->
  exists c',
    exec (toggleDietaryRestriction x) c = Some (c', []) /\
    isDietaryRestrictionSelected x c' = negb (isDietaryRestrictionSelected x c) /\
    (forall y, y <> x ->
               isDietaryRestrictionSelected y c' = isDietaryRestrictionSelected y c) /\
    NoDup (chosen c') /\
    selectedDietaryCount c' =
      (if isDietaryRestrictionSelected x c
       then selectedDietaryCount c - 1 else selectedDietaryCount c + 1)%nat.
Proof.
  intros Hnd. rewrite toggleDietaryRestriction_effect. eexists. split; [reflexivity |].
  unfold isDietaryRestrictionSelected, selectedDietaryCount.
  cbn [preferences dietaryRestrictions set_dietaryRestrictions]. fold (chosen c).
  destruct (indexOf_spec x (chosen c)) as [(Hr & Hno) | (k & Hr & Hk & _)]; rewrite Hr.
  - change (-1 <? -1) with false. cbn iota.
    assert (JsText.includes x (chosen c) = false) as Hout.
    { apply not_true_iff_false. rewrite includes_elem_of. exact Hno. }
    rewrite Hout. split_all.
    + apply includes_elem_of. apply elem_of_app. right. left.
    + intros y Hne. apply eq_true_iff_eq. rewrite !includes_elem_of, elem_of_app.
      rewrite list_elem_of_singleton. tauto.
    + apply NoDup_app. split_all; [exact Hnd | | apply NoDup_singleton].
      intros y Hy Hy'. apply list_elem_of_singleton in Hy'. subst. auto.
    + rewrite length_app. cbn. lia.
  - assert ((-1 <? Z.of_nat k) = true) as -> by (apply Z.ltb_lt; lia).
    rewrite Nat2Z.id.
    destruct (delete_NoDup (chosen c) k x Hnd Hk) as (Hnd' & Hgone & Hothers & Hlen).
    assert (JsText.includes x (chosen c) = true) as Hin.
    { apply includes_elem_of. apply list_elem_of_lookup. eauto. }
    rewrite Hin. split_all.
    + apply not_true_iff_false. rewrite includes_elem_of. exact Hgone.
    + intros y Hne. apply eq_true_iff_eq. rewrite !includes_elem_of. apply Hothers, Hne.
    + exact Hnd'.
    + lia.
Qed.

Lemma toggleDietaryRestriction_flips_witness :
  exists c',
    exec (toggleDietaryRestriction "Vegan") init = Some (c', []) /\
    isDietaryRestrictionSelected "Vegan" c' = negb (isDietaryRestrictionSelected "Vegan" init) /\
    (forall y, y <> "Vegan" ->
               isDietaryRestrictionSelected y c' = isDietaryRestrictionSelected y init) /\
    NoDup (chosen c') /\
    selectedDietaryCount c' =
      (if isDietaryRestrictionSelected "Vegan" init
       then selectedDietaryCount init - 1 else selectedDietaryCount init + 1)%nat.
Proof. apply (toggleDietaryRestriction_flips init "Vegan"). apply NoDup_nil_2. Defined.

(** X19. Ticking a restriction twice brings back the same selection: the
    very same list when it was not selected, the same restrictions with
    this one moved to the end when it was. *)
Theorem toggleDietaryRestriction_twice c x :
  NoDup (chosen c) ->
  exists c1 c2,
    exec (toggleDietaryRestriction x) c = Some (c1, []) /\
    exec (toggleDietaryRestriction x) c1 = Some (c2, []) /\
    chosen c2 ≡ₚ chosen c /\
    (isDietaryRestrictionSelected x c = false -> chosen c2 = chosen c).
Proof.
  intros Hnd. do 2 eexists. split; [apply toggleDietaryRestriction_effect |].
  split; [apply toggleDietaryRestriction_effect |].
  unfold isDietaryRestrictionSelected. rewrite !chosen_set. fold (chosen c).
  destruct (indexOf_spec x (chosen c)) as [(Hr & Hno) | (k & Hr & Hk & _)]; rewrite Hr;
    try change (-1 <? -1) with false; cbn iota.
  - (* appended, then found again at the end *)
    destruct (indexOf_spec x (chosen c ++ [x])) as [(_ & Hno') | (k & Hr' & Hk & Hfirst)].
    { exfalso. apply Hno'. apply elem_of_app. right. left. }
    assert (k = length (chosen c)) as ->.
    { destruct (decide (k < length (chosen c))%nat) as [Hlt | Hge].
      - rewrite lookup_app_l in Hk by exact Hlt. exfalso. apply Hno.
        apply list_elem_of_lookup. eauto.
      - pose proof (lookup_lt_Some _ _ _ Hk) as Hb. rewrite length_app in Hb. cbn in Hb. lia. }
    rewrite Hr'. assert ((-1 <? Z.of_nat (length (chosen c))) = true) as -> by (apply Z.ltb_lt; lia).
    rewrite Nat2Z.id, delete_take_drop.
    rewrite take_app_length, drop_app_ge by lia.
    replace (S (length (chosen c)) - length (chosen c))%nat with 1%nat by lia.
    cbn. rewrite app_nil_r. split; reflexivity.
  - assert ((-1 <? Z.of_nat k) = true) as -> by (apply Z.ltb_lt; lia).
    rewrite Nat2Z.id.
    destruct (delete_NoDup (chosen c) k x Hnd Hk) as (_ & Hgone & _ & _).
    destruct (indexOf_spec x (delete k (chosen c))) as [(Hr' & _) | (k' & _ & Hk' & _)].
    + rewrite Hr'. cbn. split.
      * rewrite <- (take_drop_middle (chosen c) k x Hk) at 2.
        rewrite delete_take_drop, <- app_assoc.
        apply Permutation_app_head. symmetry. apply Permutation_cons_append.
      * intros Hout. exfalso.
        apply not_true_iff_false in Hout. apply Hout, includes_elem_of.
        apply list_elem_of_lookup. eauto.
    + exfalso. apply Hgone. apply list_elem_of_lookup. eauto.
Qed.

Lemma toggleDietaryRestriction_twice_witness :
  exists c1 c2,
    exec (toggleDietaryRestriction "Vegan") init = Some (c1, []) /\
    exec (toggleDietaryRestriction "Vegan") c1 = Some (c2, []) /\
    chosen c2 ≡ₚ chosen init /\
    (isDietaryRestrictionSelected "Vegan" init = false -> chosen c2 = chosen init).
Proof. apply (toggleDietaryRestriction_twice init "Vegan"). apply NoDup_nil_2. Defined.

End Form.

Section FormSearch.
Import Model Search SearchForm.

Implicit Types (c : SearchComponent) (l : list string) (x : string).

(** *** Manual search *)

Lemma exec_lift {A} (m : Search.M A) c :
  exec (lift m) c =
    match exec m c with
    | Some (c', log) => Some (c', map base log)
    | None => None
    end.
Proof. unfold exec, lift. destruct (m c) as [[[a c'] log] |]; reflexivity. Qed.

Lemma trimStart_blank (l : list ascii) :
  forallb JsText.is_space l = true -> JsText.trimStart l = [].
Proof.
  induction l as [| a l IH]; cbn; [reflexivity |].
  destruct (JsText.is_space a); [exact IH | discriminate].
Qed.

Lemma trimStart_keeps (l : list ascii) :
  forallb JsText.is_space l = false ->
  exists a rest, JsText.trimStart l = a :: rest /\ JsText.is_space a = false.
Proof.
  induction l as [| a l IH]; cbn; [discriminate |].
  destruct (JsText.is_space a) eqn:Ha; [exact IH | eauto].
Qed.

Lemma trim_blank (s : string) : Js.truthy_str (JsText.trim s) = negb (blank s).
Proof.
  unfold JsText.trim, blank.
  destruct (forallb JsText.is_space (list_ascii_of_string s)) eqn:Hall.
  - rewrite (trimStart_blank _ Hall). reflexivity.
  - destruct (trimStart_keeps _ Hall) as (a & rest & -> & Ha).
    destruct (trimStart_keeps (rev (a :: rest))) as (b & rest' & -> & _).
    { cbn [rev]. rewrite forallb_app. cbn. rewrite Ha. apply andb_false_r. }
    cbn [rev]. destruct (rev rest' ++ [b]) as [| d m] eqn:Hrev; [| reflexivity].
    apply app_eq_nil in Hrev as [_ Hrev]. discriminate.
Qed.

Lemma blank_guard (s : string) :
  negb (Js.truthy_str s) || negb (Js.truthy_str (JsText.trim s)) = blank s.
Proof.
  rewrite trim_blank, negb_involutive.
  destruct (blank s) eqn:Hb; [apply orb_true_r |].
  destruct s; [discriminate | reflexivity].
Qed.

(** Whether a place with a [location] is selected. *)
Lemma searchByAddress_effect c lat lng :
  exec (searchByAddress lat lng) c =
    if blank (address c) then
      Some (c, [base (alert "Please select an address from the autocomplete suggestions")])
    else if match selectedPlace c with
            | Some place => match location place with Some _ => true | None => false end
            | None => false
            end
    then Some (set_loading true c,
               [base (onSearch_emit {| Model.address := address c;
                                       latitude := lat; longitude := lng;
                                       Model.preferences := Some (preferences c) |});
                base (setTimeout UnlockInput 1000)])
    else Some (set_loading true c, [geocodeAddress (address c)]).
Proof.
  unfold searchByAddress, exec, mbind, cmd_bind. rewrite bind_get, blank_guard.
  destruct (blank (address c)); [reflexivity |].
  destruct (selectedPlace c) as [place |]; [destruct (location place) |]; reflexivity.
Qed.

(** X15. A manual search with an empty or all-white-space address only
    raises the alert: nothing is requested, nothing is emitted and the
    component is as before. *)
Theorem searchByAddress_blank c lat lng :
  blank (address c) = true ->
  exec (searchByAddress lat lng) c =
    Some (c, [base (alert "Please select an address from the autocomplete suggestions")]).
Proof. intros Hb. rewrite searchByAddress_effect, Hb. reflexivity. Qed.

Lemma searchByAddress_blank_witness :
  exec (searchByAddress Js.Undefined Js.Undefined) (set_address "   " init) =
    Some (set_address "   " init,
          [base (alert "Please select an address from the autocomplete suggestions")]).
Proof. apply searchByAddress_blank. reflexivity. Defined.

(** X16. A manual search with a real address and no selected place asks the
    geocoder and locks the form.  The geocoder's answer is emitted as
    one search request for the typed address; its failure raises an
    alert, unlocks the form and emits nothing. *)
Theorem searchByAddress_geocodes c lat lng :
  blank (address c) = false ->
  selectedPlace c = None ->
  exists c1,
    exec (searchByAddress lat lng) c = Some (c1, [geocodeAddress (address c)]) /\
    loading c1 = true /\
    (forall latitude longitude,
        exec (searchByAddress_next latitude longitude) c1 =
          Some (c1, [base (onSearch_emit {| Model.address := address c;
                                            Model.latitude := latitude;
                                            Model.longitude := longitude;
                                            Model.preferences := Some (preferences c) |});
                     base (setTimeout UnlockInput 1000)])) /\
    exists c2,
      exec searchByAddress_error c1 =
        Some (c2, [base (alert "Unable to find location. Please check your address.")]) /\
      loading c2 = false.
Proof.
  intros Hb Hplace. rewrite searchByAddress_effect, Hb, Hplace.
  eexists. split; [reflexivity |]. split; [reflexivity |]. split.
  - intros latitude longitude. reflexivity.
  - eexists. split; reflexivity.
Qed.

Lemma searchByAddress_geocodes_witness :
  exists c1,
    exec (searchByAddress Js.Undefined Js.Undefined) (set_address "12 Main St" init)
      = Some (c1, [geocodeAddress "12 Main St"]) /\
    loading c1 = true.
Proof.
  destruct (searchByAddress_geocodes (set_address "12 Main St" init) Js.Undefined Js.Undefined)
    as (c1 & H1 & H2 & _); [reflexivity | reflexivity |].
  exists c1. split; assumption.
Defined.

(** X17. A manual search with a real address and a selected place that has a
    [location] never asks the geocoder: it emits one search request for
    the typed address and arms the timer that unlocks the form. *)
Theorem searchByAddress_selected_place c place lat lng :
  blank (address c) = false ->
  selectedPlace c = Some place ->
  location place <> None ->
  exists c1 req,
    exec (searchByAddress lat lng) c =
      Some (c1, [base (onSearch_emit req); base (setTimeout UnlockInput 1000)]) /\
    Model.address req = address c /\
    Model.latitude req = lat /\ Model.longitude req = lng /\
    loading c1 = true /\
    exec (timer_fired UnlockInput) c1 = Some (set_loading false c1, []).
Proof.
  intros Hb Hplace Hloc. rewrite searchByAddress_effect, Hb, Hplace.
  destruct (location place); [| congruence].
  do 2 eexists. split; [reflexivity |]. repeat split.
Qed.

Lemma searchByAddress_selected_place_witness :
  exists c1 req,
    exec (searchByAddress Js.Undefined Js.Undefined)
         (set_selectedPlace (Some broadway) (set_address "Broadway" init)) =
      Some (c1, [base (onSearch_emit req); base (setTimeout UnlockInput 1000)]) /\
    Model.address req = "Broadway" /\
    Model.latitude req = Js.Undefined /\ Model.longitude req = Js.Undefined /\
    loading c1 = true /\
    exec (timer_fired UnlockInput) c1 = Some (set_loading false c1, []).
Proof.
  apply (searchByAddress_selected_place
           (set_selectedPlace (Some broadway) (set_address "Broadway" init)) broadway);
    [reflexivity | reflexivity | discriminate].
Defined.

(** *** Place selection *)

(** X12. A resolved place with no location, or with a latitude or longitude
    that is 0, NaN or missing, is refused: the alert is raised, no
    search is emitted and the form is not locked.  The place is kept as
    the selected one all the same. *)
Theorem handlePlaceSelection_refuses c place :
  match location place with
  | Some (lat, lng) => Js.truthy lat = false \/ Js.truthy lng = false
  | None => True
  end ->
  exec (handlePlaceSelection place) c =
    Some (set_selectedPlace (Some place) c,
          [alert "Could not retrieve location coordinates for this place."]).
Proof.
  intros H. unfold handlePlaceSelection, exec, mbind, cmd_bind. rewrite bind_modify.
  destruct (location place) as [[lat lng] |].
  - assert (Js.truthy lat && Js.truthy lng = false) as ->; [| reflexivity].
    destruct H as [-> | ->]; [reflexivity | apply andb_false_r].
  - reflexivity.
Qed.

Lemma handlePlaceSelection_refuses_witness :
  exec (handlePlaceSelection quito) init =
    Some (set_selectedPlace (Some quito) init,
          [alert "Could not retrieve location coordinates for this place."]).
Proof. apply handlePlaceSelection_refuses. left. reflexivity. Defined.

(** X13. A resolved place with usable coordinates starts a search at once:
    one request with these coordinates and the formatted address (the
    typed text when the place has none), the form locked, and the
    timer that unlocks it armed. *)
Theorem handlePlaceSelection_searches c place lat lng :
  location place = Some (lat, lng) ->
  Js.truthy lat = true ->
  Js.truthy lng = true ->
  exists c' req,
    exec (handlePlaceSelection place) c =
      Some (c', [onSearch_emit req; setTimeout UnlockInput 1000]) /\
    Model.latitude req = lat /\ Model.longitude req = lng /\
    Model.address req = Js.or_str (formattedAddress place) (address c) /\
    Model.preferences req = Some (preferences c) /\
    loading c' = true /\ selectedPlace c' = Some place /\
    exec (timer_fired UnlockInput) c' = Some (set_loading false c', []).
Proof.
  intros Hloc Hlat Hlng. unfold handlePlaceSelection, exec, mbind, cmd_bind.
  rewrite bind_modify, Hloc, Hlat, Hlng. do 2 eexists. split; [reflexivity |]. repeat split.
Qed.

Lemma handlePlaceSelection_searches_witness :
  exists c' req,
    exec (handlePlaceSelection broadway) (set_address "Broadway" init) =
      Some (c', [onSearch_emit req; setTimeout UnlockInput 1000]) /\
    Model.latitude req = Js.Num (Js.Fin (407 # 10)) /\
    Model.longitude req = Js.Num (Js.Fin (-74)) /\
    Model.address req = "Broadway" /\
    Model.preferences req = Some (preferences (set_address "Broadway" init)) /\
    loading c' = true /\ selectedPlace c' = Some broadway /\
    exec (timer_fired UnlockInput) c' = Some (set_loading false c', []).
Proof.
  apply (handlePlaceSelection_searches (set_address "Broadway" init) broadway);
    reflexivity.
Defined.

(** X11. After a place was resolved the next prediction request carries the
    fresh session token, also when the place was refused. *)
Theorem selectPrediction_next_renews_token c place uuid query :
  (3 <= String.length query)%nat ->
  exists c1 log,
    exec (selectPrediction_next place uuid) c = Some (c1, log) /\
    sessionToken c1 = Some uuid /\
    exec (fetchPredictions query) c1 =
      Some (set_errorMessage "" c1, [getAutocompletePredictions query (Some uuid)]).
Proof.
  intros Hlen.
  assert (exists c1 log, exec (selectPrediction_next place uuid) c = Some (c1, log) /\
                         sessionToken c1 = Some uuid) as (c1 & log & Hex & Htok).
  { unfold selectPrediction_next, handlePlaceSelection, exec, mbind, cmd_bind.
    destruct (location place) as [[lat lng] |]; cbn;
      [destruct (Js.truthy lat && Js.truthy lng) |]; cbn; eauto. }
  exists c1, log. split; [exact Hex |]. split; [exact Htok |].
  rewrite fetchPredictions_long_query by exact Hlen. rewrite Htok. reflexivity.
Qed.

Lemma selectPrediction_next_renews_token_witness :
  exists c1 log,
    exec (selectPrediction_next quito "t-2") init = Some (c1, log) /\
    sessionToken c1 = Some "t-2" /\
    exec (fetchPredictions "Joe") c1 =
      Some (set_errorMessage "" c1, [getAutocompletePredictions "Joe" (Some "t-2")]).
Proof. apply selectPrediction_next_renews_token. cbn. lia. Defined.

(** *** Current location *)

(** X14. [useCurrentLocation] on any browser, with or without geolocation,
    ends in exactly one of two ways: one search request for the address
    [Current Location] with the position found, or one alert with the
    form unlocked.  Never both, never neither. *)
Theorem locate_outcome (geolocation : option Location.Geolocation) c :
  (exists position c',
      notifications geolocation = [Location.Next position; Location.Complete] /\
      exec (locate geolocation) c =
        Some (c', [getCurrentPosition;
                   onSearch_emit {| Model.address := "Current Location";
                                    latitude := Location.latitude position;
                                    longitude := Location.longitude position;
                                    Model.preferences := Some (preferences c) |};
                   setTimeout UnlockInput 1000]) /\
      loading c' = true /\
      exec (timer_fired UnlockInput) c' = Some (set_loading false c', [])) \/
  (exists failure msg c',
      notifications geolocation = [Location.Error failure] /\
      exec (locate geolocation) c = Some (c', [getCurrentPosition; alert msg]) /\
      loading c' = false).
Proof.
  unfold locate, notifications, Location.getCurrentPosition.
  destruct geolocation as [api |].
  - destruct (api Location.highAccuracyOptions) as [position | error].
    + left. do 2 eexists. repeat split.
    + destruct (Location.code error =? 1).
      * right. do 3 eexists. repeat split.
      * destruct (api Location.lowAccuracyOptions) as [position | fallbackError].
        -- left. do 2 eexists. repeat split.
        -- right. do 3 eexists. repeat split.
  - right. do 3 eexists. repeat split.
Qed.

End FormSearch.

Section FormInvariants.
Import Model Search SearchForm.

Implicit Types (c : SearchComponent) (l : list string) (x : string).

(** *** What the debounced subscription sends *)

Lemma fetchPredictions_cases c query :
  exists c1 log,
    fetchPredictions query c = Some (tt, c1, log) /\
    sessionToken c1 = sessionToken c /\
    (log = [] \/
     (log = [getAutocompletePredictions query (sessionToken c)] /\
      (3 <= String.length query)%nat)).
Proof.
  unfold fetchPredictions, mbind, cmd_bind. rewrite bind_modify.
  destruct (negb (Js.truthy_str query)) eqn:Hempty; cbn [orb].
  - do 2 eexists. split; [reflexivity |]. split; [reflexivity | left; reflexivity].
  - destruct (String.length query <? 3)%nat eqn:Hlen.
    + do 2 eexists. split; [reflexivity |]. split; [reflexivity | left; reflexivity].
    + apply Nat.ltb_ge in Hlen.
      do 2 eexists. split; [reflexivity |]. split; [reflexivity |]. right. auto.
Qed.

Lemma fetch_each (subs : list (N * string)) : forall c,
  exists c' log,
    exec (foldr (fun query rest => fetchPredictions query.2 ;; rest) skip subs) c
      = Some (c', log) /\
    sessionToken c' = sessionToken c /\
    (length log <= length subs)%nat /\
    Forall (fun request =>
              exists sent, sent ∈ subs /\
                request = getAutocompletePredictions sent.2 (sessionToken c) /\
                (3 <= String.length sent.2)%nat) log.
Proof.
  unfold mbind, cmd_bind.
  induction subs as [| sub subs IH]; intros c; cbn [foldr].
  - do 2 eexists. split; [reflexivity |]. split_all; auto.
  - rewrite exec_bind.
    destruct (fetchPredictions_cases c sub.2) as (c1 & log1 & -> & Htok1 & Hlog1).
    destruct (IH c1) as (c2 & log2 & -> & Htok2 & Hlen2 & Hall2).
    do 2 eexists. split; [reflexivity |]. split; [congruence |].
    assert (Forall (fun request =>
              exists sent, sent ∈ sub :: subs /\
                request = getAutocompletePredictions sent.2 (sessionToken c) /\
                (3 <= String.length sent.2)%nat) log2) as Hall2'.
    { eapply Forall_impl; [exact Hall2 |]. cbn. intros request (sent & Hin & Hreq & Hlen).
      exists sent. rewrite <- Htok1. split_all; auto. right. exact Hin. }
    destruct Hlog1 as [-> | (-> & Hlen1)]; cbn [app length].
    + split; [lia | exact Hall2'].
    + split; [lia |]. constructor; [| exact Hall2'].
      exists sub. split_all; auto. left.
Qed.

Lemma distinctUntilChanged_length input : forall prev,
  (length (Rx.distinctUntilChanged prev input) <= length input)%nat.
Proof.
  induction input as [| [t v] input IH]; intros prev; cbn; [lia |].
  destruct (match prev with Some p => (p =? v)%string | None => false end); cbn.
  - specialize (IH prev). lia.
  - specialize (IH (Some v)). lia.
Qed.

Lemma debounceTime_length due (ks : list (N * string)) horizon : forall d,
  (length (Rx.debounceTime due ks horizon d) <=
   length ks + match Rx.lastValue d with Some _ => 1 | None => 0 end)%nat.
Proof.
  induction ks as [| [t v] ks IH]; intros d; cbn [Rx.debounceTime length].
  - unfold Rx.advance. destruct (Rx.lastValue d); [| cbn; lia].
    destruct (_ <=? _)%N; cbn; lia.
  - unfold Rx.receive, Rx.advance.
    specialize (IH {| Rx.lastValue := Some v; Rx.lastTime := t |}). cbn in IH.
    destruct (Rx.lastValue d); [destruct (_ <=? _)%N |]; rewrite length_app; cbn; lia.
Qed.

(** X7. Whatever is typed and whenever, the debounced subscription sends
    prediction requests only for submitted values of three characters
    or more, each with the session token the component holds, at most
    one per keystroke; it never throws and leaves the token alone. *)
Theorem ngOnInit_subscription_requests (ks : list (N * string)) (horizon : N) c :
  exists c' log,
    exec (ngOnInit_subscription ks horizon) c = Some (c', log) /\
    sessionToken c' = sessionToken c /\
    (length log <= length ks)%nat /\
    Forall (fun request =>
              exists sent, sent ∈ submitted ks horizon /\
                request = getAutocompletePredictions sent.2 (sessionToken c) /\
                (3 <= String.length sent.2)%nat) log.
Proof.
  unfold ngOnInit_subscription.
  destruct (fetch_each (submitted ks horizon) c) as (c' & log & Hex & Htok & Hlen & Hall).
  exists c', log. split_all; auto.
  pose proof (distinctUntilChanged_length (Rx.debounceTime 300 ks horizon Rx.idle) None) as H1.
  pose proof (debounceTime_length 300 ks horizon Rx.idle) as H2. cbn in H2.
  unfold submitted in Hlen. lia.
Qed.

(** *** Invariants of the component *)

Lemma toggled_NoDup l x :
  NoDup l ->
  NoDup (if -1 <? JsText.indexOf x l
         then delete (Z.to_nat (JsText.indexOf x l)) l
         else l ++ [x]).
Proof.
  intros Hnd. destruct (indexOf_spec x l) as [(Hr & Hno) | (k & Hr & Hk & _)]; rewrite Hr.
  - change (-1 <? -1) with false. cbn iota.
    apply NoDup_app. split_all; [exact Hnd | | apply NoDup_singleton].
    intros y Hy Hy'. apply list_elem_of_singleton in Hy'. subst. auto.
  - assert ((-1 <? Z.of_nat k) = true) as -> by (apply Z.ltb_lt; lia).
    rewrite Nat2Z.id. apply (delete_NoDup l k x Hnd Hk).
Qed.

Lemma perform_chosen act c c' log :
  exec (perform act) c = Some (c', log) -> chosen c' = chosen c.
Proof.
  assert (forall c0 log0, Some (c0, log0) = Some (c', log) ->
                        preferences c0 = preferences c ->
                        chosen c' = chosen c) as Hsame.
  { intros c0 log0 [= <- <-] Hp. unfold chosen. rewrite Hp. reflexivity. }
  destruct act; cbn [perform];
    try (intros H; apply (Hsame _ _ H); reflexivity).
  - unfold onKeydown, exec, mbind, cmd_bind. rewrite bind_get.
    destruct (negb (showPredictions c) || (length (predictions c) =? 0)%nat);
      [intros H; apply (Hsame _ _ H); reflexivity |].
    destruct (key =? "ArrowDown")%string; [intros H; apply (Hsame _ _ H); reflexivity |].
    destruct (key =? "ArrowUp")%string; [intros H; apply (Hsame _ _ H); reflexivity |].
    destruct (key =? "Enter")%string.
    + destruct (0 <=? activePredictionIndex c);
        [| intros H; apply (Hsame _ _ H); reflexivity].
      destruct (predictions c !! Z.to_nat (activePredictionIndex c)); [| discriminate].
      intros H. apply (Hsame _ _ H). reflexivity.
    + destruct (key =? "Escape")%string; intros H; apply (Hsame _ _ H); reflexivity.
  - unfold fetchPredictions, exec, mbind, cmd_bind. rewrite bind_modify.
    destruct (negb (Js.truthy_str query) || (String.length query <? 3)%nat);
      intros H; apply (Hsame _ _ H); reflexivity.
  - unfold selectPrediction_next, handlePlaceSelection, exec, mbind, cmd_bind.
    destruct (Js.truthy _ && Js.truthy _); cbn;
      intros H; apply (Hsame _ _ H); reflexivity.
  - destruct t; intros H; apply (Hsame _ _ H); reflexivity.
  - destruct event; intros [= <- <-]; reflexivity.
Qed.

Lemma perform_form_frame act c c' log :
  exec (perform_form act) c = Some (c', log) ->
  activePredictionIndex c' = activePredictionIndex c /\
  predictions c' = predictions c /\
  (NoDup (chosen c) -> NoDup (chosen c')).
Proof.
  destruct act; cbn [perform_form].
  - rewrite exec_lift. cbn. intros [= <- <-]. auto.
  - rewrite exec_lift, toggleDietaryRestriction_effect. cbn [map]. intros [= <- <-].
    split_all; auto. intros Hnd. rewrite chosen_set. apply toggled_NoDup, Hnd.
  - rewrite searchByAddress_effect.
    destruct (blank _);
      [| destruct (selectedPlace c) as [place |]; [destruct (location place) |]];
      intros [= <- <-]; auto.
  - intros [= <- <-]. auto.
  - intros [= <- <-]. auto.
Qed.

Lemma reaches_invariant c : reaches c -> index_in_range c /\ NoDup (chosen c).
Proof.
  induction 1 as [| c act c' log _ [IHi IHn] Hstep | c act c' log _ [IHi IHn] Hstep].
  - split; [apply index_in_range_init | apply NoDup_nil_2].
  - split; [apply (perform_index_in_range act c c' log IHi Hstep) |].
    rewrite (perform_chosen act c c' log Hstep). exact IHn.
  - destruct (perform_form_frame act c c' log Hstep) as (Hi & Hp & Hn).
    split; [| auto]. unfold index_in_range, count in *. rewrite Hi, Hp. exact IHi.
Qed.

(** X9. In no state the component can reach does a key press throw: when
    Enter finds an active index, a prediction is there to select. *)
Theorem onKeydown_never_throws c key :
  reaches c -> exec (onKeydown key) c <> None.
Proof.
  intros Hreach. destruct (reaches_invariant c Hreach) as [[Hlow Hhigh] _].
  unfold onKeydown, exec, mbind, cmd_bind. rewrite bind_get.
  destruct (negb (showPredictions c) || (length (predictions c) =? 0)%nat) eqn:Hguard;
    [discriminate |].
  destruct (key =? "ArrowDown")%string; [discriminate |].
  destruct (key =? "ArrowUp")%string; [discriminate |].
  destruct (key =? "Enter")%string; [| destruct (key =? "Escape")%string; discriminate].
  destruct (0 <=? activePredictionIndex c) eqn:Hpos; [| discriminate].
  apply Z.leb_le in Hpos.
  destruct Hhigh as [Hnil | Hhigh].
  { rewrite Hnil in Hguard. cbn in Hguard. rewrite orb_true_r in Hguard. discriminate. }
  destruct (lookup_lt_is_Some_2 (predictions c) (Z.to_nat (activePredictionIndex c)))
    as [prediction ->]; [unfold count in Hhigh; lia |].
  discriminate.
Qed.

Lemma onKeydown_never_throws_witness :
  exec (onKeydown "Enter") first_joe <> None.
Proof.
  apply onKeydown_never_throws.
  apply (reaches_action listed_joes (Keydown "ArrowDown") first_joe [preventDefault]);
    [| reflexivity].
  apply (reaches_action init (PredictionsNext joes) listed_joes []); [| reflexivity].
  apply reaches_init.
Defined.

(** X20. In no state the component can reach does the list of ticked
    dietary restrictions hold one restriction twice, so the count shown
    is the number of distinct restrictions selected. *)
Theorem dietaryRestrictions_never_duplicated c :
  reaches c ->
  NoDup (chosen c) /\
  forall x, isDietaryRestrictionSelected x c = true ->
            exists k, chosen c !! k = Some x /\
                      forall j, chosen c !! j = Some x -> j = k.
Proof.
  intros Hreach. destruct (reaches_invariant c Hreach) as [_ Hnd].
  split; [exact Hnd |]. intros x Hsel.
  apply includes_elem_of, list_elem_of_lookup in Hsel as [k Hk].
  exists k. split; [exact Hk |]. intros j Hj.
  apply (NoDup_lookup _ _ _ _ Hnd Hj Hk).
Qed.

Lemma dietaryRestrictions_never_duplicated_witness :
  NoDup (chosen (set_dietaryRestrictions ["Vegan"] init)) /\
  forall x, isDietaryRestrictionSelected x (set_dietaryRestrictions ["Vegan"] init) = true ->
            exists k, chosen (set_dietaryRestrictions ["Vegan"] init) !! k = Some x /\
                      forall j, chosen (set_dietaryRestrictions ["Vegan"] init) !! j = Some x ->
                                j = k.
Proof.
  apply dietaryRestrictions_never_duplicated.
  apply (reaches_form init (Toggle "Vegan") (set_dietaryRestrictions ["Vegan"] init) []);
    [| reflexivity].
  apply reaches_init.
Defined.

End FormInvariants.

(** ** More on the autocomplete controller *)

Section Arrows.
Import Model Search.

Implicit Types (c : SearchComponent).

Lemma set_activePredictionIndex_same c i :
  activePredictionIndex c = i -> set_activePredictionIndex i c = c.
Proof. intros <-. destruct c. reflexivity. Qed.

(** X10. With a prediction highlighted, ArrowDown and ArrowUp undo each
    other, in either order: the component is exactly as before. *)
Theorem onKeydown_arrows_inverse c :
  visible c ->
  0 <= activePredictionIndex c < count c ->
  (exists c1, exec (onKeydown "ArrowDown") c = Some (c1, [preventDefault]) /\
              exec (onKeydown "ArrowUp") c1 = Some (c, [preventDefault])) /\
  (exists c1, exec (onKeydown "ArrowUp") c = Some (c1, [preventDefault]) /\
              exec (onKeydown "ArrowDown") c1 = Some (c, [preventDefault])).
Proof.
  intros Hv Hi. pose proof (visible_count c Hv) as Hk.
  destruct Hv as [Hshow Hne].
  split; eexists.
  - rewrite onKeydown_ArrowDown by (split; assumption). split; [reflexivity |].
    rewrite onKeydown_ArrowUp by (split; assumption).
    cbn [activePredictionIndex set_activePredictionIndex].
    change (count (set_activePredictionIndex _ c)) with (count c).
    rewrite (rem_down _ _ Hk) by lia.
    rewrite (rem_up _ _ Hk) by (pose proof (Z.mod_pos_bound (activePredictionIndex c + 1) (count c)); lia).
    rewrite Zminus_mod_idemp_l.
    replace (activePredictionIndex c + 1 - 1) with (activePredictionIndex c) by lia.
    rewrite Z.mod_small by lia.
    do 2 f_equal. destruct c. reflexivity.
  - rewrite onKeydown_ArrowUp by (split; assumption). split; [reflexivity |].
    rewrite onKeydown_ArrowDown by (split; assumption).
    cbn [activePredictionIndex set_activePredictionIndex].
    change (count (set_activePredictionIndex _ c)) with (count c).
    rewrite (rem_up _ _ Hk) by lia.
    rewrite (rem_down _ _ Hk) by (pose proof (Z.mod_pos_bound (activePredictionIndex c - 1) (count c)); lia).
    rewrite Zplus_mod_idemp_l.
    replace (activePredictionIndex c - 1 + 1) with (activePredictionIndex c) by lia.
    rewrite Z.mod_small by lia.
    do 2 f_equal. destruct c. reflexivity.
Qed.

Lemma onKeydown_arrows_inverse_witness :
  (exists c1, exec (onKeydown "ArrowDown") (joes_at 2) = Some (c1, [preventDefault]) /\
              exec (onKeydown "ArrowUp") c1 = Some (joes_at 2, [preventDefault])) /\
  (exists c1, exec (onKeydown "ArrowUp") (joes_at 2) = Some (c1, [preventDefault]) /\
              exec (onKeydown "ArrowDown") c1 = Some (joes_at 2, [preventDefault])).
Proof.
  apply (onKeydown_arrows_inverse (joes_at 2)).
  - split; [reflexivity | discriminate].
  - vm_compute. split; [discriminate | reflexivity].
Defined.

Lemma reachable_visible_range_witness :
  -1 <= activePredictionIndex listed_joes < count listed_joes.
Proof.
  apply (reachable_visible_range listed_joes).
  - apply (reachable_step init (PredictionsNext joes) listed_joes []); [| reflexivity].
    apply reachable_init.
  - split; [reflexivity | discriminate].
Defined.

Lemma debounceTime_emits_witness :
  ((200 + 300)%N, "Joe") ∈
    Rx.debounceTime 300 ([(0%N, "J"); (100%N, "Jo")] ++ (200%N, "Joe")
                           :: [(1000%N, "Joes"); (1100%N, "Joe")]) 5000 Rx.idle.
Proof.
  apply (debounceTime_emits 300 [(0%N, "J"); (100%N, "Jo")] 200 "Joe"
           [(1000%N, "Joes"); (1100%N, "Joe")] 5000 Rx.idle).
  - repeat constructor; cbn; lia.
  - lia.
Defined.

End Arrows.

(** ** More on the search orchestrator *)

Section Cycle.
Import Model Main.

Implicit Types (a : App) (s : State) (req : SearchRequest) (e : Event).

(** *** The message cycle *)

(** X4. While the recommendation request is out the status text goes round
    the four phrases: after [k] ticks it is phrase [k mod 4], no call
    was made, and the interval is still running. *)
Theorem messageCycle_rotates a req (k : nat) :
  exists s,
    search_then req (replicate k Tick) a = Some (s, search_calls req) /\
    loadingMessage (app s) = default "" (messages !! Nat.modulo k 4) /\
    loading (app s) = true /\
    restaurants (app s) = [] /\
    exec (deliver Tick) s <> None.
Proof.
  rewrite search_then_run.
  change (searching a req) with (cycling a req 0).
  rewrite cycling_ticks by lia. cbn [Nat.add].
  eexists. split; [reflexivity |]. split_all; try reflexivity.
  rewrite cycling_tick by (apply Nat.mod_upper_bound; lia). discriminate.
Qed.

Lemma finalizing_tick s i :
  messageInterval s = Some i ->
  loadingMessage (app s) = "Finalizing your personalized menu..." ->
  exec (deliver Tick) s = Some (set_messageInterval (Some (Nat.modulo (i + 1) 4)) s, []).
Proof.
  intros Hi Hmsg. unfold exec, deliver, mbind, cmd_bind. rewrite bind_get, Hi.
  unfold messageCycle_tick, mbind, cmd_bind. rewrite bind_modify. rewrite bind_get.
  cbn [app set_messageInterval loadingMessage]. rewrite Hmsg. reflexivity.
Qed.

Lemma finalizing_ticks k : forall s i,
  messageInterval s = Some i ->
  loadingMessage (app s) = "Finalizing your personalized menu..." ->
  exists j, run (replicate k Tick) s = Some (set_messageInterval (Some j) s, []).
Proof.
  induction k as [| k IH]; intros s i Hi Hmsg; cbn [replicate run].
  - exists i. rewrite <- Hi. destruct s; reflexivity.
  - rewrite (finalizing_tick s i Hi Hmsg).
    destruct (IH (set_messageInterval (Some (Nat.modulo (i + 1) 4)) s) (Nat.modulo (i + 1) 4))
      as [j ->]; try reflexivity; try exact Hmsg.
    exists j. reflexivity.
Qed.

Lemma cycling_empty a req i :
  exec (deliver (RecommendationsNext [])) (cycling a req i) = Some (stalled a req i, []).
Proof. reflexivity. Qed.

Lemma cycling_dispatch a req i fetched :
  fetched <> [] ->
  exec (deliver (RecommendationsNext fetched)) (cycling a req i) =
    Some (set_messageInterval (Some i) (dispatched a req fetched), batch_requests fetched).
Proof.
  intros Hne. set (n := length fetched).
  assert (0 < n)%nat as Hn by (subst n; destruct fetched; [congruence | cbn; lia]).
  unfold deliver, mbind, cmd_bind. rewrite exec_bind. cbn [get cycling awaitingRecommendations].
  unfold handleSearch_next, mbind, cmd_bind. fold n.
  unfold Rx.subscribe.
  destruct (n + n =? 0)%nat eqn:Hz; [apply Nat.eqb_eq in Hz; lia |].
  do 5 (rewrite exec_bind; cbn [modify]).
  cbn [notify foldr]. rewrite exec_bind. cbn [skip ret].
  rewrite exec_bind.
  match goal with |- context [subscribe_each _ 0 fetched ?st] => set (s0 := st) end.
  pose proof (subscribe_summaries fetched 0 s0) as Hsum. unfold exec in Hsum.
  destruct (subscribe_each _ 0 fetched s0) as [[[u s1] l1] |]; [| discriminate].
  injection Hsum as -> ->.
  rewrite (subscribe_images n fetched 0 (replicate n None) s0).
  - reflexivity.
  - rewrite length_replicate. lia.
  - rewrite unset_replicate. exact Hn.
  - subst s0. cbn [join set_join]. rewrite replicate_add. reflexivity.
Qed.

(** X5. After the answer the text is the finalizing phrase and ticks leave
    it alone, although the interval keeps running (it is cleared only
    when the last task is in). *)
Theorem messageCycle_frozen a req (fetched : list Restaurant) (j k : nat) :
  exists s,
    search_then req (replicate j Tick ++ RecommendationsNext fetched :: replicate k Tick) a =
      Some (s, search_calls req ++ batch_requests fetched) /\
    loadingMessage (app s) = "Finalizing your personalized menu..." /\
    messageInterval s <> None /\
    results s = fetched /\
    loading (app s) = true /\
    restaurants (app s) = [].
Proof.
  rewrite search_then_run, run_app.
  change (searching a req) with (cycling a req 0).
  rewrite cycling_ticks by lia. cbn [Nat.add run].
  destruct fetched as [| r fetched].
  - rewrite cycling_empty.
    destruct (finalizing_ticks k (stalled a req (Nat.modulo j 4)) _ eq_refl eq_refl) as [i ->].
    eexists. split_all; try reflexivity. discriminate.
  - rewrite cycling_dispatch by discriminate.
    destruct (finalizing_ticks k
                (set_messageInterval (Some (Nat.modulo j 4)) (dispatched a req (r :: fetched)))
                _ eq_refl eq_refl) as [i ->].
    rewrite app_nil_r.
    eexists. split; [reflexivity |]. split_all; try reflexivity. discriminate.
Qed.

(** *** The whole operation, with ticks before the answer *)

Lemma enriching_at n s i : enriching n s -> enriching n (set_messageInterval (Some i) s).
Proof. intros [? ? ? ? ? ? ?]. constructor; cbn; auto. Qed.

(** X1. For a fetch that returned [n >= 1] restaurants after any number of
    ticks, and any events that follow: one summary request per
    restaurant and one image load per photo are sent; until the last
    task response nothing is shown and the reveal timer is not armed;
    the last response arms the 1500 ms timer; the timer shows the [n]
    restaurants and turns loading off.  A restaurant whose summary
    arrived carries it, any other one is as the backend sent it. *)
Theorem handleSearch_enriches a req (k : nat) fetched es s log :
  fetched <> [] ->
  search_then req (replicate k Tick ++ RecommendationsNext fetched :: es) a = Some (s, log) ->
  let n := length fetched in
  let tasks_out := (n + photos fetched)%nat in
  (((settlements es < tasks_out)%nat /\ enriching n s /\
    log = search_calls req ++ batch_requests fetched) \/
   (settlements es = tasks_out /\ settled n s /\
    log = search_calls req ++ batch_requests fetched ++ reveal_calls) \/
   (settlements es = tasks_out /\ revealed n s /\
    log = search_calls req ++ batch_requests fetched ++ reveal_calls /\
    exists es', es = es' ++ [RevealTimeout])) /\
  (forall i r,
      fetched !! i = Some r ->
      (forall summary,
          SummaryNext i summary ∈ es ->
          results s !! i = Some (Model.set_aiSummary (Some summary) r)) /\
      ((forall summary, SummaryNext i summary ∉ es) -> results s !! i = Some r)).
Proof.
  intros Hne. rewrite search_then_run, run_app.
  change (searching a req) with (cycling a req 0).
  rewrite cycling_ticks by lia. cbn [Nat.add run].
  rewrite (cycling_dispatch a req _ fetched Hne).
  set (s0 := set_messageInterval _ _).
  destruct (run es s0) as [[s2 l2] |] eqn:Hrun; [| discriminate].
  intros [= <- <-].
  pose proof (enriching_at _ _ (Nat.modulo k 4) (dispatched_enriching a req fetched Hne)) as Hen.
  fold s0 in Hen.
  assert (unsettled s0 = (length fetched + photos fetched)%nat) as Hun
    by apply (dispatched_unsettled a req fetched).
  split.
  - destruct (fan_in _ es _ _ _ Hen Hrun)
      as [(Hen2 & Hcount & ->) | [(Hst & Hcount & ->) | (Hrev & Hcount & -> & Hlast)]].
    + left. pose proof (enriching_unsettled _ _ Hen2).
      split_all; auto; [lia |]. rewrite app_nil_r. reflexivity.
    + right. left. split_all; auto. lia.
    + right. right. split_all; auto. lia.
  - intros i r Hi.
    destruct (run_annotated es s0 s2 l2 i eq_refl Hrun) as (Hyes & Hno).
    subst s0. cbn [results dispatched set_messageInterval] in Hyes, Hno.
    rewrite Hi in Hyes, Hno. exact (conj Hyes Hno).
Qed.

Lemma handleSearch_enriches_witness :
  let s := set_messageInterval (Some 2%nat) (dispatched init downtown [gino]) in
  (((0 < 1 + photos [gino])%nat /\ enriching 1 s /\
    search_calls downtown ++ batch_requests [gino] ++ [] =
      search_calls downtown ++ batch_requests [gino]) \/
   (0%nat = (1 + photos [gino])%nat /\ settled 1 s /\
    search_calls downtown ++ batch_requests [gino] ++ [] =
      search_calls downtown ++ batch_requests [gino] ++ reveal_calls) \/
   (0%nat = (1 + photos [gino])%nat /\ revealed 1 s /\
    search_calls downtown ++ batch_requests [gino] ++ [] =
      search_calls downtown ++ batch_requests [gino] ++ reveal_calls /\
    exists es', [] = es' ++ [RevealTimeout])) /\
  (forall i r,
      [gino] !! i = Some r ->
      (forall summary,
          SummaryNext i summary ∈ [] ->
          results s !! i = Some (Model.set_aiSummary (Some summary) r)) /\
      ((forall summary, SummaryNext i summary ∉ []) -> results s !! i = Some r)).
Proof.
  apply (handleSearch_enriches init downtown 2 [gino] []).
  - discriminate.
  - reflexivity.
Defined.

(** *** What is on screen, whatever happens *)

Lemma task_settles_shown s k v s' log :
  exec (task_settles k v) s = Some (s', log) ->
  started (app s') = started (app s) /\
  lastSearchRequest (app s') = lastSearchRequest (app s).
Proof.
  destruct (join s) as [[values |] |] eqn:Hjoin.
  - rewrite (task_settles_waiting s values k v Hjoin).
    destruct (Rx.collected _); intros [= <- <-]; cbn; auto.
  - destruct (task_settles_other s k v) as (s1 & Hex & Happ & _).
    { intros values. rewrite Hjoin. discriminate. }
    rewrite Hex. intros [= <- <-]. rewrite Happ. auto.
  - destruct (task_settles_other s k v) as (s1 & Hex & Happ & _).
    { intros values. rewrite Hjoin. discriminate. }
    rewrite Hex. intros [= <- <-]. rewrite Happ. auto.
Qed.

Lemma deliver_request s e s' log :
  awaitingRecommendations s = false ->
  exec (deliver e) s = Some (s', log) ->
  awaitingRecommendations s' = false /\
  started (app s') = started (app s) /\
  lastSearchRequest (app s') = lastSearchRequest (app s).
Proof.
  intros Haw Hstep.
  destruct (deliver_frame s e s' log Haw Hstep) as (Haw' & _).
  split; [exact Haw' |]. revert Hstep.
  unfold exec at 1, deliver, mbind, cmd_bind. rewrite bind_get, Haw.
  destruct e as [| fetched | detail | i sum | i | i | i |]; try discriminate.
  - destruct (messageInterval s) as [index |]; [| discriminate].
    unfold messageCycle_tick, mbind, cmd_bind.
    rewrite bind_modify. rewrite bind_get.
    match goal with |- context [if ?b then _ else _] => destruct b end;
      intros [= <- <-]; auto.
  - destruct (_ && task_pending i s) eqn:Hc; [| discriminate].
    unfold summary_received, mbind, cmd_bind. rewrite bind_get. rewrite bind_modify.
    intros H. apply task_settles_shown in H. exact H.
  - destruct (_ && task_pending i s) eqn:Hc; [| discriminate].
    apply task_settles_shown.
  - destruct (_ && task_pending _ s) eqn:Hc; [| discriminate].
    apply task_settles_shown.
  - destruct (_ && task_pending _ s) eqn:Hc; [| discriminate].
    apply task_settles_shown.
  - destruct (revealTimer s); [| discriminate].
    intros [= <- <-]. cbn. auto.
Qed.

Lemma run_request es : forall s s' log,
  awaitingRecommendations s = false ->
  run es s = Some (s', log) ->
  started (app s') = started (app s) /\
  lastSearchRequest (app s') = lastSearchRequest (app s).
Proof.
  induction es as [| e es IH]; intros s s' log Haw; cbn [run].
  - intros [= <- <-]. auto.
  - destruct (exec (deliver e) s) as [[s1 l1] |] eqn:Hstep; [| discriminate].
    destruct (run es s1) as [[s2 l2] |] eqn:Hrun; [| discriminate].
    intros [= <- <-].
    destruct (deliver_request s e s1 l1 Haw Hstep) as (Haw1 & Hst & Hreq).
    destruct (IH s1 s2 l2 Haw1 Hrun) as (Hst2 & Hreq2).
    split; congruence.
Qed.

Lemma cycling_step a req i e s log :
  (i < 4)%nat ->
  exec (deliver e) (cycling a req i) = Some (s, log) ->
  (e = Tick /\ s = cycling a req (Nat.modulo (i + 1) 4) /\ log = []) \/
  (exists fetched, e = RecommendationsNext fetched) \/
  (exists detail, e = RecommendationsError detail /\ at_rest s /\
                  started (app s) = started a /\
                  lastSearchRequest (app s) = Some req /\
                  restaurants (app s) = [] /\ loading (app s) = false).
Proof.
  intros Hi. destruct e as [| fetched | detail | j sum | j | j | j |]; try discriminate.
  - rewrite cycling_tick by exact Hi. intros [= <- <-]. left. auto.
  - intros _. right. left. eauto.
  - intros [= <- <-]. right. right. exists detail. split_all; reflexivity.
Qed.

Lemma run_cycling a req es : forall i s log,
  (i < 4)%nat ->
  run es (cycling a req i) = Some (s, log) ->
  started (app s) = started a /\
  lastSearchRequest (app s) = Some req /\
  ((loading (app s) = true /\ restaurants (app s) = []) \/
   (loading (app s) = false /\ quiescent s)).
Proof.
  induction es as [| e es IH]; intros i s log Hi; cbn [run].
  - intros [= <- <-]. split_all; try reflexivity. left. auto.
  - destruct (exec (deliver e) (cycling a req i)) as [[s1 l1] |] eqn:Hstep; [| discriminate].
    destruct (run es s1) as [[s2 l2] |] eqn:Hrun; [| discriminate].
    intros [= <- <-].
    destruct (cycling_step a req i e s1 l1 Hi Hstep)
      as [(-> & -> & ->) | [(fetched & ->) | (detail & -> & Hrest & Hst & Hreq & Hres & Hload)]].
    + apply (IH _ _ _ (Nat.mod_upper_bound (i + 1) 4 ltac:(lia)) Hrun).
    + destruct fetched as [| r fetched].
      * rewrite cycling_empty in Hstep. injection Hstep as <- <-.
        apply stalled_run in Hrun as (_ & _ & index' & ->).
        split_all; try reflexivity. left. auto.
      * rewrite cycling_dispatch in Hstep by discriminate. injection Hstep as <- <-.
        destruct (run_request es (set_messageInterval (Some i) (dispatched a req (r :: fetched)))
                    s2 l2 eq_refl Hrun) as (Hst & Hreq).
        split; [exact Hst |]. split; [exact Hreq |].
        assert (enriching (length (r :: fetched))
                  (set_messageInterval (Some i) (dispatched a req (r :: fetched)))) as Hen
          by (apply enriching_at, dispatched_enriching; discriminate).
        destruct (fan_in _ es _ _ _ Hen Hrun)
          as [(Hen2 & _) | [(Hst2 & _) | (Hrev & _)]].
        -- left. destruct Hen2. auto.
        -- left. destruct Hst2. auto.
        -- right. split; [destruct Hrev; auto |]. intros e. apply (revealed_step _ _ e Hrev).
    + destruct es as [| e' es].
      * injection Hrun as <- _. split_all; auto. right. split; [exact Hload |].
        intros e. apply at_rest_no_event, Hrest.
      * cbn [run] in Hrun. rewrite (at_rest_no_event s1 e' Hrest) in Hrun. discriminate.
Qed.

(** X3. Whatever callbacks run after [handleSearch(req)], in whatever
    order: the request is remembered for the reroll button, and either
    the overlay is up and no restaurant is shown, or the overlay is down
    and nothing of the search is outstanding. *)
Theorem handleSearch_overlay a req es s log :
  search_then req es a = Some (s, log) ->
  started (app s) = started a /\
  lastSearchRequest (app s) = Some req /\
  ((loading (app s) = true /\ restaurants (app s) = []) \/
   (loading (app s) = false /\ quiescent s)).
Proof.
  rewrite search_then_run.
  destruct (run es _) as [[s2 l2] |] eqn:Hrun; [| discriminate].
  intros [= <- <-].
  apply (run_cycling a req es 0 s2 l2 ltac:(lia) Hrun).
Qed.

Lemma handleSearch_overlay_witness :
  exists s,
    search_then downtown [Tick; RecommendationsNext [sals]; SummaryError 0; RevealTimeout] init =
      Some (s, search_calls downtown ++ [getAISummary "r1"; clearInterval; setTimeout 1500]) /\
    started (app s) = false /\
    lastSearchRequest (app s) = Some downtown /\
    ((loading (app s) = true /\ restaurants (app s) = []) \/
     (loading (app s) = false /\ quiescent s)).
Proof.
  eexists. split; [vm_compute; reflexivity |].
  eapply (handleSearch_overlay init downtown
            [Tick; RecommendationsNext [sals]; SummaryError 0; RevealTimeout]).
  vm_compute. reflexivity.
Defined.

(** *** Completion, for any outcome of the requests *)

Lemma enrichment_completes_witness :
  exists es s' log,
    run (es ++ [RevealTimeout]) (dispatched init downtown [gino]) = Some (s', log) /\
    revealed 1 s' /\
    settlements es = 2%nat /\
    Forall (agrees (fun _ => None) (fun _ => false)) es.
Proof.
  apply (enrichment_completes 1 (fun _ => None) (fun _ => false) 2
           (dispatched init downtown [gino])).
  - reflexivity.
  - apply (dispatched_enriching init downtown [gino]). discriminate.
Defined.

End Cycle.

(** ** More on the results component *)

Section Listing.
Import Model Results.

Implicit Types (c : ResultsComponent) (r : Restaurant).

(** *** The reroll button *)

Lemma rerollRecommendations_locked c :
  loading c = true -> exec rerollRecommendations c = Some (c, []).
Proof.
  intros Hl. unfold rerollRecommendations, exec, mbind, cmd_bind. rewrite bind_get, Hl.
  destruct (lastSearchRequest c); reflexivity.
Qed.

Lemma clicks_locked n : forall c, loading c = true -> exec (clicks n) c = Some (c, []).
Proof.
  induction n as [| n IH]; intros c Hl; [reflexivity |].
  change (clicks (S n)) with (rerollRecommendations ;; clicks n).
  unfold mbind, cmd_bind. rewrite exec_bind.
  pose proof (rerollRecommendations_locked c Hl) as Hex. unfold exec in Hex.
  destruct (rerollRecommendations c) as [[[u c1] l1] |]; [| discriminate].
  injection Hex as -> ->. rewrite (IH c Hl). reflexivity.
Qed.

(** X24. However often the button is clicked in a row, the search is
    emitted once, with the last request, and one 2000 ms timer is set;
    when that timer fires the component is as it was before the first
    click, so the next click emits again. *)
Theorem rerollRecommendations_burst c req (n : nat) :
  lastSearchRequest c = Some req ->
  loading c = false ->
  exists c1,
    exec (clicks (S n)) c = Some (c1, [onReroll_emit req; setTimeout RerollUnlock 2000]) /\
    loading c1 = true /\
    exec (timer_fired RerollUnlock) c1 = Some (c, []).
Proof.
  intros Hreq Hl. exists (set_loading true c).
  change (clicks (S n)) with (rerollRecommendations ;; clicks n).
  unfold mbind, cmd_bind. rewrite exec_bind.
  unfold rerollRecommendations, mbind, cmd_bind. rewrite bind_get, Hreq, Hl.
  cbn [negb bind modify call ret].
  rewrite (clicks_locked n (set_loading true c) eq_refl).
  split_all; try reflexivity.
  destruct c. cbn in Hl. subst. reflexivity.
Qed.

Lemma rerollRecommendations_burst_witness :
  exists c1,
    exec (clicks 3) listing_downtown =
      Some (c1, [onReroll_emit downtown; setTimeout RerollUnlock 2000]) /\
    loading c1 = true /\
    exec (timer_fired RerollUnlock) c1 = Some (listing_downtown, []).
Proof.
  apply (rerollRecommendations_burst listing_downtown downtown 2); reflexivity.
Defined.

(** *** Preloading *)

Lemma preload_each (l : list Restaurant) c :
  exec (foldr (fun restaurant rest =>
                 (match Model.aiSummary restaurant with
                  | Some _ => skip
                  | None => call (getAISummary (id restaurant))
                  end) ;; rest)
              skip l) c =
    Some (c, (fun r => getAISummary (id r)) <$>
             filter (fun r => Model.aiSummary r = None) l).
Proof.
  induction l as [| r l IH]; [reflexivity |].
  cbn [foldr]. unfold mbind, cmd_bind in *. rewrite exec_bind, filter_cons.
  destruct (decide (Model.aiSummary r = None)) as [Hnone | Hsome].
  - rewrite Hnone. cbn [call]. rewrite IH. reflexivity.
  - destruct (Model.aiSummary r); [| congruence]. cbn [skip ret]. rewrite IH. reflexivity.
Qed.

Lemma preloadSummaries_effect c :
  exec preloadSummaries c =
    Some (c, (fun r => getAISummary (id r)) <$>
             filter (fun r => Model.aiSummary r = None) (restaurants c)).
Proof.
  unfold preloadSummaries, mbind, cmd_bind. rewrite exec_bind. cbn [get].
  pose proof (preload_each (restaurants c) c) as H. unfold mbind, cmd_bind in H.
  rewrite H. reflexivity.
Qed.

(** X25. [preloadSummaries] changes nothing in the component and sends one
    request for each restaurant without a summary, in list order, and
    none for a restaurant that has one. *)
Theorem preloadSummaries_requests c :
  exists log,
    exec preloadSummaries c = Some (c, log) /\
    log = (fun r => getAISummary (id r)) <$>
            filter (fun r => Model.aiSummary r = None) (restaurants c) /\
    (forall rid, getAISummary rid ∈ log <->
                 exists r, r ∈ restaurants c /\ Model.aiSummary r = None /\ id r = rid) /\
    (length log <= length (restaurants c))%nat /\
    (Forall has_summary (restaurants c) -> log = []).
Proof.
  eexists. split; [apply preloadSummaries_effect |]. split; [reflexivity |]. split_all.
  - intros rid. rewrite list_elem_of_fmap. split.
    + intros (r & [= ->] & Hr). apply list_elem_of_filter in Hr as [Hnone Hin]. eauto.
    + intros (r & Hin & Hnone & <-). exists r. split; [reflexivity |].
      apply list_elem_of_filter. auto.
  - rewrite length_fmap. apply length_filter.
  - intros Hall. induction Hall as [| r l Hr Hall IH]; [reflexivity |].
    rewrite filter_cons. destruct (decide (Model.aiSummary r = None)); [contradiction |].
    exact IH.
Qed.

(** X26. A summary that the preload received is stored on the restaurant
    itself, so selecting that restaurant afterwards shows it without a
    request; the other restaurants are untouched. *)
Theorem preloadSummaries_next_caches c (i : nat) r summary :
  restaurants c !! i = Some r ->
  exists c1 c2,
    exec (preloadSummaries_next i summary) c = Some (c1, []) /\
    restaurants c1 !! i = Some (Model.set_aiSummary (Some summary) r) /\
    (forall j, j <> i -> restaurants c1 !! j = restaurants c !! j) /\
    exec (selectRestaurant i) c1 = Some (c2, []) /\
    aiSummary c2 = Some summary /\
    loadingSummary c2 = false /\
    selectedRestaurant c2 = Some i.
Proof.
  intros Hrow.
  set (c1 := set_restaurants (alter (Model.set_aiSummary (Some summary)) i (restaurants c)) c).
  assert (restaurants c1 !! i = Some (Model.set_aiSummary (Some summary) r)) as Hrow1.
  { subst c1. cbn [restaurants set_restaurants]. rewrite list_lookup_alter_eq, Hrow. reflexivity. }
  exists c1. eexists. split; [reflexivity |]. split; [exact Hrow1 |]. split.
  - intros j Hne. subst c1. cbn [restaurants set_restaurants].
    apply list_lookup_alter_ne. congruence.
  - rewrite (selectRestaurant_cached c1 i _ summary Hrow1 eq_refl).
    split_all; reflexivity.
Qed.

Lemma preloadSummaries_next_caches_witness :
  exists c1 c2,
    exec (preloadSummaries_next 0 slices) listing = Some (c1, []) /\
    restaurants c1 !! 0%nat = Some (Model.set_aiSummary (Some slices) sals) /\
    (forall j, j <> 0%nat -> restaurants c1 !! j = restaurants listing !! j) /\
    exec (selectRestaurant 0) c1 = Some (c2, []) /\
    aiSummary c2 = Some slices /\
    loadingSummary c2 = false /\
    selectedRestaurant c2 = Some 0%nat.
Proof.
  apply (preloadSummaries_next_caches listing 0 sals slices). reflexivity.
Defined.

(** *** A response that comes late *)

(** X27. The [next] callback of the on-demand fetch does not look at what is
    selected.  If, while the request for row [i] is out, the user opens
    a row [j] that has its summary, the response for [i] replaces the
    summary shown for [j]; if the user closes the panel instead, the
    loading flag stays on and the response is stored with nothing
    selected. *)
Theorem loadAISummary_next_unmatched c (i j : nat) ri rj cached summary :
  restaurants c !! i = Some ri ->
  Model.aiSummary ri = None ->
  restaurants c !! j = Some rj ->
  Model.aiSummary rj = Some cached ->
  exists c1,
    exec (selectRestaurant i) c = Some (c1, [getAISummary (id ri)]) /\
    loadingSummary c1 = true /\
    (exists c2 c3,
        exec (selectRestaurant j) c1 = Some (c2, []) /\
        aiSummary c2 = Some cached /\
        exec (loadAISummary_next summary) c2 = Some (c3, []) /\
        selectedRestaurant c3 = Some j /\
        aiSummary c3 = Some summary) /\
    (exists c2 c3,
        exec closeDetails c1 = Some (c2, []) /\
        loadingSummary c2 = true /\
        exec (loadAISummary_next summary) c2 = Some (c3, []) /\
        selectedRestaurant c3 = None /\
        aiSummary c3 = Some summary).
Proof.
  intros Hi Hnone Hj Hcached.
  eexists. rewrite (selectRestaurant_fetches c i ri Hi Hnone).
  split; [reflexivity |]. split; [reflexivity |]. split.
  - do 2 eexists.
    rewrite (selectRestaurant_cached _ j rj cached); [| exact Hj | exact Hcached].
    split_all; reflexivity.
  - do 2 eexists. split_all; reflexivity.
Qed.

Lemma loadAISummary_next_unmatched_witness :
  exists c1,
    exec (selectRestaurant 0) listing = Some (c1, [getAISummary "r1"]) /\
    loadingSummary c1 = true /\
    (exists c2 c3,
        exec (selectRestaurant 1) c1 = Some (c2, []) /\
        aiSummary c2 = Some margherita /\
        exec (loadAISummary_next slices) c2 = Some (c3, []) /\
        selectedRestaurant c3 = Some 1%nat /\
        aiSummary c3 = Some slices) /\
    (exists c2 c3,
        exec closeDetails c1 = Some (c2, []) /\
        loadingSummary c2 = true /\
        exec (loadAISummary_next slices) c2 = Some (c3, []) /\
        selectedRestaurant c3 = None /\
        aiSummary c3 = Some slices).
Proof.
  apply (loadAISummary_next_unmatched listing 0 1 sals lucia margherita slices); reflexivity.
Defined.

(** *** Any sequence of actions *)

Lemma ids_alter (f : Restaurant -> Restaurant) (l : list Restaurant) :
  (forall r, id (f r) = id r) -> forall i, ids (alter f i l) = ids l.
Proof.
  intros Hf. induction l as [| r l IH]; intros [| i]; cbn; try reflexivity.
  - rewrite Hf. reflexivity.
  - f_equal. apply IH.
Qed.

Lemma kept_refl c : kept c c [].
Proof.
  constructor; auto.
  - intros rid H. inversion H.
  - intros req H. inversion H.
  - intros i r Hi Hr. eauto.
Qed.

Lemma kept_trans c c1 c2 (l1 l2 : list Call) :
  kept c c1 l1 -> kept c1 c2 l2 -> kept c c2 (l1 ++ l2).
Proof.
  intros [Hids1 Hreq1 Hlist1 Hroll1 Hsel1 Hsum1] [Hids2 Hreq2 Hlist2 Hroll2 Hsel2 Hsum2].
  constructor.
  - congruence.
  - congruence.
  - intros rid H. apply elem_of_app in H as [H | H]; [auto |].
    rewrite <- Hids1. auto.
  - intros req H. apply elem_of_app in H as [H | H]; [auto |].
    rewrite <- Hreq1. auto.
  - intros i H. destruct (Hsel2 i H) as [H1 | H1]; [auto |]. right.
    assert (length (ids (restaurants c1)) = length (ids (restaurants c))) as Hlen
      by (rewrite Hids1; reflexivity).
    unfold ids in Hlen. rewrite !length_map in Hlen. lia.
  - intros i r Hi Hr. destruct (Hsum1 i r Hi Hr) as (r1 & Hi1 & Hr1). eauto.
Qed.

Lemma perform_results_kept act c c' log :
  exec (perform_results act) c = Some (c', log) -> kept c c' log.
Proof.
  destruct act as [i | | summary | | | i summary | |]; cbn [perform_results].
  - unfold selectRestaurant, exec, mbind, cmd_bind. rewrite bind_get.
    destruct (restaurants c !! i) as [r |] eqn:Hrow; [| discriminate].
    pose proof (lookup_lt_Some _ _ _ Hrow) as Hlt.
    destruct (Model.aiSummary r); intros [= <- <-]; constructor; cbn; eauto.
    + intros rid H. inversion H.
    + intros req H. inversion H.
    + intros j [= <-]. auto.
    + intros rid H. apply list_elem_of_singleton in H. injection H as ->.
      apply list_elem_of_fmap. exists r. split; [reflexivity |].
      apply (list_elem_of_lookup_2 _ _ _ Hrow).
    + intros req H. apply list_elem_of_singleton in H. discriminate.
    + intros j [= <-]. auto.
  - intros [= <- <-]. constructor; cbn; eauto.
    + intros rid H. inversion H.
    + intros req H. inversion H.
    + intros j H. discriminate.
  - intros [= <- <-]. constructor; cbn; eauto.
    + intros rid H. inversion H.
    + intros req H. inversion H.
  - intros [= <- <-]. constructor; cbn; eauto.
    + intros rid H. inversion H.
    + intros req H. inversion H.
  - rewrite preloadSummaries_effect. intros [= <- <-]. constructor; eauto.
    + intros rid H. apply list_elem_of_fmap in H as (r & [= ->] & Hr).
      apply list_elem_of_filter in Hr as [_ Hin].
      apply list_elem_of_fmap. exists r. auto.
    + intros req H. apply list_elem_of_fmap in H as (r & Habs & _). discriminate.
  - intros [= <- <-]. constructor; cbn [restaurants set_restaurants lastSearchRequest
                                         selectedRestaurant]; eauto.
    + apply ids_alter. intros r. reflexivity.
    + intros rid H. inversion H.
    + intros req H. inversion H.
    + intros j r Hj Hr. destruct (decide (j = i)) as [-> | Hne].
      * exists (Model.set_aiSummary (Some summary) r).
        rewrite list_lookup_alter_eq, Hj. split; [reflexivity | discriminate].
      * exists r. rewrite list_lookup_alter_ne by congruence. auto.
  - unfold rerollRecommendations, exec, mbind, cmd_bind. rewrite bind_get.
    destruct (lastSearchRequest c) as [req |] eqn:Hreq;
      [destruct (loading c) |]; intros [= <- <-]; constructor; cbn; eauto.
    + intros rid H. inversion H.
    + intros req' H. inversion H.
    + intros rid H. apply elem_of_cons in H as [H | H]; [discriminate |].
      apply list_elem_of_singleton in H. discriminate.
    + intros req' H. apply elem_of_cons in H as [H | H]; [congruence |].
      apply list_elem_of_singleton in H. discriminate.
    + intros rid H. inversion H.
    + intros req' H. inversion H.
  - intros [= <- <-]. constructor; cbn; eauto.
    + intros rid H. inversion H.
    + intros req H. inversion H.
Qed.

Lemma perform_all_kept acts : forall c c' log,
  exec (perform_all acts) c = Some (c', log) -> kept c c' log.
Proof.
  induction acts as [| act acts IH]; intros c c' log; cbn [perform_all].
  - intros [= <- <-]. apply kept_refl.
  - unfold mbind, cmd_bind. rewrite exec_bind.
    destruct (perform_results act c) as [[[u c1] l1] |] eqn:Hstep; [| discriminate].
    destruct (exec (perform_all acts) c1) as [[c2 l2] |] eqn:Hrest; [| discriminate].
    intros [= <- <-]. apply (kept_trans c c1 c2).
    + apply (perform_results_kept act). unfold exec. rewrite Hstep. reflexivity.
    + apply IH, Hrest.
Qed.

(** X28. Whatever the user does and whatever the requests answer, in any
    order: the component asks summaries only for restaurants of its
    list and re-emits only the last search request; the listed
    restaurants stay the same ones in the same order, a summary stored
    on one is never removed, and the selected row is a row of the
    list. *)
Theorem results_component_safety acts c c' log :
  exec (perform_all acts) c = Some (c', log) ->
  (forall i, selectedRestaurant c = Some i -> (i < length (restaurants c))%nat) ->
  ids (restaurants c') = ids (restaurants c) /\
  lastSearchRequest c' = lastSearchRequest c /\
  (forall rid, getAISummary rid ∈ log -> rid ∈ ids (restaurants c)) /\
  (forall req, onReroll_emit req ∈ log -> lastSearchRequest c = Some req) /\
  (forall i r, restaurants c !! i = Some r -> has_summary r ->
               exists r', restaurants c' !! i = Some r' /\ has_summary r') /\
  (forall i, selectedRestaurant c' = Some i -> is_Some (restaurants c' !! i)).
Proof.
  intros Hrun Hsel.
  destruct (perform_all_kept acts c c' log Hrun) as [Hids Hreq Hlist Hroll Hsel' Hsum].
  split_all; auto.
  intros i Hi. apply lookup_lt_is_Some_2.
  assert (length (ids (restaurants c')) = length (ids (restaurants c))) as Hlen
    by (rewrite Hids; reflexivity).
  unfold ids in Hlen. rewrite !length_map in Hlen.
  destruct (Hsel' i Hi) as [H | H]; [apply Hsel in H |]; lia.
Qed.

Lemma results_component_safety_witness :
  exists c' log,
    exec (perform_all [Select 0; Preload; PreloadArrived 0 slices; Reroll; Select 1;
                       SummaryArrived slices; Unlock]) listing_downtown = Some (c', log) /\
    log = [getAISummary "r1"; getAISummary "r1"; onReroll_emit downtown;
           setTimeout RerollUnlock 2000] /\
    ids (restaurants c') = ids (restaurants listing_downtown) /\
    lastSearchRequest c' = lastSearchRequest listing_downtown /\
    (forall rid, getAISummary rid ∈ log -> rid ∈ ids (restaurants listing_downtown)) /\
    (forall req, onReroll_emit req ∈ log -> lastSearchRequest listing_downtown = Some req) /\
    (forall i r, restaurants listing_downtown !! i = Some r -> has_summary r ->
                 exists r', restaurants c' !! i = Some r' /\ has_summary r') /\
    (forall i, selectedRestaurant c' = Some i -> is_Some (restaurants c' !! i)).
Proof.
  do 2 eexists. split; [vm_compute; reflexivity |]. split; [reflexivity |].
  eapply (results_component_safety
            [Select 0; Preload; PreloadArrived 0 slices; Reroll; Select 1;
             SummaryArrived slices; Unlock] listing_downtown).
  - vm_compute. reflexivity.
  - intros i H. discriminate.
Defined.

End Listing.

(** ** More on distance validation *)

Section Clamp.
Import Model Search.

Implicit Types (c : SearchComponent).

Lemma validateDistance_effect (event : bool) c :
  exec (validateDistance event) c =
    Some (set_maxDistance (clamp (maxDistance (preferences c))) c, blurred event).
Proof. destruct event; reflexivity. Qed.

Lemma clamp_inside (q : Q) :
  (1 <= q)%Q -> (q <= 50)%Q -> clamp (Js.Num (Js.Fin q)) = Js.Num (Js.Fin q).
Proof.
  intros Hlow Hhigh. unfold clamp. cbn [Js.truthy].
  assert (Qeq_bool q 0 = false) as ->.
  { apply not_true_iff_false. intros Hz. apply Qeq_bool_iff in Hz.
    rewrite Hz in Hlow. apply (Qle_not_lt _ _ Hlow). reflexivity. }
  unfold Js.lt, Js.gt, one, fifty. cbn [Js.toNumber Js.num_lt negb orb].
  apply Qltb_false in Hlow. rewrite Hlow.
  cbn [Js.toNumber Js.num_lt]. apply Qltb_false in Hhigh. rewrite Hhigh. reflexivity.
Qed.

Lemma clamp_range (d : Js.value) :
  exists q, clamp d = Js.Num (Js.Fin q) /\ (1 <= q)%Q /\ (q <= 50)%Q.
Proof.
  destruct d as [ | | [q | | | ]];
    try (exists 1%Q; split; [reflexivity | split; discriminate]);
    try (exists 50%Q; split; [reflexivity | split; discriminate]).
  unfold clamp. cbn [Js.truthy].
  destruct (Qeq_bool q 0) eqn:Hz.
  - exists 1%Q. split; [reflexivity | split; discriminate].
  - unfold Js.lt, Js.gt, one, fifty. cbn [Js.toNumber Js.num_lt negb orb].
    destruct (Js.Qltb q 1) eqn:Hlow.
    + exists 1%Q. split; [reflexivity | split; discriminate].
    + cbn [Js.toNumber Js.num_lt]. destruct (Js.Qltb 50 q) eqn:Hhigh.
      * exists 50%Q. split; [reflexivity | split; discriminate].
      * exists q. apply Qltb_false in Hlow, Hhigh. auto.
Qed.

(** X29. Validating the distance a second time changes nothing, with or
    without an event, and the first validation touches no field but
    [preferences.maxDistance]: putting the old distance back gives the
    old component. *)
Theorem validateDistance_idempotent (event again : bool) c :
  exists c1,
    exec (validateDistance event) c = Some (c1, blurred event) /\
    exec (validateDistance again) c1 = Some (c1, blurred again) /\
    set_maxDistance (maxDistance (preferences c)) c1 = c.
Proof.
  eexists. rewrite validateDistance_effect. split; [reflexivity |]. split.
  - rewrite validateDistance_effect.
    cbn [preferences maxDistance set_maxDistance].
    destruct (clamp_range (maxDistance (preferences c))) as (q & Hq & Hlow & Hhigh).
    rewrite Hq, (clamp_inside q Hlow Hhigh). reflexivity.
  - destruct c as [? ? ? ? ? ? ? ? ? []]. reflexivity.
Qed.

End Clamp.
